(** * gcache: the memory adapter of the cache, its data map, LRU tracker
      and expiry indexes

    A shallow embedding of package [gcache]
    (utils/tools/gcache: gcache_adapter_memory.go and the files of the
    package holding [memoryData], [memoryDataItem], [memoryLru],
    [memoryExpireTimes] and [memoryExpireSets]).

    Conventions.
    - Go's [int64], [int] and [time.Duration] are integers in [Z]; 64-bit
      arithmetic wraps through [wrap64].
    - Go maps are [gmap]s, the key sets of [gset.Set] are [gset]s.
    - [gtime.TimestampMilli()] is the clock; the reading an operation
      obtains is passed to it as the argument [now], and an operation
      that reads the clock more than once obtains the same reading.
    - The mutexes are not modelled: every operation is a function from the
      state before it to the state after it. *)

From Stdlib Require Import ZArith QArith Qround Lia.
From stdpp Require Import base gmap strings list fin_maps fin_sets.

Local Open Scope Z_scope.

Set Warnings "-clear-no-such-hyp".

(** ** Machine integers *)

Definition int64_min : Z := - 2 ^ 63.
Definition int64_max : Z := 2 ^ 63 - 1.

(** Two's complement wrap-around of a 64-bit signed integer. *)
Definition wrap64 (z : Z) : Z := (z + 2 ^ 63) `mod` 2 ^ 64 - 2 ^ 63.

(** [time.Millisecond], in nanoseconds. *)
Definition Millisecond : Z := 1000000.

(** [defaultMaxExpire]: the expiry timestamp of an item that never
    expires. *)
Definition defaultMaxExpire : Z := 9223372036854.

(** ** float64 on integers

    [makeExpireKey] goes through [float64].  Every float it handles is
    integer valued, so a float is represented by the integer it denotes,
    and each operation rounds its exact result to the nearest binary64
    value, ties to even (53 bits of mantissa). *)

Definition float64_round (z : Z) : Z :=
  let a := Z.abs z in
  if a <? 2 ^ 53 then z
  else
    let k := Z.log2 a - 52 in
    let m := a / 2 ^ k in
    let r := a `mod` 2 ^ k in
    let half := 2 ^ (k - 1) in
    let m' := if (half <? r) || ((r =? half) && Z.odd m) then m + 1 else m in
    Z.sgn z * (m' * 2 ^ k).

(** [float64(x)] of an [int64]. *)
Definition float64_of_int64 (x : Z) : Z := float64_round x.
Definition float64_add (x y : Z) : Z := float64_round (x + y).
Definition float64_mul (x y : Z) : Z := float64_round (x * y).
(** [math.Ceil] is the identity on an integer valued float. *)
Definition math_Ceil (x : Z) : Z := x.
(** [int64(f)]: the value when it fits; out of range the result depends
    on the platform, and is the one of amd64 here. *)
Definition int64_of_float64 (f : Z) : Z :=
  if (int64_min <=? f) && (f <=? int64_max) then f else int64_min.

(** ** Keys and values *)

(** A key is a Go [interface{}], and one of its values is the nil
    interface.  [nil_key] is that key, when the type that stands for the
    keys has it.  The maps, the sets and the list of the package hold
    the nil key as they hold any other key; the tracker tells it from
    the other keys where it tests a key popped from its list against
    nil. *)
Class NilKey (K : Type) := nil_key : option K.

Section Cache.

(** [K]: the keys, with Go's equality of interface values. *)
Context {K : Type} `{Countable K} {nilK : NilKey K}.
(** [V]: the plain values stored, [Err]: Go's non-nil [error]s, [Ctx]:
    [context.Context]. *)
Context {V Err Ctx : Type}.

(** [key == nil]. *)
Definition key_is_nil (key : K) : bool := bool_decide (nil_key = Some key).

(** [interface{}] as the cache sees it: [nil], a plain value, or a
    producer of type [Func = func(ctx) (value interface{}, err error)].
    A nil [error] is [None]. *)
#[local] Unset Elimination Schemes.
Inductive any : Type :=
  | Nil
  | Val (x : V)
  | Fn (f : Ctx -> any * option Err).
#[local] Set Elimination Schemes.

Definition Func : Type := Ctx -> any * option Err.

(** [*gvar.Var]: [None] is the nil pointer, [Some x] is [gvar.New(x)],
    which is never nil, also when [x] is. *)
Definition Var : Type := option any.
Definition gvar_New (x : any) : Var := Some x.

(** ** memoryDataItem *)

Record memoryDataItem : Type := mkItem {
  item_v : any;  (* v: the value *)
  item_e : Z     (* e: expire timestamp in milliseconds *)
}.

(** [IsExpired]: [item.e < gtime.TimestampMilli()]. *)
Definition IsExpired (item : memoryDataItem) (now : Z) : bool :=
  item_e item <? now.

(** ** memoryData *)

Abbreviation memoryData := (gmap K memoryDataItem).

Definition newMemoryData : memoryData := ∅.

Definition memoryData_Update (d : memoryData) (key : K) (value : any)
  : memoryData * (any * bool) :=
  match d !! key with
  | Some item => (<[key := mkItem value (item_e item)]> d, (item_v item, true))
  | None => (d, (Nil, false))
  end.

(** Returns the old duration, [-1] when the key is absent. *)
Definition memoryData_UpdateExpire (d : memoryData) (now : Z) (key : K)
    (expireTime : Z) : memoryData * Z :=
  match d !! key with
  | Some item =>
      (<[key := mkItem (item_v item) expireTime]> d,
       wrap64 (wrap64 (item_e item - now) * Millisecond))
  | None => (d, -1)
  end.

(** The loop of [Remove]: the state is the map, the removed keys so far
    and the value of the last removed item. *)
Definition memoryData_Remove_step (st : memoryData * (list K * any)) (key : K)
  : memoryData * (list K * any) :=
  let '(d, (removedKeys, value)) := st in
  match d !! key with
  | Some item => (delete key d, (removedKeys ++ [key], item_v item))
  | None => st
  end.

Definition memoryData_Remove (d : memoryData) (keys : list K)
  : memoryData * (list K * any) :=
  foldl memoryData_Remove_step (d, ([], Nil)) keys.

(** The entries the snapshots keep: [v.e > nowMilli]. *)
Definition memoryData_live (d : memoryData) (now : Z) : memoryData :=
  filter (λ kv, now < item_e kv.2) d.

Definition memoryData_Data (d : memoryData) (now : Z) : gmap K any :=
  item_v <$> memoryData_live d now.

(** Go iterates a map in no fixed order; the order of [map_to_list] stands
    for it. *)
Definition memoryData_Keys (d : memoryData) (now : Z) : list K :=
  (map_to_list (memoryData_live d now)).*1.

Definition memoryData_Values (d : memoryData) (now : Z) : list any :=
  item_v <$> (map_to_list (memoryData_live d now)).*2.

Definition memoryData_Size (d : memoryData) (now : Z) : Z :=
  Z.of_nat (size (memoryData_live d now)).

Definition memoryData_Clear (d : memoryData) : memoryData := ∅.

Definition memoryData_Get (d : memoryData) (key : K) : option memoryDataItem :=
  d !! key.

Definition memoryData_Set (d : memoryData) (key : K) (value : memoryDataItem)
  : memoryData :=
  <[key := value]> d.

Definition memoryData_SetMap (d : memoryData) (data : list (K * any))
    (expireTime : Z) : memoryData :=
  foldl (λ d kv, <[kv.1 := mkItem kv.2 expireTime]> d) d data.

(** The result of [SetWithLock]: the returned value and error, the map
    afterwards, and how many times the producer was invoked. *)
Record SetWithLockResult : Type := mkSWL {
  swl_value : any;
  swl_err : option Err;
  swl_data : memoryData;
  swl_calls : nat
}.

Definition memoryData_SetWithLock (ctx : Ctx) (d : memoryData) (now : Z)
    (key : K) (value : any) (expireTimestamp : Z) : SetWithLockResult :=
  let store (value : any) (calls : nat) :=
    mkSWL value None (<[key := mkItem value expireTimestamp]> d) calls in
  let produce :=
    match value with
    | Fn f =>
        match f ctx with
        | (_, Some err) => mkSWL Nil (Some err) d 1
        | (Nil, None) => mkSWL Nil None d 1
        | (value', None) => store value' 1%nat
        end
    | _ => store value 0%nat
    end in
  match d !! key with
  | Some v => if negb (IsExpired v now) then mkSWL (item_v v) None d 0 else produce
  | None => produce
  end.

Definition memoryData_Delete (d : memoryData) (key : K) : memoryData :=
  delete key d.


(** ** memoryLru

    [l.list] is the list of keys, most recently used first.  [l.data] maps
    a key to its element of [l.list]; the element is the node that holds
    the key, so the map is represented by its set of keys, and removing
    the element of a key removes the first node holding it.  An element
    that [PopBack] has taken out of the list while its key stayed in
    [l.data] is detached: its key is in [lru_data] and not in
    [lru_list]. *)

Record memoryLru : Type := mkLru {
  lru_cap : Z;          (* cap *)
  lru_data : gset K;    (* data *)
  lru_list : list K     (* list *)
}.

Definition newMemoryLru (cap : Z) : memoryLru := mkLru cap ∅ [].

(** [l.list.Remove(element)] for the element of [key]. *)
Fixpoint list_Remove (key : K) (l : list K) : list K :=
  match l with
  | [] => []
  | x :: l' => if decide (x = key) then l' else x :: list_Remove key l'
  end.

(** [l.list.PopBack()]: the list without its last element, and that
    element. *)
Definition list_PopBack (l : list K) : list K * option K :=
  (removelast l, last l).

Definition memoryLru_Remove_step (l : memoryLru) (key : K) : memoryLru :=
  if decide (key ∈ lru_data l)
  then mkLru (lru_cap l) (lru_data l ∖ {[key]}) (list_Remove key (lru_list l))
  else l.

(** The receiver may be nil: [None]. *)
Definition memoryLru_Remove (l : option memoryLru) (keys : list K)
  : option memoryLru :=
  match l with
  | None => None
  | Some l => Some (foldl memoryLru_Remove_step l keys)
  end.

(** [element.Prev() == nil] for the element that [l.data] has for
    [key]: the element is the front of the list, or it is detached
    ([Prev] of an element that is in no list is nil). *)
Definition is_front (key : K) (l : list K) : bool :=
  bool_decide (key ∉ l) || bool_decide (head l = Some key).

(** [doSaveAndEvict].  The result [evictedKey] is an [interface{}]:
    [None] is the nil interface.  [PopBack] gives the key of the element
    it takes out, so it gives nil for an empty list and for the nil key
    alike; the test [evictedKey != nil] then leaves the nil key in
    [l.data], and the function gives back nil. *)
Definition memoryLru_doSaveAndEvict (l : memoryLru) (key : K)
  : memoryLru * option K :=
  if bool_decide (key ∈ lru_data l) && is_front key (lru_list l)
  then (l, None)
  else
    let list1 :=
      if bool_decide (key ∈ lru_data l)
      then list_Remove key (lru_list l) else lru_list l in
    let list2 := key :: list1 in
    let data2 := {[key]} ∪ lru_data l in
    if Z.of_nat (size data2) <=? lru_cap l
    then (mkLru (lru_cap l) data2 list2, None)
    else
      match list_PopBack list2 with
      | (list3, Some popped) =>
          if key_is_nil popped
          then (mkLru (lru_cap l) data2 list3, None)
          else (mkLru (lru_cap l) (data2 ∖ {[popped]}) list3, Some popped)
      | (list3, None) => (mkLru (lru_cap l) data2 list3, None)
      end.

(** The body of the loop of [SaveAndEvict]: [evictedKey != nil] is
    [Some], so a popped nil key is not among the evicted keys. *)
Definition memoryLru_SaveAndEvict_step (st : memoryLru * list K) (key : K)
  : memoryLru * list K :=
  let '(l, evictedKeys) := st in
  match memoryLru_doSaveAndEvict l key with
  | (l', Some evictedKey) => (l', evictedKeys ++ [evictedKey])
  | (l', None) => (l', evictedKeys)
  end.

Definition memoryLru_SaveAndEvict (l : memoryLru) (keys : list K)
  : memoryLru * list K :=
  foldl memoryLru_SaveAndEvict_step (l, []) keys.

Definition memoryLru_Clear (l : option memoryLru) : option memoryLru :=
  match l with
  | None => None
  | Some l => Some (mkLru (lru_cap l) ∅ [])
  end.

(** ** memoryExpireTimes and memoryExpireSets *)

Abbreviation memoryExpireTimes := (gmap K Z).
Abbreviation memoryExpireSets := (gmap Z (gset K)).

(** A missing key reads as the zero value. *)
Definition memoryExpireTimes_Get (d : memoryExpireTimes) (key : K) : Z :=
  default 0 (d !! key).

Definition memoryExpireTimes_Set (d : memoryExpireTimes) (key : K) (value : Z)
  : memoryExpireTimes :=
  <[key := value]> d.

Definition memoryExpireTimes_Delete (d : memoryExpireTimes) (key : K)
  : memoryExpireTimes :=
  delete key d.

Definition memoryExpireSets_Get (d : memoryExpireSets) (key : Z)
  : option (gset K) :=
  d !! key.

(** [GetOrNew]: the set at [key], created empty and stored when there is
    none. *)
Definition memoryExpireSets_GetOrNew (d : memoryExpireSets) (key : Z)
  : memoryExpireSets * gset K :=
  match d !! key with
  | Some result => (d, result)
  | None => (<[key := ∅]> d, ∅)
  end.

Definition memoryExpireSets_Delete (d : memoryExpireSets) (key : Z)
  : memoryExpireSets :=
  delete key d.

(** [d.GetOrNew(key).Add(k)]: the set is shared with the map, so adding
    to it updates the entry of the map. *)
Definition memoryExpireSets_GetOrNew_Add (d : memoryExpireSets) (key : Z)
    (k : K) : memoryExpireSets :=
  let '(d', s) := memoryExpireSets_GetOrNew d key in
  <[key := {[k]} ∪ s]> d'.

(** [d.GetOrNew(key).Remove(k)]. *)
Definition memoryExpireSets_GetOrNew_Remove (d : memoryExpireSets) (key : Z)
    (k : K) : memoryExpireSets :=
  let '(d', s) := memoryExpireSets_GetOrNew d key in
  <[key := s ∖ {[k]}]> d'.

(** ** AdapterMemory *)

(** The internal event item: a key and its expire time in milliseconds. *)
Record adapterMemoryEvent : Type := mkEvent {
  ev_k : K;
  ev_e : Z
}.

(** [lru] is [None] when the cache was made without a capacity; the
    event list is in queue order, the front first. *)
Record AdapterMemory : Type := mkAdapter {
  data : memoryData;
  expireTimes : memoryExpireTimes;
  expireSets : memoryExpireSets;
  lru : option memoryLru;
  eventList : list adapterMemoryEvent;
  closed : bool
}.

Definition set_data (c : AdapterMemory) (d : memoryData) : AdapterMemory :=
  mkAdapter d (expireTimes c) (expireSets c) (lru c) (eventList c) (closed c).
Definition set_lru (c : AdapterMemory) (l : option memoryLru) : AdapterMemory :=
  mkAdapter (data c) (expireTimes c) (expireSets c) l (eventList c) (closed c).
Definition set_closed (c : AdapterMemory) (b : bool) : AdapterMemory :=
  mkAdapter (data c) (expireTimes c) (expireSets c) (lru c) (eventList c) b.
Definition set_indexes (c : AdapterMemory) (t : memoryExpireTimes)
    (s : memoryExpireSets) : AdapterMemory :=
  mkAdapter (data c) t s (lru c) (eventList c) (closed c).
Definition set_eventList (c : AdapterMemory) (evs : list adapterMemoryEvent)
  : AdapterMemory :=
  mkAdapter (data c) (expireTimes c) (expireSets c) (lru c) evs (closed c).
(** [c.eventList.PushBack(ev)]. *)
Definition PushBack (c : AdapterMemory) (ev : adapterMemoryEvent)
  : AdapterMemory :=
  set_eventList c (eventList c ++ [ev]).

Definition doNewAdapterMemory : AdapterMemory :=
  mkAdapter newMemoryData ∅ ∅ None [] false.

Definition NewAdapterMemory : AdapterMemory := doNewAdapterMemory.

Definition NewAdapterMemoryLru (cap : Z) : AdapterMemory :=
  set_lru doNewAdapterMemory (Some (newMemoryLru cap)).

(** [getInternalExpire]: the duration, in nanoseconds, as an expire
    timestamp in milliseconds. *)
Definition getInternalExpire (now : Z) (duration : Z) : Z :=
  if duration =? 0 then defaultMaxExpire
  else wrap64 (now + duration ÷ 1000000).

(** [makeExpireKey]:
    [int64(math.Ceil(float64(expire/1000)+1) * 1000)]. *)
Definition makeExpireKey (expire : Z) : Z :=
  int64_of_float64
    (float64_mul
       (math_Ceil (float64_add (float64_of_int64 (expire ÷ 1000)) 1))
       1000).

Definition doRemove (c : AdapterMemory) (now : Z) (keys : list K)
  : AdapterMemory * Var :=
  let '(d, (removedKeys, value)) := memoryData_Remove (data c) keys in
  (foldl (λ c key, PushBack c (mkEvent key (wrap64 (now - 1000))))
         (set_data c d) removedKeys,
   gvar_New value).

Definition handleLruKey (c : AdapterMemory) (now : Z) (keys : list K)
  : AdapterMemory :=
  match lru c with
  | None => c
  | Some l =>
      let '(l', evictedKeys) := memoryLru_SaveAndEvict l keys in
      let c' := set_lru c (Some l') in
      if (0 <? length evictedKeys)%nat
      then (doRemove c' now evictedKeys).1
      else c'
  end.

Definition AdapterMemory_Set (c : AdapterMemory) (now : Z) (key : K)
    (value : any) (duration : Z) : AdapterMemory :=
  let expireTime := getInternalExpire now duration in
  let c1 := set_data c (memoryData_Set (data c) key (mkItem value expireTime)) in
  let c2 := PushBack c1 (mkEvent key expireTime) in
  handleLruKey c2 now [key].

(** [SetMap]: the map given is iterated in the order of [map_to_list];
    [handleLruKey] does nothing when there is no tracker. *)
Definition AdapterMemory_SetMap (c : AdapterMemory) (now : Z)
    (values : gmap K any) (duration : Z) : AdapterMemory :=
  let expireTime := getInternalExpire now duration in
  let kvs := map_to_list values in
  let c1 := set_data c (memoryData_SetMap (data c) kvs expireTime) in
  let c2 := foldl (λ c kv, PushBack c (mkEvent kv.1 expireTime)) c1 kvs in
  foldl (λ c kv, handleLruKey c now [kv.1]) c2 kvs.

Definition AdapterMemory_Get (c : AdapterMemory) (now : Z) (key : K)
  : AdapterMemory * Var :=
  match memoryData_Get (data c) key with
  | Some item =>
      if negb (IsExpired item now)
      then (handleLruKey c now [key], gvar_New (item_v item))
      else (c, None)
  | None => (c, None)
  end.

Definition AdapterMemory_Contains (c : AdapterMemory) (now : Z) (key : K)
  : AdapterMemory * bool :=
  let '(c', v) := AdapterMemory_Get c now key in
  (c', bool_decide (v ≠ None)).

Definition doSetWithLockCheck (c : AdapterMemory) (ctx : Ctx) (now : Z)
    (key : K) (value : any) (duration : Z)
  : AdapterMemory * (Var * option Err) :=
  let expireTimestamp := getInternalExpire now duration in
  let r := memoryData_SetWithLock ctx (data c) now key value expireTimestamp in
  let c' := PushBack (set_data c (swl_data r)) (mkEvent key expireTimestamp) in
  (c', (gvar_New (swl_value r), swl_err r)).

(** The deferred [handleLruKey] runs on every way out. *)
Definition AdapterMemory_SetIfNotExist (c : AdapterMemory) (ctx : Ctx)
    (now : Z) (key : K) (value : any) (duration : Z)
  : AdapterMemory * (bool * option Err) :=
  let '(c1, isContained) := AdapterMemory_Contains c now key in
  if negb isContained then
    let '(c2, (_, err)) := doSetWithLockCheck c1 ctx now key value duration in
    match err with
    | Some err => (handleLruKey c2 now [key], (false, Some err))
    | None => (handleLruKey c2 now [key], (true, None))
    end
  else (handleLruKey c1 now [key], (false, None)).

Definition AdapterMemory_GetExpire (c : AdapterMemory) (now : Z) (key : K)
  : AdapterMemory * Z :=
  match memoryData_Get (data c) key with
  | Some item =>
      (handleLruKey c now [key],
       wrap64 (wrap64 (item_e item - now) * Millisecond))
  | None => (c, -1)
  end.

Definition AdapterMemory_Remove (c : AdapterMemory) (now : Z) (keys : list K)
  : AdapterMemory * Var :=
  let '(c', value) := doRemove c now keys in
  (set_lru c' (memoryLru_Remove (lru c') keys), value).

Definition AdapterMemory_Update (c : AdapterMemory) (now : Z) (key : K)
    (value : any) : AdapterMemory * (Var * bool) :=
  let '(d, (v, exist_)) := memoryData_Update (data c) key value in
  let c1 := set_data c d in
  (if exist_ then handleLruKey c1 now [key] else c1, (gvar_New v, exist_)).

Definition AdapterMemory_UpdateExpire (c : AdapterMemory) (now : Z) (key : K)
    (duration : Z) : AdapterMemory * Z :=
  let newExpireTime := getInternalExpire now duration in
  let '(d, oldDuration) :=
    memoryData_UpdateExpire (data c) now key newExpireTime in
  let c1 := set_data c d in
  if oldDuration =? -1 then (c1, oldDuration)
  else (handleLruKey (PushBack c1 (mkEvent key newExpireTime)) now [key],
        oldDuration).

Definition AdapterMemory_Size (c : AdapterMemory) (now : Z) : Z :=
  memoryData_Size (data c) now.
Definition AdapterMemory_Data (c : AdapterMemory) (now : Z) : gmap K any :=
  memoryData_Data (data c) now.
Definition AdapterMemory_Keys (c : AdapterMemory) (now : Z) : list K :=
  memoryData_Keys (data c) now.
Definition AdapterMemory_Values (c : AdapterMemory) (now : Z) : list any :=
  memoryData_Values (data c) now.

Definition AdapterMemory_Clear (c : AdapterMemory) : AdapterMemory :=
  set_lru (set_data c (memoryData_Clear (data c))) (memoryLru_Clear (lru c)).

Definition AdapterMemory_Close (c : AdapterMemory) : AdapterMemory :=
  set_closed c true.

(** A sequence of calls of [Set], each with the clock reading it
    obtains. *)
Record SetCall : Type := mkSetCall {
  call_now : Z;
  call_key : K;
  call_value : any;
  call_duration : Z
}.

Definition run_Set (c : AdapterMemory) (s : SetCall) : AdapterMemory :=
  AdapterMemory_Set c (call_now s) (call_key s) (call_value s) (call_duration s).

Definition run_Sets (c : AdapterMemory) (calls : list SetCall) : AdapterMemory :=
  foldl run_Set c calls.

(** The item that a call of [Set] writes. *)
Definition call_item (s : SetCall) : memoryDataItem :=
  mkItem (call_value s) (getInternalExpire (call_now s) (call_duration s)).

(** ** The sweeper: syncEventAndClearExpired *)

(** The body of the first loop, for one event popped from the front of
    the event list. *)
Definition syncEvent (st : memoryExpireTimes * memoryExpireSets)
    (event : adapterMemoryEvent) : memoryExpireTimes * memoryExpireSets :=
  let '(times, sets) := st in
  let oldExpireTime := memoryExpireTimes_Get times (ev_k event) in
  let newExpireTime := makeExpireKey (ev_e event) in
  if bool_decide (newExpireTime ≠ oldExpireTime) then
    let sets1 := memoryExpireSets_GetOrNew_Add sets newExpireTime (ev_k event) in
    let sets2 :=
      if bool_decide (oldExpireTime ≠ 0)
      then memoryExpireSets_GetOrNew_Remove sets1 oldExpireTime (ev_k event)
      else sets1 in
    (memoryExpireTimes_Set times (ev_k event) newExpireTime, sets2)
  else st.

(** The first loop: every event of the list, from the front. *)
Definition syncEvents (st : memoryExpireTimes * memoryExpireSets)
    (events : list adapterMemoryEvent) : memoryExpireTimes * memoryExpireSets :=
  foldl syncEvent st events.

Definition deleteExpiredKey (c : AdapterMemory) (key : K) : AdapterMemory :=
  let c1 := set_data c (memoryData_Delete (data c) key) in
  set_indexes c1 (memoryExpireTimes_Delete (expireTimes c1) key) (expireSets c1).

(** The body of the second loop for the set at [expireTime], when there
    is one; the set is iterated over a copy of its keys. *)
Definition clearExpiredSet (c : AdapterMemory) (expireTime : Z)
  : AdapterMemory :=
  match memoryExpireSets_Get (expireSets c) expireTime with
  | Some expireSet =>
      let c1 :=
        foldl (λ c key,
                 let c' := deleteExpiredKey c key in
                 set_lru c' (memoryLru_Remove (lru c') [key]))
              c (elements expireSet) in
      set_indexes c1 (expireTimes c1)
                  (memoryExpireSets_Delete (expireSets c1) expireTime)
  | None => c
  end.

(** The second loop: [i] from 1 to 5. *)
Definition clearExpired (c : AdapterMemory) (now : Z) : AdapterMemory :=
  let currentEk := makeExpireKey now in
  foldl (λ c i, clearExpiredSet c (wrap64 (currentEk - wrap64 (i * 1000))))
        c [1; 2; 3; 4; 5].

Definition syncEventAndClearExpired (c : AdapterMemory) (now : Z)
  : AdapterMemory :=
  if closed c then c
  else
    let '(times, sets) :=
      syncEvents (expireTimes c, expireSets c) (eventList c) in
    clearExpired (set_eventList (set_indexes c times sets) []) now.

(** ** The invariants of the expiry indexes *)

(** The bucket at [b] exists and holds [k]. *)
Definition in_bucket (sets : memoryExpireSets) (b : Z) (k : K) : Prop :=
  ∃ s, sets !! b = Some s ∧ k ∈ s.

(** Every key of the index maps to a bucket that contains it. *)
Definition index_in_bucket (times : memoryExpireTimes)
    (sets : memoryExpireSets) : Prop :=
  ∀ k b, times !! k = Some b → in_bucket sets b k.

(** Every key of a bucket is in the index, mapped to that bucket. *)
Definition bucket_in_index (times : memoryExpireTimes)
    (sets : memoryExpireSets) : Prop :=
  ∀ b s k, sets !! b = Some s → k ∈ s → times !! k = Some b.

(** A key belongs to at most one bucket. *)
Definition one_bucket (sets : memoryExpireSets) : Prop :=
  ∀ k b1 b2 s1 s2,
    sets !! b1 = Some s1 → sets !! b2 = Some s2 → k ∈ s1 → k ∈ s2 → b1 = b2.

Definition index_inv (st : memoryExpireTimes * memoryExpireSets) : Prop :=
  index_in_bucket st.1 st.2 ∧ bucket_in_index st.1 st.2 ∧ one_bucket st.2.

(** No key is indexed at bucket 0, the value [memoryExpireTimes_Get]
    gives for a missing key. *)
Definition no_zero_bucket (st : memoryExpireTimes * memoryExpireSets) : Prop :=
  ∀ k, st.1 !! k ≠ Some 0.

(** ** Liveness of a key *)

(** The key is present in the map and its item is not expired. *)
Definition is_live (d : memoryData) (now : Z) (key : K) : Prop :=
  ∃ item, d !! key = Some item ∧ IsExpired item now = false.

(** ** The invariants of the LRU tracker *)

(** The map and the list of the tracker hold the same keys, each once. *)
Definition lru_wf (l : memoryLru) : Prop :=
  NoDup (lru_list l) ∧ lru_data l = list_to_set (lru_list l).

(** The invariant of the cache and its tracker, kept by every operation
    as long as the tracker does not hold the nil key: the tracker, when
    there is one, is well formed, holds every key of the data map, and
    is within its capacity. *)
Definition cache_inv (c : AdapterMemory) : Prop :=
  match lru c with
  | None => True
  | Some l =>
      lru_wf l ∧ dom (data c) ⊆ lru_data l ∧
      Z.of_nat (size (lru_data l)) <= lru_cap l
  end.

(** The invariant of the tracker that every operation keeps, with the
    nil key in use or not: the list has no key twice and is within the
    capacity, its keys are keys of the map, and a key of the map that
    is not in the list, whose element is detached, is the nil key. *)
Definition lru_inv (l : memoryLru) : Prop :=
  NoDup (lru_list l) ∧
  Z.of_nat (length (lru_list l)) <= lru_cap l ∧
  (∀ k, k ∈ lru_list l → k ∈ lru_data l) ∧
  (∀ k, k ∈ lru_data l → k ∉ lru_list l → key_is_nil k = true).

(** The same for the cache: the tracker, when there is one, satisfies
    its invariant and holds every key of the data map but, in the
    middle of an operation, after its writes to the data map and before
    its touches of the tracker, the keys of [pending]. *)
Definition cache_lru_inv (c : AdapterMemory) (pending : gset K) : Prop :=
  match lru c with
  | None => True
  | Some l => lru_inv l ∧ dom (data c) ⊆ pending ∪ lru_data l
  end.

(** The tracker does not hold the nil key. *)
Definition lru_no_nil (l : memoryLru) : Prop :=
  ∀ k, k ∈ lru_data l → key_is_nil k = false.

(** The tracker of the cache, when there is one, is well formed and has
    room for a key. *)
Definition cache_lru_ok (c : AdapterMemory) : Prop :=
  match lru c with
  | None => True
  | Some l => lru_wf l ∧ 1 <= lru_cap l
  end.

(** The tracker of the cache, when there is one, is well formed, within
    its capacity, and holds [key]. *)
Definition lru_tracks (c : AdapterMemory) (key : K) : Prop :=
  match lru c with
  | None => True
  | Some l =>
      lru_wf l ∧ key ∈ lru_data l ∧ Z.of_nat (size (lru_data l)) <= lru_cap l
  end.

(** The tracker of the cache, when there is one, holds [key] at the
    front of its list. *)
Definition lru_front (c : AdapterMemory) (key : K) : Prop :=
  match lru c with
  | None => True
  | Some l => key ∈ lru_data l ∧ head (lru_list l) = Some key
  end.

(** ** The read-through and set-if-absent operations with producers *)

(** What such an operation gives back: the cache afterwards, the result,
    the error, and how many times a producer was invoked. *)
Record Outcome (R : Type) : Type := mkOutcome {
  out_cache : AdapterMemory;
  out_result : R;
  out_err : option Err;
  out_calls : nat
}.
Arguments mkOutcome {R} _ _ _ _.
Arguments out_cache {R} _.
Arguments out_result {R} _.
Arguments out_err {R} _.
Arguments out_calls {R} _.

(** The number of producer calls inside [doSetWithLockCheck]. *)
Definition doSetWithLockCheck_calls (c : AdapterMemory) (ctx : Ctx) (now : Z)
    (key : K) (value : any) (duration : Z) : nat :=
  swl_calls (memoryData_SetWithLock ctx (data c) now key value
               (getInternalExpire now duration)).

(** [SetIfNotExistFunc]: the producer is called outside the lock, and its
    result is given to [doSetWithLockCheck] as the value. *)
Definition AdapterMemory_SetIfNotExistFunc (c : AdapterMemory) (ctx : Ctx)
    (now : Z) (key : K) (f : Func) (duration : Z) : Outcome bool :=
  let '(c1, isContained) := AdapterMemory_Contains c now key in
  if negb isContained then
    match f ctx with
    | (_, Some err) => mkOutcome (handleLruKey c1 now [key]) false (Some err) 1
    | (value, None) =>
        let '(c2, (_, err)) := doSetWithLockCheck c1 ctx now key value duration in
        let calls := S (doSetWithLockCheck_calls c1 ctx now key value duration) in
        match err with
        | Some err => mkOutcome (handleLruKey c2 now [key]) false (Some err) calls
        | None => mkOutcome (handleLruKey c2 now [key]) true None calls
        end
    end
  else mkOutcome (handleLruKey c1 now [key]) false None 0.

(** [SetIfNotExistFuncLock]: the producer itself is given to
    [doSetWithLockCheck], which calls it under the lock. *)
Definition AdapterMemory_SetIfNotExistFuncLock (c : AdapterMemory) (ctx : Ctx)
    (now : Z) (key : K) (f : Func) (duration : Z) : Outcome bool :=
  let '(c1, isContained) := AdapterMemory_Contains c now key in
  if negb isContained then
    let '(c2, (_, err)) := doSetWithLockCheck c1 ctx now key (Fn f) duration in
    let calls := doSetWithLockCheck_calls c1 ctx now key (Fn f) duration in
    match err with
    | Some err => mkOutcome (handleLruKey c2 now [key]) false (Some err) calls
    | None => mkOutcome (handleLruKey c2 now [key]) true None calls
    end
  else mkOutcome (handleLruKey c1 now [key]) false None 0.

Definition AdapterMemory_GetOrSet (c : AdapterMemory) (ctx : Ctx) (now : Z)
    (key : K) (value : any) (duration : Z) : Outcome Var :=
  let '(c1, v) := AdapterMemory_Get c now key in
  match v with
  | None =>
      let '(c2, (result, err)) := doSetWithLockCheck c1 ctx now key value duration in
      mkOutcome (handleLruKey c2 now [key]) result err
                (doSetWithLockCheck_calls c1 ctx now key value duration)
  | Some _ => mkOutcome (handleLruKey c1 now [key]) v None 0
  end.

Definition AdapterMemory_GetOrSetFunc (c : AdapterMemory) (ctx : Ctx) (now : Z)
    (key : K) (f : Func) (duration : Z) : Outcome Var :=
  let '(c1, v) := AdapterMemory_Get c now key in
  match v with
  | None =>
      match f ctx with
      | (_, Some err) => mkOutcome (handleLruKey c1 now [key]) None (Some err) 1
      | (Nil, None) => mkOutcome (handleLruKey c1 now [key]) None None 1
      | (value, None) =>
          let '(c2, (result, err)) :=
            doSetWithLockCheck c1 ctx now key value duration in
          mkOutcome (handleLruKey c2 now [key]) result err
                    (S (doSetWithLockCheck_calls c1 ctx now key value duration))
      end
  | Some _ => mkOutcome (handleLruKey c1 now [key]) v None 0
  end.

Definition AdapterMemory_GetOrSetFuncLock (c : AdapterMemory) (ctx : Ctx)
    (now : Z) (key : K) (f : Func) (duration : Z) : Outcome Var :=
  let '(c1, v) := AdapterMemory_Get c now key in
  match v with
  | None =>
      let '(c2, (result, err)) :=
        doSetWithLockCheck c1 ctx now key (Fn f) duration in
      mkOutcome (handleLruKey c2 now [key]) result err
                (doSetWithLockCheck_calls c1 ctx now key (Fn f) duration)
  | Some _ => mkOutcome (handleLruKey c1 now [key]) v None 0
  end.

(** ** Runs of the cache *)

(** The operations that change the cache, and the tick of the sweeper. *)
Inductive Op : Type :=
  | OpSet (key : K) (value : any) (duration : Z)
  | OpSetMap (values : gmap K any) (duration : Z)
  | OpSetIfNotExist (key : K) (value : any) (duration : Z)
  | OpSetIfNotExistFunc (key : K) (f : Func) (duration : Z)
  | OpSetIfNotExistFuncLock (key : K) (f : Func) (duration : Z)
  | OpGet (key : K)
  | OpGetOrSet (key : K) (value : any) (duration : Z)
  | OpGetOrSetFunc (key : K) (f : Func) (duration : Z)
  | OpGetOrSetFuncLock (key : K) (f : Func) (duration : Z)
  | OpContains (key : K)
  | OpGetExpire (key : K)
  | OpRemove (keys : list K)
  | OpUpdate (key : K) (value : any)
  | OpUpdateExpire (key : K) (duration : Z)
  | OpClear
  | OpClose
  | OpTick.

(** The cache after an operation that reads the clock at [now]. *)
Definition apply_op (ctx : Ctx) (c : AdapterMemory) (now : Z) (op : Op)
  : AdapterMemory :=
  match op with
  | OpSet key value duration => AdapterMemory_Set c now key value duration
  | OpSetMap values duration => AdapterMemory_SetMap c now values duration
  | OpSetIfNotExist key value duration =>
      (AdapterMemory_SetIfNotExist c ctx now key value duration).1
  | OpSetIfNotExistFunc key f duration =>
      out_cache (AdapterMemory_SetIfNotExistFunc c ctx now key f duration)
  | OpSetIfNotExistFuncLock key f duration =>
      out_cache (AdapterMemory_SetIfNotExistFuncLock c ctx now key f duration)
  | OpGet key => (AdapterMemory_Get c now key).1
  | OpGetOrSet key value duration =>
      out_cache (AdapterMemory_GetOrSet c ctx now key value duration)
  | OpGetOrSetFunc key f duration =>
      out_cache (AdapterMemory_GetOrSetFunc c ctx now key f duration)
  | OpGetOrSetFuncLock key f duration =>
      out_cache (AdapterMemory_GetOrSetFuncLock c ctx now key f duration)
  | OpContains key => (AdapterMemory_Contains c now key).1
  | OpGetExpire key => (AdapterMemory_GetExpire c now key).1
  | OpRemove keys => (AdapterMemory_Remove c now keys).1
  | OpUpdate key value => (AdapterMemory_Update c now key value).1
  | OpUpdateExpire key duration => (AdapterMemory_UpdateExpire c now key duration).1
  | OpClear => AdapterMemory_Clear c
  | OpClose => AdapterMemory_Close c
  | OpTick => syncEventAndClearExpired c now
  end.

(** A run: operations with the clock reading of each, in order. *)
Definition run_ops (ctx : Ctx) (c : AdapterMemory) (trace : list (Z * Op))
  : AdapterMemory :=
  foldl (λ c step, apply_op ctx c step.1 step.2) c trace.

(** A timestamp in milliseconds that is not negative and in the range
    where [makeExpireKey] is exact. *)
Definition valid_ms (e : Z) : Prop := 0 <= e < 2 ^ 53 - 1000.

(** The duration that an operation passes to [getInternalExpire], when
    it has one. *)
Definition op_duration (op : Op) : option Z :=
  match op with
  | OpSet _ _ d | OpSetMap _ d | OpSetIfNotExist _ _ d
  | OpSetIfNotExistFunc _ _ d | OpSetIfNotExistFuncLock _ _ d
  | OpGetOrSet _ _ d | OpGetOrSetFunc _ _ d | OpGetOrSetFuncLock _ _ d
  | OpUpdateExpire _ d => Some d
  | _ => None
  end.

(** The clock reading of a step is at least one second, and the expire
    timestamps the step computes are valid. *)
Definition valid_step (now : Z) (op : Op) : Prop :=
  valid_ms (now - 1000) ∧
  match op_duration op with
  | Some d => valid_ms (getInternalExpire now d)
  | None => True
  end.

(** The clock readings of a run do not go back, starting from [t]. *)
Fixpoint clock_monotone (t : Z) (trace : list (Z * Op)) : Prop :=
  match trace with
  | [] => True
  | (now, _) :: trace' => t <= now ∧ clock_monotone now trace'
  end.

(** The clock reading of the last step of a run that starts at [t]. *)
Definition last_clock (t : Z) (trace : list (Z * Op)) : Z :=
  foldl (λ _ step, step.1) t trace.

(** ** The invariant between the data map and the expiry indexes *)

(** The index and the buckets as the drain of the pending events leaves
    them. *)
Definition drained (c : AdapterMemory) : memoryExpireTimes * memoryExpireSets :=
  syncEvents (expireTimes c, expireSets c) (eventList c).

(** At the clock reading [t]: the indexes satisfy their invariants with
    bucket 0 out of use, the pending events have valid timestamps, and
    every item of the data map is expired already, or has a valid expire
    timestamp whose bucket is the one the index gives to the key once
    the pending events are drained. *)
Definition sweep_inv_on (d : memoryData) (times : memoryExpireTimes)
    (sets : memoryExpireSets) (events : list adapterMemoryEvent) (t : Z) : Prop :=
  index_inv (times, sets) ∧
  no_zero_bucket (times, sets) ∧
  Forall (λ event, valid_ms (ev_e event)) events ∧
  ∀ k item, d !! k = Some item →
    item_e item < t ∨
    (valid_ms (item_e item) ∧
     (syncEvents (times, sets) events).1 !! k = Some (makeExpireKey (item_e item))).

Definition sweep_inv (c : AdapterMemory) (t : Z) : Prop :=
  sweep_inv_on (data c) (expireTimes c) (expireSets c) (eventList c) t.

(** The capacity of the tracker, when there is one. *)
Definition lru_cap_of (c : AdapterMemory) : option Z := lru_cap <$> lru c.

(** The ways out of an operation that sets [key] when it is not live,
    as the cache [c'] it leaves: on a live key, the touch of the read and
    the deferred touch; on a key that is not live, the deferred touch
    alone when a producer called outside the lock gives an error or nil,
    and [doSetWithLockCheck] of some value followed by the deferred
    touch otherwise. *)
Definition set_if_absent_cache (c : AdapterMemory) (ctx : Ctx) (now : Z)
    (key : K) (duration : Z) (c' : AdapterMemory) : Prop :=
  (is_live (data c) now key ∧
   c' = handleLruKey (handleLruKey c now [key]) now [key]) ∨
  (¬ is_live (data c) now key ∧
   (c' = handleLruKey c now [key] ∨
    ∃ value,
      c' = handleLruKey (doSetWithLockCheck c ctx now key value duration).1
                        now [key])).

(** The bucket at [b] exists and holds [k], as a test. *)
Definition in_bucketb (sets : memoryExpireSets) (b : Z) (k : K) : bool :=
  match sets !! b with
  | Some s => bool_decide (k ∈ s)
  | None => false
  end.

(** The key is in one of the buckets of [window]. *)
Definition swept (sets : memoryExpireSets) (window : list Z) (k : K) : bool :=
  existsb (λ b, in_bucketb sets b k) window.

(** The buckets that the sweep at [now] goes through. *)
Definition sweep_window (now : Z) : list Z :=
  (λ i, wrap64 (makeExpireKey now - wrap64 (i * 1000))) <$> [1; 2; 3; 4; 5].

End Cache.

Arguments mkOutcome {K _ _ V Err Ctx R} _ _ _ _.
Arguments out_cache {K _ _ V Err Ctx R} _.
Arguments out_result {K _ _ V Err Ctx R} _.
Arguments out_err {K _ _ V Err Ctx R} _.
Arguments out_calls {K _ _ V Err Ctx R} _.

(** ** The bucket of the specification *)

(** The bucket key as the data model writes it, with an exact division:
    the ceiling of [expiryMs / 1000 + 1], times 1000. *)
Definition spec_ExpiryBucketKey (expiryMs : Z) : Z :=
  Qceiling (inject_Z expiryMs / inject_Z 1000 + 1)%Q * 1000.

(** ** Concrete caches

    String keys, integer values, errors that are messages, and a context
    with nothing in it. *)

(** A string in an [interface{}] is never the nil interface. *)
#[global] Instance string_NilKey : NilKey string := None.

Abbreviation Cache := (@AdapterMemory string _ _ Z string unit).

(** A clock reading, in milliseconds, and one second as a duration. *)
Definition clock0 : Z := 1700000000000.
Definition Second : Z := 1000000000.

(** [New(); Set("a", 1, 0)]. *)
Definition cache_never_expires : Cache :=
  AdapterMemory_Set NewAdapterMemory clock0 "a" (Val 1) 0.

(** [New(); Set("a", nil, 1s)]. *)
Definition cache_nil_value : Cache :=
  AdapterMemory_Set NewAdapterMemory clock0 "a" Nil Second.

(** [New(); Set("a", 1, -1s)]. *)
Definition cache_negative_duration : Cache :=
  AdapterMemory_Set NewAdapterMemory clock0 "a" (Val 1) (- Second).

(** [New(); Set("a", 1, 1s)], whose item expires at [clock0 + 1000]. *)
Definition cache_one_second : Cache :=
  AdapterMemory_Set NewAdapterMemory clock0 "a" (Val 1) Second.

(** [New(2)] and the calls [Set("a",1,0); Set("b",2,0); Set("c",3,0)]. *)
Definition calls_abc : list (@SetCall string Z string unit) :=
  [mkSetCall clock0 "a" (Val 1) 0;
   mkSetCall (clock0 + 1) "b" (Val 2) 0;
   mkSetCall (clock0 + 2) "c" (Val 3) 0].

(** Keys that are the nil interface value, [None], or hold a string. *)
#[global] Instance option_string_NilKey : NilKey (option string) := Some None.


(** A cache with a tracker of capacity 2 that holds "a" and "b". *)
Definition cache_lru_ab : Cache :=
  run_Sets (NewAdapterMemoryLru 2)
    [mkSetCall clock0 "a" (Val 1) 0; mkSetCall (clock0 + 1) "b" (Val 2) Second].

(** Events for one key: an expiry at 5000 ms, one between -1999 and
    -1000 ms, whose bucket key is 0, and the first one again. *)
Definition events_through_zero : list (@adapterMemoryEvent string) :=
  [mkEvent "k" 5000; mkEvent "k" (-1500); mkEvent "k" 5000].

(** The same through the operations of the cache: [Set("k", 1, 5s)], a
    tick of the sweeper, [Set] with a duration that takes the expire
    timestamp back to -1500 ms, a tick, [Set("k", 1, 5s)] and a tick. *)
Definition cache_through_zero : Cache :=
  let c1 := AdapterMemory_Set NewAdapterMemory clock0 "k" (Val 1) (5 * Second) in
  let c2 := syncEventAndClearExpired c1 (clock0 + 1) in
  let c3 := AdapterMemory_Set c2 (clock0 + 2) "k" (Val 1)
              (- (clock0 + 2 + 1500) * 1000000) in
  let c4 := syncEventAndClearExpired c3 (clock0 + 3) in
  let c5 := AdapterMemory_Set c4 (clock0 + 4) "k" (Val 1) (5 * Second) in
  syncEventAndClearExpired c5 (clock0 + 5).

Definition events_plain : list (@adapterMemoryEvent string) :=
  [mkEvent "k" 5000; mkEvent "j" 5200; mkEvent "k" 7000].

(** Producers: one that fails, one that gives nil, one that gives 2. *)
Definition producer_fails : @Func Z string unit := λ _, (Val 2, Some "boom").
Definition producer_nil : @Func Z string unit := λ _, (Nil, None).
Definition producer_two : @Func Z string unit := λ _, (Val 2, None).

(** A tracker of capacity 2 that holds "b" and "a", "b" used last. *)
Definition lru_ba : @memoryLru string _ _ :=
  mkLru 2 (list_to_set ["b"; "a"]) ["b"; "a"].

(** A tracker of capacity 2 that holds "b" and the nil key, "b" used
    last. *)
Definition lru_b_nil : @memoryLru (option string) _ _ :=
  mkLru 2 (list_to_set [Some "b"; None]) [Some "b"; None].

(** A run: [Set("a", 1, 1s)] at [clock0], [Set("b", 2, 0)] a millisecond
    later, [GetOrSetFuncLock("c", f, 1s)] with a producer that fails,
    [Remove("b")] and [Get("a")]. *)
Definition trace_ab : list (Z * @Op string _ _ Z string unit) :=
  [(clock0, OpSet "a" (Val 1) Second);
   (clock0 + 1, OpSet "b" (Val 2) 0);
   (clock0 + 2, OpGetOrSetFuncLock "c" producer_fails Second);
   (clock0 + 3, OpRemove ["b"]);
   (clock0 + 4, OpGet "a")].

(** The run [Set(nil, 1, 0); Set("b", 2, 0)]. *)
Definition trace_nil_b : list (Z * @Op (option string) _ _ Z string unit) :=
  [(clock0, OpSet None (Val 1) 0); (clock0 + 1, OpSet (Some "b") (Val 2) 0)].

(** The map [{"a": 1, "b": nil}]. *)
Definition values_ab : gmap string (@any Z string unit) :=
  {["a" := Val 1; "b" := Nil]}.

(** * Properties *)

(** ** Arithmetic of timestamps *)

Lemma wrap64_small (z : Z) :
  int64_min <= z <= int64_max → wrap64 z = z.
Proof.
  unfold int64_min, int64_max, wrap64. intros Hz.
  rewrite Z.mod_small by lia. lia.
Qed.

Lemma wrap64_mul_even_ne (x : Z) : wrap64 (x * Millisecond) ≠ -1.
Proof.
  unfold wrap64, Millisecond. intros Hx.
  pose proof (Z.div_mod (x * 1000000 + 2 ^ 63) (2 ^ 64) ltac:(lia)) as Hdm.
  lia.
Qed.

Lemma float64_round_small (z : Z) :
  Z.abs z < 2 ^ 53 → float64_round z = z.
Proof.
  intros Hz. unfold float64_round.
  destruct (Z.ltb_spec (Z.abs z) (2 ^ 53)); [reflexivity | lia].
Qed.

Lemma makeExpireKey_exact (expire : Z) :
  Z.abs expire < 2 ^ 53 - 1000 →
  makeExpireKey expire = (expire ÷ 1000 + 1) * 1000.
Proof.
  intros Hr.
  assert (Hq : Z.abs (expire ÷ 1000) * 1000 <= Z.abs expire).
  { pose proof (Z.quot_rem' expire 1000) as Hqr.
    destruct (Z.le_ge_cases 0 expire) as [Hp | Hn].
    - pose proof (Z.quot_pos expire 1000 Hp ltac:(lia)).
      pose proof (Z.rem_bound_pos expire 1000 Hp ltac:(lia)). lia.
    - pose proof (Z.quot_opp_l expire 1000 ltac:(lia)) as Ho.
      pose proof (Z.quot_pos (- expire) 1000 ltac:(lia) ltac:(lia)).
      pose proof (Z.rem_bound_pos (- expire) 1000 ltac:(lia) ltac:(lia)).
      pose proof (Z.quot_rem' (- expire) 1000). lia. }
  unfold makeExpireKey, float64_of_int64, float64_add, float64_mul, math_Ceil.
  rewrite (float64_round_small (expire ÷ 1000)) by lia.
  rewrite (float64_round_small (expire ÷ 1000 + 1)) by lia.
  rewrite (float64_round_small ((expire ÷ 1000 + 1) * 1000)) by lia.
  unfold int64_of_float64, int64_min, int64_max.
  destruct (Z.leb_spec (- 2 ^ 63) ((expire ÷ 1000 + 1) * 1000));
    destruct (Z.leb_spec ((expire ÷ 1000 + 1) * 1000) (2 ^ 63 - 1));
    simpl; lia.
Qed.

(** The bucket key of a timestamp that is not negative is at least 1000:
    bucket 0 is not the bucket of any time of the clock. *)
Lemma makeExpireKey_nonneg (expire : Z) :
  0 <= expire < 2 ^ 53 - 1000 → 1000 <= makeExpireKey expire.
Proof.
  intros Hr. rewrite makeExpireKey_exact by lia.
  pose proof (Z.quot_pos expire 1000 ltac:(lia) ltac:(lia)). lia.
Qed.

(** C4, as the code has it: the division by 1000 is the integer division
    of Go, done before the conversion to float64, so the ceiling is taken
    of an integer.  For an expire timestamp in the range where the
    float64 arithmetic is exact, the bucket key is the truncated quotient
    plus one, times 1000; and a timestamp on a second boundary gets the
    bucket one second after it. *)
Theorem makeExpireKey_truncating_bucket (expire : Z) :
  Z.abs expire < 2 ^ 53 - 1000 →
  makeExpireKey expire = (expire ÷ 1000 + 1) * 1000 ∧
  (expire `rem` 1000 = 0 → makeExpireKey expire = expire + 1000).
Proof.
  intros Hr. rewrite makeExpireKey_exact by exact Hr. split; [reflexivity |].
  intros Hrem. pose proof (Z.quot_rem' expire 1000). lia.
Qed.

(** The timestamp 2000 is on a second boundary: its bucket key is 3000. *)
Lemma makeExpireKey_truncating_bucket_witness :
  makeExpireKey 2000 = (2000 ÷ 1000 + 1) * 1000 ∧ makeExpireKey 2000 = 2000 + 1000.
Proof.
  destruct (makeExpireKey_truncating_bucket 2000) as [H1 H2].
  - vm_compute. reflexivity.
  - split; [exact H1 | apply H2; reflexivity].
Defined.

(** With an exact division the bucket key of 1500 would be the ceiling of
    2.5, times 1000; the code gives 2000. *)
Lemma makeExpireKey_not_exact_ceiling :
  makeExpireKey 1500 = 2000 ∧ spec_ExpiryBucketKey 1500 = 3000 ∧
  makeExpireKey 1500 ≠ spec_ExpiryBucketKey 1500.
Proof. vm_compute. split; [reflexivity | split; [reflexivity | discriminate]]. Qed.

Section CacheProperties.

Context {K : Type} `{Countable K} {nilK : NilKey K}.
Context {V Err Ctx : Type}.

Local Abbreviation any := (@any V Err Ctx).
Local Abbreviation AdapterMemory := (@AdapterMemory K _ _ V Err Ctx).
Local Abbreviation memoryDataItem := (@memoryDataItem V Err Ctx).
Local Abbreviation SetCall := (@SetCall K V Err Ctx).

Implicit Types (c : AdapterMemory) (key k : K) (now : Z) (item : memoryDataItem).

Lemma handleLruKey_no_lru c now keys :
  lru c = None → handleLruKey c now keys = c.
Proof. intros Hl. unfold handleLruKey. by rewrite Hl. Qed.

Lemma memoryData_live_lookup (d : gmap K memoryDataItem) now key item :
  memoryData_live d now !! key = Some item ↔ d !! key = Some item ∧ now < item_e item.
Proof. unfold memoryData_live. by rewrite map_lookup_filter_Some. Qed.

Lemma memoryData_Keys_elem (d : gmap K memoryDataItem) now key :
  key ∈ memoryData_Keys d now ↔ ∃ item, d !! key = Some item ∧ now < item_e item.
Proof.
  unfold memoryData_Keys. rewrite list_elem_of_fmap. split.
  - intros [[k item] [-> Hin]]. apply elem_of_map_to_list in Hin.
    apply memoryData_live_lookup in Hin. eauto.
  - intros (item & Hd & Hlt). exists (key, item). split; [done |].
    apply elem_of_map_to_list. by apply memoryData_live_lookup.
Qed.

Lemma memoryData_Data_lookup (d : gmap K memoryDataItem) now key :
  memoryData_Data d now !! key =
    match d !! key with
    | Some item => if decide (now < item_e item) then Some (item_v item) else None
    | None => None
    end.
Proof.
  unfold memoryData_Data. rewrite lookup_fmap.
  destruct (d !! key) as [item |] eqn:Hd.
  - destruct (decide (now < item_e item)) as [Hlt | Hge].
    + by rewrite (proj2 (memoryData_live_lookup d now key item) (conj Hd Hlt)).
    + destruct (memoryData_live d now !! key) as [item' |] eqn:Hl; [| done].
      apply memoryData_live_lookup in Hl as [Hd' Hlt]. congruence.
  - destruct (memoryData_live d now !! key) as [item' |] eqn:Hl; [| done].
    apply memoryData_live_lookup in Hl as [Hd' Hlt]. congruence.
Qed.

(** ** GetExpire *)

Lemma GetExpire_absent c now key :
  data c !! key = None → AdapterMemory_GetExpire c now key = (c, -1).
Proof.
  intros Hd. unfold AdapterMemory_GetExpire, memoryData_Get. by rewrite Hd.
Qed.

(** The duration 0 is turned into the timestamp [defaultMaxExpire]. *)
Lemma getInternalExpire_zero now : getInternalExpire now 0 = defaultMaxExpire.
Proof. reflexivity. Qed.

(** C2, what the code does: [GetExpire] of a key that never expires, that
    is, whose item has the expire timestamp [defaultMaxExpire], does not
    give 0: at any clock reading from 0 up to [defaultMaxExpire] it gives
    the distance from the clock to [defaultMaxExpire], in nanoseconds,
    which is not 0.  [GetExpire] of an absent key gives -1, as claimed. *)
Theorem GetExpire_never_expiring_not_zero c now key :
  (∀ item, data c !! key = Some item →
     item_e item = defaultMaxExpire →
     0 <= now < defaultMaxExpire →
     (AdapterMemory_GetExpire c now key).2 = (defaultMaxExpire - now) * 1000000 ∧
     (AdapterMemory_GetExpire c now key).2 ≠ 0) ∧
  (data c !! key = None → (AdapterMemory_GetExpire c now key).2 = -1).
Proof.
  split.
  - intros item Hd He Hnow. unfold AdapterMemory_GetExpire, memoryData_Get.
    rewrite Hd. simpl. rewrite He. unfold defaultMaxExpire in *.
    rewrite (wrap64_small (_ - now)) by (unfold int64_min, int64_max; lia).
    unfold Millisecond.
    rewrite wrap64_small by (unfold int64_min, int64_max; lia). lia.
  - intros Hd. by rewrite GetExpire_absent.
Qed.

(** ** Close *)

Lemma PushBack_set_closed c ev b :
  PushBack (set_closed c b) ev = set_closed (PushBack c ev) b.
Proof. reflexivity. Qed.

Lemma foldl_PushBack_set_closed (f : K → adapterMemoryEvent) (keys : list K) c b :
  foldl (λ c key, PushBack c (f key)) (set_closed c b) keys =
  set_closed (foldl (λ c key, PushBack c (f key)) c keys) b.
Proof.
  revert c. induction keys as [| key keys IH]; intros c; simpl; [reflexivity |].
  rewrite PushBack_set_closed. apply IH.
Qed.

Lemma doRemove_set_closed c now keys b :
  doRemove (set_closed c b) now keys =
  (set_closed (doRemove c now keys).1 b, (doRemove c now keys).2).
Proof.
  unfold doRemove. simpl.
  destruct (memoryData_Remove (data c) keys) as [d [removedKeys value]]. simpl.
  f_equal. apply (foldl_PushBack_set_closed _ removedKeys (set_data c d) b).
Qed.

Lemma handleLruKey_set_closed c now keys b :
  handleLruKey (set_closed c b) now keys = set_closed (handleLruKey c now keys) b.
Proof.
  unfold handleLruKey. simpl. destruct (lru c) as [l |]; [| reflexivity].
  destruct (memoryLru_SaveAndEvict l keys) as [l' evictedKeys].
  destruct (0 <? length evictedKeys)%nat; [| reflexivity].
  change (set_lru (set_closed c b) (Some l')) with (set_closed (set_lru c (Some l')) b).
  by rewrite doRemove_set_closed.
Qed.

(** C3, as the code has it: [Close] sets the flag and nothing else.  The
    data map is unchanged, [Get], [Contains] and [Size] answer as they
    did before [Close], and the only reader of the flag is the sweeper,
    whose tick on a closed cache leaves the cache as it is. *)
Theorem Close_only_sets_the_flag c now key :
  data (AdapterMemory_Close c) = data c ∧
  closed (AdapterMemory_Close c) = true ∧
  AdapterMemory_Get (AdapterMemory_Close c) now key =
    (AdapterMemory_Close (AdapterMemory_Get c now key).1,
     (AdapterMemory_Get c now key).2) ∧
  (AdapterMemory_Contains (AdapterMemory_Close c) now key).2 =
    (AdapterMemory_Contains c now key).2 ∧
  AdapterMemory_Size (AdapterMemory_Close c) now = AdapterMemory_Size c now ∧
  syncEventAndClearExpired (AdapterMemory_Close c) now = AdapterMemory_Close c.
Proof.
  assert (HGet : AdapterMemory_Get (AdapterMemory_Close c) now key =
    (AdapterMemory_Close (AdapterMemory_Get c now key).1,
     (AdapterMemory_Get c now key).2)).
  { unfold AdapterMemory_Close, AdapterMemory_Get. simpl.
    destruct (memoryData_Get (data c) key) as [item |]; [| reflexivity].
    destruct (negb (IsExpired item now)); [| reflexivity].
    simpl. by rewrite handleLruKey_set_closed. }
  repeat split; try reflexivity; try exact HGet.
  unfold AdapterMemory_Contains. rewrite HGet.
  by destruct (AdapterMemory_Get c now key).
Qed.

(** ** SetWithLock *)

Lemma SetWithLock_miss (ctx : Ctx) (d : gmap K memoryDataItem) now key
    (value : any) (ts : Z) :
  ¬ is_live d now key →
  memoryData_SetWithLock ctx d now key value ts =
    match value with
    | Fn f =>
        match f ctx with
        | (_, Some err) => mkSWL Nil (Some err) d 1
        | (Nil, None) => mkSWL Nil None d 1
        | (value', None) => mkSWL value' None (<[key := mkItem value' ts]> d) 1
        end
    | _ => mkSWL value None (<[key := mkItem value ts]> d) 0
    end.
Proof.
  intros Hmiss. unfold memoryData_SetWithLock.
  destruct (d !! key) as [item |] eqn:Hd; [| reflexivity].
  destruct (IsExpired item now) eqn:He; [reflexivity |].
  exfalso. apply Hmiss. by exists item.
Qed.

(** C5: the compute-if-absent of the data map.  A present, unexpired key
    gives back the stored value without a call of the producer; a
    producer that is called and fails gives back its error and leaves the
    map as it was; a producer that is called and gives nil stores nothing
    and nil is returned. *)
Theorem SetWithLock_compute_if_absent (ctx : Ctx) (d : gmap K memoryDataItem)
    now key (value : any) (ts : Z) :
  (∀ item, d !! key = Some item → IsExpired item now = false →
     memoryData_SetWithLock ctx d now key value ts = mkSWL (item_v item) None d 0) ∧
  (∀ (f : Func) x err, ¬ is_live d now key → value = Fn f → f ctx = (x, Some err) →
     memoryData_SetWithLock ctx d now key value ts = mkSWL Nil (Some err) d 1) ∧
  (∀ (f : Func), ¬ is_live d now key → value = Fn f → f ctx = (Nil, None) →
     memoryData_SetWithLock ctx d now key value ts = mkSWL Nil None d 1).
Proof.
  split; [| split].
  - intros item Hd He. unfold memoryData_SetWithLock. rewrite Hd, He. reflexivity.
  - intros f x err Hmiss -> Hf. rewrite SetWithLock_miss by exact Hmiss.
    rewrite Hf. destruct x; reflexivity.
  - intros f Hmiss -> Hf. rewrite SetWithLock_miss by exact Hmiss.
    rewrite Hf. reflexivity.
Qed.


(** ** The snapshot views and the read path at the instant of expiry *)

Lemma memoryData_live_delete_dead (d : gmap K memoryDataItem) now key item :
  d !! key = Some item → ¬ (now < item_e item) →
  memoryData_live (delete key d) now = memoryData_live d now.
Proof.
  intros Hd Hdead. unfold memoryData_live. rewrite map_filter_delete.
  apply delete_id. apply map_lookup_filter_None. right.
  intros item' Hd'. simpl. congruence.
Qed.

(** C10: an item whose expire timestamp is the clock reading is still
    served by [Get] and [Contains], and is already left out of [Keys],
    [Data], [Values] and [Size], which are those of the map without the
    key. *)
Theorem expiry_instant_read_and_snapshots_disagree c now key item :
  data c !! key = Some item →
  item_e item = now →
  (AdapterMemory_Get c now key).2 = Some (item_v item) ∧
  (AdapterMemory_Contains c now key).2 = true ∧
  (key ∉ AdapterMemory_Keys c now) ∧
  AdapterMemory_Data c now !! key = None ∧
  AdapterMemory_Keys c now = AdapterMemory_Keys (set_data c (delete key (data c))) now ∧
  AdapterMemory_Values c now = AdapterMemory_Values (set_data c (delete key (data c))) now ∧
  AdapterMemory_Size c now = AdapterMemory_Size (set_data c (delete key (data c))) now.
Proof.
  intros Hd He.
  assert (HGet : (AdapterMemory_Get c now key).2 = Some (item_v item)).
  { unfold AdapterMemory_Get, memoryData_Get. rewrite Hd. unfold IsExpired.
    rewrite He, Z.ltb_irrefl. reflexivity. }
  assert (Hlive : memoryData_live (delete key (data c)) now = memoryData_live (data c) now).
  { apply (memoryData_live_delete_dead _ _ _ item); [done | lia]. }
  split; [exact HGet |]. split.
  { unfold AdapterMemory_Contains.
    destruct (AdapterMemory_Get c now key) as [c' v]. simpl in *. subst v.
    by apply bool_decide_eq_true. }
  split.
  { unfold AdapterMemory_Keys. rewrite memoryData_Keys_elem.
    intros (item' & Hd' & Hlt). assert (item' = item) by congruence. subst. lia. }
  split.
  { unfold AdapterMemory_Data. rewrite memoryData_Data_lookup, Hd.
    rewrite decide_False by lia. reflexivity. }
  unfold AdapterMemory_Keys, AdapterMemory_Values, AdapterMemory_Size,
    memoryData_Keys, memoryData_Values, memoryData_Size. simpl.
  by rewrite Hlive.
Qed.

(** ** The LRU tracker *)

Lemma list_Remove_elem (key x : K) (l : list K) :
  NoDup l → x ∈ list_Remove key l ↔ x ∈ l ∧ x ≠ key.
Proof.
  induction l as [| y l IH]; intros Hnd; simpl.
  - split; [by intros ?%elem_of_nil | by intros [?%elem_of_nil _]].
  - apply NoDup_cons in Hnd as [Hy Hnd]. destruct (decide (y = key)) as [-> | Hne].
    + rewrite elem_of_cons. split.
      * intros Hx. split; [by right | by intros ->].
      * intros [[-> | Hx] Hxk]; done.
    + rewrite !elem_of_cons, IH by done. naive_solver.
Qed.

Lemma list_Remove_NoDup (key : K) (l : list K) :
  NoDup l → NoDup (list_Remove key l).
Proof.
  induction l as [| y l IH]; intros Hnd; simpl; [done |].
  apply NoDup_cons in Hnd as [Hy Hnd]. destruct (decide (y = key)); [done |].
  apply NoDup_cons. split; [| by apply IH].
  rewrite list_Remove_elem by done. naive_solver.
Qed.

Lemma list_PopBack_snoc (l : list K) (x : K) :
  list_PopBack (l ++ [x]) = (l, Some x).
Proof. unfold list_PopBack. by rewrite removelast_last, last_snoc. Qed.

Lemma list_snoc_inv {A : Type} (l : list A) :
  l ≠ [] → ∃ l' x, l = l' ++ [x].
Proof.
  destruct l as [| y l] using rev_ind; [done |]. intros _. by exists l, y.
Qed.

(** The list that [doSaveAndEvict] pushes the key on. *)
Lemma lru_detached (l : memoryLru) (key : K) :
  lru_wf l →
  NoDup (key :: if bool_decide (key ∈ lru_data l)
                then list_Remove key (lru_list l) else lru_list l) ∧
  ({[key]} ∪ lru_data l : gset K) =
    list_to_set (key :: if bool_decide (key ∈ lru_data l)
                        then list_Remove key (lru_list l) else lru_list l).
Proof.
  intros [Hnd Hdata]. case_bool_decide as Hin.
  - split.
    + apply NoDup_cons. split; [| by apply list_Remove_NoDup].
      rewrite list_Remove_elem by done. naive_solver.
    + apply set_eq. intros x. rewrite Hdata, list_to_set_cons.
      rewrite elem_of_union, elem_of_singleton, elem_of_union, elem_of_singleton,
        !elem_of_list_to_set, list_Remove_elem by done.
      destruct (decide (x = key)); naive_solver.
  - rewrite Hdata, elem_of_list_to_set in Hin. split; [by apply NoDup_cons |].
    by rewrite Hdata.
Qed.

Lemma list_Remove_length (key : K) (l : list K) :
  (length (list_Remove key l) ≤ length l)%nat.
Proof.
  induction l as [| x l IH]; simpl; [done |].
  destruct (decide (x = key)); simpl; lia.
Qed.

Lemma key_is_nil_unique (k k' : K) :
  key_is_nil k = true → key_is_nil k' = true → k = k'.
Proof.
  unfold key_is_nil. intros Hk%bool_decide_eq_true Hk'%bool_decide_eq_true.
  congruence.
Qed.

(** On a well formed tracker, [Prev] of the element of a tracked key is
    nil exactly for the key at the front of the list. *)
Lemma is_front_head (key : K) (l : list K) :
  key ∈ l → is_front key l = true ↔ head l = Some key.
Proof.
  intros Hin. unfold is_front.
  rewrite bool_decide_eq_false_2 by (intros Hc; by apply Hc). cbn [orb].
  apply bool_decide_eq_true.
Qed.

(** The tracker after [doSaveAndEvict]: it keeps the invariant and the
    capacity, and its keys are the key touched and the keys before, but
    the one evicted. *)
Lemma doSaveAndEvict_inv (l : memoryLru) (key : K) :
  lru_inv l →
  let r := memoryLru_doSaveAndEvict l key in
  lru_inv r.1 ∧ lru_cap r.1 = lru_cap l ∧
  lru_data r.1 =
    ({[key]} ∪ lru_data l) ∖ match r.2 with Some x => {[x]} | None => ∅ end.
Proof.
  intros (Hnd & Hlen & Hsub & Hdet). unfold memoryLru_doSaveAndEvict.
  destruct (bool_decide (key ∈ lru_data l) && is_front key (lru_list l)) eqn:Hfront.
  { apply andb_true_iff in Hfront as [Hin%bool_decide_eq_true _]. cbn [fst snd].
    split; [done |]. split; [done |]. set_solver. }
  assert (Hlist : ∃ list1,
    list1 = (if bool_decide (key ∈ lru_data l)
             then list_Remove key (lru_list l) else lru_list l) ∧
    NoDup (key :: list1) ∧ (length list1 ≤ length (lru_list l))%nat ∧
    (∀ k, k ∈ key :: list1 → k ∈ ({[key]} ∪ lru_data l : gset K)) ∧
    (∀ k, k ∈ ({[key]} ∪ lru_data l : gset K) → k ∉ key :: list1 →
          key_is_nil k = true)).
  { eexists. split; [done |]. case_bool_decide as Hin.
    - split; [| split; [apply list_Remove_length |]; split].
      + apply NoDup_cons. split; [| by apply list_Remove_NoDup].
        rewrite list_Remove_elem by done. naive_solver.
      + intros k [-> | Hk]%elem_of_cons; [set_solver |].
        apply list_Remove_elem in Hk as [Hk _]; [| done].
        apply elem_of_union. right. by apply Hsub.
      + intros k Hk Hout. apply not_elem_of_cons in Hout as [Hne Hout].
        apply Hdet; [set_solver |]. intros Hc. apply Hout.
        apply list_Remove_elem; done.
    - assert (Hkey : key ∉ lru_list l) by (intros Hc; by apply Hin, Hsub).
      split; [by apply NoDup_cons |]. split; [done |]. split.
      + intros k [-> | Hk]%elem_of_cons; [set_solver |].
        apply elem_of_union. right. by apply Hsub.
      + intros k Hk Hout. apply not_elem_of_cons in Hout as [Hne Hout].
        apply Hdet; [set_solver | done]. }
  destruct Hlist as (list1 & <- & Hnd2 & Hlen1 & Hsub2 & Hdet2).
  cbv zeta.
  destruct (Z.leb_spec (Z.of_nat (size ({[key]} ∪ lru_data l))) (lru_cap l))
    as [Hfit | Hfull]; cbn [fst snd].
  { split; [| split; [done | set_solver]].
    split; [done |]. split; [| done]. cbn [lru_list lru_cap].
    assert (Hs : (list_to_set (key :: list1) : gset K) ⊆ {[key]} ∪ lru_data l).
    { intros k Hk%elem_of_list_to_set. by apply Hsub2. }
    pose proof (subseteq_size _ _ Hs) as Hle.
    rewrite size_list_to_set in Hle by done. lia. }
  destruct (list_snoc_inv (key :: list1) ltac:(done)) as (list3 & x & Hsnoc).
  rewrite Hsnoc, list_PopBack_snoc. rewrite Hsnoc in Hnd2, Hsub2, Hdet2.
  assert (Hlen3 : Z.of_nat (length list3) <= lru_cap l).
  { assert (Hl : length (key :: list1) = length (list3 ++ [x])) by (by rewrite Hsnoc).
    rewrite length_app in Hl. simpl in Hl. lia. }
  apply NoDup_app in Hnd2 as (Hnd3 & Hdisj & _).
  assert (Hx3 : x ∉ list3).
  { intros Hx. apply (Hdisj x Hx). by apply list_elem_of_singleton. }
  destruct (key_is_nil x) eqn:Hnil; cbn [fst snd].
  - split; [| split; [done | set_solver]].
    split; [done |]. split; [done |]. cbn [lru_list lru_data]. split.
    + intros k Hk. apply Hsub2, elem_of_app. by left.
    + intros k Hk Hout. destruct (decide (k = x)) as [-> | Hne]; [done |].
      apply Hdet2; [done |].
      intros [Hc | Hc%list_elem_of_singleton]%elem_of_app; done.
  - split; [| split; [done | done]].
    split; [done |]. split; [done |]. cbn [lru_list lru_data]. split.
    + intros k Hk. apply elem_of_difference. split.
      * apply Hsub2, elem_of_app. by left.
      * intros ->%elem_of_singleton. done.
    + intros k [Hk Hne]%elem_of_difference Hout. apply Hdet2; [done |].
      intros [Hc | Hc%list_elem_of_singleton]%elem_of_app; [done |].
      apply Hne. by apply elem_of_singleton.
Qed.

(** [doSaveAndEvict] on a well formed tracker.  With a capacity of at
    least one it never evicts the key touched, and leaves it tracked at
    the front of the list; a touch of a tracked key within the capacity
    evicts nothing and keeps the tracker well formed. *)
Lemma doSaveAndEvict_spec (l : memoryLru) (key : K) :
  lru_wf l →
  let r := memoryLru_doSaveAndEvict l key in
  lru_cap r.1 = lru_cap l ∧
  (1 <= lru_cap l →
     r.2 ≠ Some key ∧ key ∈ lru_data r.1 ∧ head (lru_list r.1) = Some key) ∧
  (key ∈ lru_data l → Z.of_nat (size (lru_data l)) <= lru_cap l →
     r.2 = None ∧ lru_data r.1 = lru_data l ∧ lru_wf r.1).
Proof.
  intros Hwf. pose proof (lru_detached l key Hwf) as [Hnd2 Hset2].
  destruct Hwf as [Hnd Hdata].
  unfold memoryLru_doSaveAndEvict.
  destruct (bool_decide (key ∈ lru_data l) && is_front key (lru_list l)) eqn:Hfront.
  { apply andb_true_iff in Hfront as [Hin%bool_decide_eq_true Hf]. cbn [fst snd].
    split; [done |]. split; [| done]. intros _. split; [done |]. split; [done |].
    apply is_front_head; [| done]. rewrite Hdata in Hin.
    by apply elem_of_list_to_set in Hin. }
  set (list1 := if bool_decide (key ∈ lru_data l)
                then list_Remove key (lru_list l) else lru_list l) in *.
  clearbody list1. cbv zeta.
  destruct (Z.leb_spec (Z.of_nat (size ({[key]} ∪ lru_data l))) (lru_cap l))
    as [Hfit | Hfull]; cbn [fst snd].
  { split; [done |]. split.
    - intros _. split; [done |]. split; [set_solver | done].
    - intros Hin _. split; [done |]. split; [set_solver |]. by split. }
  destruct (list_snoc_inv (key :: list1) ltac:(done)) as (list3 & x & Hsnoc).
  rewrite Hsnoc, list_PopBack_snoc.
  assert (Hlist3 : 1 <= lru_cap l → ∃ list3', list3 = key :: list3').
  { intros Hcap. destruct list3 as [| y list3']; simpl in Hsnoc.
    - exfalso. injection Hsnoc as <- Hl1.
      assert (Hsz : ({[key]} ∪ lru_data l : gset K) = {[key]}).
      { rewrite Hset2, Hl1. set_solver. }
      rewrite Hsz, size_singleton in Hfull. lia.
    - injection Hsnoc as -> _. by exists list3'. }
  rewrite Hsnoc in Hnd2. apply NoDup_app in Hnd2 as (Hnd3 & Hdisj & _).
  assert (Hx3 : x ∉ list3).
  { intros Hx. apply (Hdisj x Hx). by apply list_elem_of_singleton. }
  assert (Htracked : key ∈ lru_data l → Z.of_nat (size (lru_data l)) <= lru_cap l →
            False).
  { intros Hin Hsz.
    assert (Heq : ({[key]} ∪ lru_data l : gset K) = lru_data l) by set_solver.
    rewrite Heq in Hfull. lia. }
  destruct (key_is_nil x) eqn:Hnil; cbn [fst snd lru_cap lru_data lru_list].
  - split; [done |]. split; [| by intros Hin Hsz; destruct (Htracked Hin Hsz)].
    intros Hcap. destruct (Hlist3 Hcap) as (list3' & ->).
    split; [done |]. split; [set_solver | done].
  - split; [done |]. split; [| by intros Hin Hsz; destruct (Htracked Hin Hsz)].
    intros Hcap. destruct (Hlist3 Hcap) as (list3' & ->).
    assert (Hne : x ≠ key) by (intros ->; apply Hx3; by left).
    split; [congruence |]. split; [set_solver | done].
Qed.

(** A well formed tracker within its capacity satisfies the invariant;
    a tracker that satisfies the invariant and does not hold the nil
    key is well formed and within its capacity. *)
Lemma lru_wf_inv (l : memoryLru) :
  lru_wf l → Z.of_nat (size (lru_data l)) <= lru_cap l → lru_inv l.
Proof.
  intros [Hnd Hdata] Hsz. split; [done |]. split; [| split].
  - rewrite Hdata, size_list_to_set in Hsz by done. done.
  - intros k Hk. rewrite Hdata. by apply elem_of_list_to_set.
  - intros k Hk Hout. exfalso. apply Hout. rewrite Hdata in Hk.
    by apply elem_of_list_to_set in Hk.
Qed.

Lemma lru_inv_wf (l : memoryLru) :
  lru_inv l → lru_no_nil l →
  lru_wf l ∧ Z.of_nat (size (lru_data l)) <= lru_cap l.
Proof.
  intros (Hnd & Hlen & Hsub & Hdet) Hnn.
  assert (Hdata : lru_data l = list_to_set (lru_list l)).
  { apply set_eq. intros k. rewrite elem_of_list_to_set. split; [| by apply Hsub].
    intros Hk. destruct (decide (k ∈ lru_list l)) as [| Hout]; [done |].
    pose proof (Hdet k Hk Hout) as Hnil. rewrite (Hnn k Hk) in Hnil. done. }
  split; [by split |]. rewrite Hdata, size_list_to_set by done. done.
Qed.

(** The keys of the map of a tracker that satisfies the invariant are
    at most one more than the keys of its list. *)
Lemma lru_inv_size (l : memoryLru) (X : gset K) :
  lru_inv l → X ⊆ lru_data l →
  Z.of_nat (size X) <= lru_cap l + 1 ∧
  ((∀ k, k ∈ X → key_is_nil k = false) → Z.of_nat (size X) <= lru_cap l).
Proof.
  intros (Hnd & Hlen & Hsub & Hdet) HX.
  assert (Hin : X ∖ list_to_set (lru_list l) ⊆ X) by set_solver.
  assert (Hsplit : X = (X ∩ list_to_set (lru_list l)) ∪ (X ∖ list_to_set (lru_list l))).
  { apply set_eq. intros k. rewrite elem_of_union, elem_of_intersection,
      elem_of_difference. destruct (decide (k ∈ (list_to_set (lru_list l) : gset K)));
      naive_solver. }
  assert (Hlist : (size (X ∩ list_to_set (lru_list l)) ≤ length (lru_list l))%nat).
  { pose proof (subseteq_size (X ∩ list_to_set (lru_list l))
      (list_to_set (lru_list l)) ltac:(set_solver)) as Hle.
    rewrite size_list_to_set in Hle by done. done. }
  assert (Hnilonly : ∀ k, k ∈ X ∖ list_to_set (lru_list l) → key_is_nil k = true).
  { intros k [Hk Hout]%elem_of_difference. apply Hdet; [by apply HX |].
    intros Hc. apply Hout. by apply elem_of_list_to_set. }
  assert (Hsize : (size X ≤ size (X ∩ list_to_set (lru_list l))
                    + size (X ∖ list_to_set (lru_list l)))%nat).
  { rewrite Hsplit at 1. rewrite size_union by set_solver. done. }
  split.
  - assert (Hone : (size (X ∖ list_to_set (lru_list l)) ≤ 1)%nat).
    { destruct (set_choose_or_empty (X ∖ list_to_set (lru_list l))) as [[n Hn] | Hempty].
      - assert (Hs : X ∖ list_to_set (lru_list l) ⊆ ({[n]} : gset K)).
        { intros k Hk. apply elem_of_singleton.
          by apply key_is_nil_unique; apply Hnilonly. }
        pose proof (subseteq_size _ _ Hs) as Hle. by rewrite size_singleton in Hle.
      - apply leibniz_equiv in Hempty. rewrite Hempty, size_empty. lia. }
    lia.
  - intros Hnn.
    assert (Hempty : X ∖ list_to_set (lru_list l) = ∅).
    { apply set_eq. intros k. split; [| by intros ?%elem_of_empty].
      intros Hk. pose proof (Hnilonly k Hk) as Hnil.
      rewrite (Hnn k (Hin k Hk)) in Hnil. done. }
    rewrite Hempty, size_empty in Hsize. lia.
Qed.

(** ** handleLruKey and doRemove *)

Lemma foldl_PushBack_fields (f : K → adapterMemoryEvent) (keys : list K) c :
  let c' := foldl (λ c key, PushBack c (f key)) c keys in
  data c' = data c ∧ lru c' = lru c ∧ closed c' = closed c ∧
  expireTimes c' = expireTimes c ∧ expireSets c' = expireSets c ∧
  eventList c' = eventList c ++ (f <$> keys).
Proof.
  revert c. induction keys as [| key keys IH]; intros c; simpl.
  - by rewrite app_nil_r.
  - destruct (IH (PushBack c (f key))) as (-> & -> & -> & -> & -> & ->).
    simpl. by rewrite <- app_assoc.
Qed.

Lemma memoryData_Remove_single (d : gmap K memoryDataItem) key :
  (memoryData_Remove d [key]).1 = delete key d.
Proof.
  unfold memoryData_Remove. simpl.
  destruct (d !! key) as [item |] eqn:Hd; simpl; [done |].
  symmetry. by apply delete_id.
Qed.

Lemma doRemove_fields c now keys :
  data (doRemove c now keys).1 = (memoryData_Remove (data c) keys).1 ∧
  lru (doRemove c now keys).1 = lru c.
Proof.
  unfold doRemove.
  destruct (memoryData_Remove (data c) keys) as [d [removedKeys value]]. simpl.
  pose proof (foldl_PushBack_fields
    (λ key, mkEvent key (wrap64 (now - 1000))) removedKeys (set_data c d)) as Hf.
  simpl in Hf. destruct Hf as (-> & -> & _). done.
Qed.

Lemma handleLruKey_single c now key (l : memoryLru) :
  lru c = Some l →
  handleLruKey c now [key] =
    match (memoryLru_doSaveAndEvict l key).2 with
    | None => set_lru c (Some (memoryLru_doSaveAndEvict l key).1)
    | Some x =>
        (doRemove (set_lru c (Some (memoryLru_doSaveAndEvict l key).1)) now [x]).1
    end.
Proof.
  intros Hl. unfold handleLruKey, memoryLru_SaveAndEvict. rewrite Hl. simpl.
  by destruct (memoryLru_doSaveAndEvict l key) as [l' [x |]].
Qed.

(** With a well formed tracker of capacity at least one, touching a key
    never evicts that key, and leaves it tracked at the front. *)
Lemma handleLruKey_keeps_key c now key :
  cache_lru_ok c →
  lru_front (handleLruKey c now [key]) key ∧
  data (handleLruKey c now [key]) !! key = data c !! key.
Proof.
  unfold cache_lru_ok, lru_front. intros Hok.
  destruct (lru c) as [l |] eqn:Hl.
  - destruct Hok as [Hwf Hcap]. rewrite (handleLruKey_single c now key l Hl).
    pose proof (doSaveAndEvict_spec l key Hwf) as (_ & Hne & _).
    cbv zeta in Hne. destruct (Hne Hcap) as (Hne' & Hin & Hhead).
    destruct (memoryLru_doSaveAndEvict l key) as [l' [x |]]; cbn [fst snd] in *.
    + destruct (doRemove_fields (set_lru c (Some l')) now [x]) as [-> ->].
      cbn [set_lru lru data]. rewrite memoryData_Remove_single.
      split; [done |]. apply lookup_delete_ne. congruence.
    + done.
  - rewrite handleLruKey_no_lru by done. by rewrite Hl.
Qed.


(** ** Set *)

(** C1, what the code does: [Set] has no case for a nil value or a
    negative duration.  It always writes the item, with the value given
    and the expire timestamp of the duration, and the key is in the data
    map afterwards; [GetExpire] of the key does not give -1; and as long
    as the clock is below the expire timestamp, as it is for a nil value
    set with a positive duration, [Get] gives the value in a box that is
    not nil, and [Keys] and [Data] list the key. *)
Theorem Set_nil_or_negative_still_stores c now now' key (value : any) (duration : Z) :
  cache_lru_ok c →
  let c' := AdapterMemory_Set c now key value duration in
  data c' !! key = Some (mkItem value (getInternalExpire now duration)) ∧
  (AdapterMemory_GetExpire c' now' key).2 ≠ -1 ∧
  (now' < getInternalExpire now duration →
   (AdapterMemory_Get c' now' key).2 = gvar_New value ∧
   key ∈ AdapterMemory_Keys c' now' ∧
   AdapterMemory_Data c' now' !! key = Some value).
Proof.
  intros Hok c'.
  assert (Hd : data c' !! key = Some (mkItem value (getInternalExpire now duration))).
  { subst c'. unfold AdapterMemory_Set. set (c2 := PushBack _ _).
    destruct (handleLruKey_keeps_key c2 now key Hok) as [_ ->].
    simpl. unfold memoryData_Set. apply lookup_insert_eq. }
  split; [exact Hd |]. split.
  - unfold AdapterMemory_GetExpire, memoryData_Get. rewrite Hd. simpl.
    apply wrap64_mul_even_ne.
  - intros Hlive. split; [| split].
    + unfold AdapterMemory_Get, memoryData_Get. rewrite Hd.
      unfold IsExpired. simpl.
      destruct (Z.ltb_spec (getInternalExpire now duration) now'); [lia | done].
    + apply memoryData_Keys_elem. eauto.
    + unfold AdapterMemory_Data. rewrite memoryData_Data_lookup, Hd. simpl.
      by rewrite decide_True.
Qed.

(** With a tracker within its capacity that holds the key, touching the
    key evicts nothing and leaves the tracker as it is but for the order
    of its list. *)
Lemma handleLruKey_tracked_lru c now key (l : memoryLru) :
  lru c = Some l → lru_wf l → key ∈ lru_data l →
  Z.of_nat (size (lru_data l)) <= lru_cap l →
  ∃ l', handleLruKey c now [key] = set_lru c (Some l') ∧
        lru_wf l' ∧ lru_data l' = lru_data l ∧ lru_cap l' = lru_cap l.
Proof.
  intros Hl Hwf Hin Hsz. rewrite (handleLruKey_single c now key l Hl).
  pose proof (doSaveAndEvict_spec l key Hwf) as (Hcap & _ & Hno).
  cbv zeta in Hcap, Hno. destruct (Hno Hin Hsz) as (Hnone & Hdata & Hwf').
  rewrite Hnone. by exists (memoryLru_doSaveAndEvict l key).1.
Qed.

Lemma handleLruKey_tracked c now key :
  lru_tracks c key →
  data (handleLruKey c now [key]) = data c ∧
  eventList (handleLruKey c now [key]) = eventList c.
Proof.
  unfold lru_tracks. intros Hok.
  destruct (lru c) as [l |] eqn:Hl.
  - destruct Hok as (Hwf & Hin & Hsz).
    destruct (handleLruKey_tracked_lru c now key l Hl Hwf Hin Hsz) as (l' & -> & _).
    done.
  - by rewrite handleLruKey_no_lru.
Qed.

(** ** The invariant of the cache *)

Lemma cache_lru_inv_weaken c (pending pending' : gset K) :
  cache_lru_inv c pending → pending ⊆ pending' → cache_lru_inv c pending'.
Proof.
  unfold cache_lru_inv. destruct (lru c) as [l |]; [| done].
  intros [Hinv Hdom] Hsub. split; [done | set_solver].
Qed.

(** The touch of the tracker for a pending key. *)
Lemma cache_lru_inv_touch c now key (pending : gset K) :
  cache_lru_inv c pending →
  cache_lru_inv (handleLruKey c now [key]) (pending ∖ {[key]}).
Proof.
  unfold cache_lru_inv. intros Hpre.
  destruct (lru c) as [l |] eqn:Hl.
  - destruct Hpre as (Hinv & Hdom). rewrite (handleLruKey_single c now key l Hl).
    pose proof (doSaveAndEvict_inv l key Hinv) as (Hinv' & Hcap' & Hdata').
    cbv zeta in Hinv', Hcap', Hdata'.
    destruct (memoryLru_doSaveAndEvict l key) as [l' [x |]]; cbn [fst snd] in *.
    + destruct (doRemove_fields (set_lru c (Some l')) now [x]) as [-> ->].
      cbn [set_lru lru data]. rewrite memoryData_Remove_single, dom_delete_L.
      split; [done |]. rewrite Hdata'.
      intros y Hy. destruct (decide (y = key)); set_solver.
    + cbn [set_lru lru data]. split; [done |]. rewrite Hdata'.
      intros y Hy. destruct (decide (y = key)); set_solver.
  - rewrite handleLruKey_no_lru by done. by rewrite Hl.
Qed.

Lemma cache_lru_inv_restores c now key :
  cache_lru_inv c {[key]} → cache_lru_inv (handleLruKey c now [key]) ∅.
Proof.
  intros Hpre. apply (cache_lru_inv_weaken _ ({[key]} ∖ {[key]})); [| set_solver].
  by apply cache_lru_inv_touch.
Qed.

Lemma cache_lru_inv_handleLruKey c now key :
  cache_lru_inv c ∅ → cache_lru_inv (handleLruKey c now [key]) ∅.
Proof.
  intros Hinv. apply cache_lru_inv_restores.
  apply (cache_lru_inv_weaken _ ∅); [done | set_solver].
Qed.

(** The invariant with a well formed tracker, and back when the tracker
    does not hold the nil key. *)
Lemma cache_inv_lru_inv c : cache_inv c → cache_lru_inv c ∅.
Proof.
  unfold cache_inv, cache_lru_inv. destruct (lru c) as [l |]; [| done].
  intros (Hwf & Hdom & Hsz). split; [by apply lru_wf_inv | set_solver].
Qed.

Lemma cache_lru_inv_inv c :
  cache_lru_inv c ∅ → (∀ l, lru c = Some l → lru_no_nil l) → cache_inv c.
Proof.
  unfold cache_inv, cache_lru_inv. destruct (lru c) as [l |]; [| done].
  intros (Hinv & Hdom) Hnn.
  destruct (lru_inv_wf l Hinv (Hnn l eq_refl)) as [Hwf Hsz].
  split; [done |]. split; [set_solver | done].
Qed.

Lemma cache_inv_New :
  cache_inv (NewAdapterMemory : AdapterMemory) ∧
  ∀ cap, 0 <= cap → cache_inv (NewAdapterMemoryLru cap : AdapterMemory).
Proof.
  split; [done |]. intros cap Hcap. unfold cache_inv. simpl.
  split; [split; [apply NoDup_nil_2 | done] |]. split; [done |].
  change (Z.of_nat (size (∅ : gset K)) <= cap). rewrite size_empty. lia.
Qed.

Lemma cache_lru_inv_New :
  cache_lru_inv (NewAdapterMemory : AdapterMemory) ∅ ∧
  ∀ cap, 0 <= cap → cache_lru_inv (NewAdapterMemoryLru cap : AdapterMemory) ∅.
Proof.
  split; [done |]. intros cap Hcap. by apply cache_inv_lru_inv, cache_inv_New.
Qed.

Lemma cache_lru_inv_Set c now key (value : any) (duration : Z) :
  cache_lru_inv c ∅ → cache_lru_inv (AdapterMemory_Set c now key value duration) ∅.
Proof.
  intros Hinv. unfold AdapterMemory_Set. apply cache_lru_inv_restores.
  unfold cache_lru_inv in *. simpl.
  destruct (lru c) as [l |]; [| done]. destruct Hinv as (Hwf & Hdom).
  split; [done |]. unfold memoryData_Set. rewrite dom_insert_L. set_solver.
Qed.

Lemma cache_lru_inv_Get c now key :
  cache_lru_inv c ∅ → cache_lru_inv (AdapterMemory_Get c now key).1 ∅.
Proof.
  intros Hinv. unfold AdapterMemory_Get.
  destruct (memoryData_Get (data c) key) as [item |]; [| done].
  destruct (negb (IsExpired item now)); [| done]. simpl.
  by apply cache_lru_inv_handleLruKey.
Qed.

Lemma cache_lru_inv_Contains c now key :
  cache_lru_inv c ∅ → cache_lru_inv (AdapterMemory_Contains c now key).1 ∅.
Proof.
  intros Hinv. unfold AdapterMemory_Contains.
  pose proof (cache_lru_inv_Get c now key Hinv) as HGet.
  by destruct (AdapterMemory_Get c now key).
Qed.

Lemma SetWithLock_dom (ctx : Ctx) (d : gmap K memoryDataItem) now key
    (value : any) (ts : Z) :
  dom (swl_data (memoryData_SetWithLock ctx d now key value ts)) ⊆ {[key]} ∪ dom d.
Proof.
  unfold memoryData_SetWithLock.
  assert (Hins : ∀ x, dom (<[key := mkItem x ts]> d) ⊆ {[key]} ∪ dom d)
    by (intros x; by rewrite dom_insert_L).
  assert (Hprod : dom (swl_data
    match value with
    | Fn f =>
        match f ctx with
        | (_, Some err) => mkSWL Nil (Some err) d 1
        | (Nil, None) => mkSWL Nil None d 1
        | (value', None) => mkSWL value' None (<[key := mkItem value' ts]> d) 1
        end
    | _ => mkSWL value None (<[key := mkItem value ts]> d) 0
    end) ⊆ {[key]} ∪ dom d).
  { destruct value as [| x | f]; simpl; try apply Hins.
    destruct (f ctx) as [[| x | g] [err |]]; simpl; try apply Hins; set_solver. }
  destruct (d !! key) as [item |]; [| exact Hprod].
  destruct (negb (IsExpired item now)); [simpl; set_solver | exact Hprod].
Qed.

Lemma cache_lru_inv_GetExpire c now key :
  cache_lru_inv c ∅ → cache_lru_inv (AdapterMemory_GetExpire c now key).1 ∅.
Proof.
  intros Hinv. unfold AdapterMemory_GetExpire.
  destruct (memoryData_Get (data c) key) as [item |]; [| done]. simpl.
  by apply cache_lru_inv_handleLruKey.
Qed.

Lemma cache_lru_inv_Update c now key (value : any) :
  cache_lru_inv c ∅ → cache_lru_inv (AdapterMemory_Update c now key value).1 ∅.
Proof.
  intros Hinv. unfold AdapterMemory_Update, memoryData_Update.
  destruct (data c !! key) as [item |] eqn:Hd; simpl; [| by destruct c].
  apply cache_lru_inv_restores.
  unfold cache_lru_inv in *. simpl.
  destruct (lru c) as [l |]; [| done]. destruct Hinv as (Hwf & Hdom).
  split; [done |]. rewrite dom_insert_L. set_solver.
Qed.

Lemma cache_lru_inv_UpdateExpire c now key (duration : Z) :
  cache_lru_inv c ∅ →
  cache_lru_inv (AdapterMemory_UpdateExpire c now key duration).1 ∅.
Proof.
  intros Hinv. unfold AdapterMemory_UpdateExpire, memoryData_UpdateExpire.
  destruct (data c !! key) as [item |] eqn:Hd; simpl; [| by destruct c].
  assert (Hc1 : cache_lru_inv
    (set_data c (<[key := mkItem (item_v item) (getInternalExpire now duration)]> (data c)))
    ∅).
  { unfold cache_lru_inv in *. simpl.
    destruct (lru c) as [l |]; [| done]. destruct Hinv as (Hwf & Hdom).
    split; [done |]. rewrite dom_insert_L.
    apply elem_of_dom_2 in Hd. set_solver. }
  destruct (_ =? -1); simpl; [done |].
  by apply (cache_lru_inv_handleLruKey (PushBack _ _)).
Qed.

(** *** Removal *)

Lemma memoryData_Remove_data (d : gmap K memoryDataItem) (keys : list K) :
  (memoryData_Remove d keys).1 = foldl (λ d key, delete key d) d keys.
Proof.
  unfold memoryData_Remove. generalize (@nil K, @Nil V Err Ctx). revert d.
  induction keys as [| key keys IH]; intros d acc; [done |]. simpl.
  destruct acc as [removedKeys v].
  destruct (d !! key) as [item |] eqn:Hd.
  - apply IH.
  - rewrite IH. by rewrite (delete_id d key).
Qed.

Lemma dom_foldl_delete (d : gmap K memoryDataItem) (keys : list K) :
  dom (foldl (λ d key, delete key d) d keys) = dom d ∖ list_to_set keys.
Proof.
  revert d. induction keys as [| key keys IH]; intros d; simpl.
  - set_solver.
  - rewrite IH, dom_delete_L. set_solver.
Qed.

Lemma memoryLru_Remove_step_spec (l : memoryLru) (key : K) :
  lru_wf l →
  lru_wf (memoryLru_Remove_step l key) ∧
  lru_data (memoryLru_Remove_step l key) = lru_data l ∖ {[key]} ∧
  lru_cap (memoryLru_Remove_step l key) = lru_cap l.
Proof.
  intros [Hnd Hdata]. unfold memoryLru_Remove_step.
  destruct (decide (key ∈ lru_data l)) as [Hin | Hout]; simpl.
  - split; [| done]. split; [by apply list_Remove_NoDup |]. simpl.
    apply set_eq. intros x.
    rewrite elem_of_difference, elem_of_singleton, Hdata, !elem_of_list_to_set.
    by rewrite list_Remove_elem.
  - split; [done |]. split; [set_solver | done].
Qed.

Lemma memoryLru_Remove_steps_spec (l : memoryLru) (keys : list K) :
  lru_wf l →
  lru_wf (foldl memoryLru_Remove_step l keys) ∧
  lru_data (foldl memoryLru_Remove_step l keys) = lru_data l ∖ list_to_set keys ∧
  lru_cap (foldl memoryLru_Remove_step l keys) = lru_cap l.
Proof.
  revert l. induction keys as [| key keys IH]; intros l Hwf; simpl.
  - split; [done |]. split; [set_solver | done].
  - destruct (memoryLru_Remove_step_spec l key Hwf) as (Hwf1 & Hdata1 & Hcap1).
    destruct (IH _ Hwf1) as (Hwf2 & Hdata2 & Hcap2).
    split; [done |]. split; [| congruence].
    rewrite Hdata2, Hdata1. set_solver.
Qed.

Lemma memoryLru_Remove_step_inv (l : memoryLru) (key : K) :
  lru_inv l →
  lru_inv (memoryLru_Remove_step l key) ∧
  lru_data (memoryLru_Remove_step l key) = lru_data l ∖ {[key]}.
Proof.
  intros (Hnd & Hlen & Hsub & Hdet). unfold memoryLru_Remove_step.
  destruct (decide (key ∈ lru_data l)) as [Hin | Hout]; cbn [lru_data lru_list lru_cap].
  - split; [| done]. split; [by apply list_Remove_NoDup |].
    cbn [lru_data lru_list lru_cap]. split; [| split].
    + pose proof (list_Remove_length key (lru_list l)). lia.
    + intros k [Hk Hne]%list_Remove_elem; [| done]. set_solver.
    + intros k [Hk Hne]%elem_of_difference Hnot. apply Hdet; [done |].
      intros Hc. apply Hnot. apply list_Remove_elem; [done |]. set_solver.
  - split; [done | set_solver].
Qed.

Lemma memoryLru_Remove_steps_inv (l : memoryLru) (keys : list K) :
  lru_inv l →
  lru_inv (foldl memoryLru_Remove_step l keys) ∧
  lru_data (foldl memoryLru_Remove_step l keys) = lru_data l ∖ list_to_set keys.
Proof.
  revert l. induction keys as [| key keys IH]; intros l Hinv; simpl.
  - split; [done | set_solver].
  - destruct (memoryLru_Remove_step_inv l key Hinv) as (Hinv1 & Hdata1).
    destruct (IH _ Hinv1) as (Hinv2 & Hdata2).
    split; [done |]. rewrite Hdata2, Hdata1. set_solver.
Qed.

(** Removing the same keys from the data map and from the tracker keeps
    the invariant. *)
Lemma cache_lru_inv_removed c c' (keys : list K) :
  cache_lru_inv c ∅ →
  dom (data c') ⊆ dom (data c) ∖ list_to_set keys →
  lru c' = memoryLru_Remove (lru c) keys →
  cache_lru_inv c' ∅.
Proof.
  unfold cache_lru_inv. intros Hinv Hdom' Hlru'. rewrite Hlru'.
  destruct (lru c) as [l |]; simpl; [| done].
  destruct Hinv as (Hinv & Hdom).
  destruct (memoryLru_Remove_steps_inv l keys Hinv) as (Hinv' & Hdata').
  split; [done |]. rewrite Hdata'. set_solver.
Qed.

Lemma cache_lru_inv_Remove c now (keys : list K) :
  cache_lru_inv c ∅ → cache_lru_inv (AdapterMemory_Remove c now keys).1 ∅.
Proof.
  intros Hinv. unfold AdapterMemory_Remove.
  destruct (doRemove_fields c now keys) as [Hdata Hlru].
  destruct (doRemove c now keys) as [c' v]. simpl in *.
  apply (cache_lru_inv_removed c _ keys Hinv); simpl.
  - by rewrite Hdata, memoryData_Remove_data, dom_foldl_delete.
  - by rewrite Hlru.
Qed.

(** *** The sweeper *)

Lemma cache_lru_inv_clearExpiredSet c (expireTime : Z) :
  cache_lru_inv c ∅ → cache_lru_inv (clearExpiredSet c expireTime) ∅.
Proof.
  intros Hinv. unfold clearExpiredSet.
  destruct (memoryExpireSets_Get (expireSets c) expireTime) as [expireSet |]; [| done].
  assert (Hfold : cache_lru_inv
    (foldl (λ c key, let c' := deleteExpiredKey c key in
                     set_lru c' (memoryLru_Remove (lru c') [key]))
           c (elements expireSet)) ∅).
  { revert c Hinv. induction (elements expireSet) as [| key keys IH];
      intros c Hinv; simpl; [done |].
    apply IH. apply (cache_lru_inv_removed c _ [key] Hinv); simpl; [| done].
    unfold memoryData_Delete. rewrite dom_delete_L. set_solver. }
  exact Hfold.
Qed.

Lemma cache_lru_inv_clearExpired c now :
  cache_lru_inv c ∅ → cache_lru_inv (clearExpired c now) ∅.
Proof.
  intros Hinv. unfold clearExpired.
  generalize (makeExpireKey now). intros currentEk.
  revert c Hinv. induction [1; 2; 3; 4; 5] as [| i l IH]; intros c Hinv; simpl; [done |].
  apply IH. by apply cache_lru_inv_clearExpiredSet.
Qed.

Lemma cache_lru_inv_syncEventAndClearExpired c now :
  cache_lru_inv c ∅ → cache_lru_inv (syncEventAndClearExpired c now) ∅.
Proof.
  intros Hinv. unfold syncEventAndClearExpired.
  destruct (closed c); [done |].
  destruct (syncEvents (expireTimes c, expireSets c) (eventList c)) as [times sets].
  by apply cache_lru_inv_clearExpired.
Qed.

Lemma cache_lru_inv_Close c :
  cache_lru_inv c ∅ → cache_lru_inv (AdapterMemory_Close c) ∅.
Proof. done. Qed.

Lemma cache_lru_inv_Clear c :
  cache_lru_inv c ∅ → cache_lru_inv (AdapterMemory_Clear c) ∅.
Proof.
  unfold cache_lru_inv, AdapterMemory_Clear. simpl.
  destruct (lru c) as [l |]; simpl; [| done]. intros ((Hnd & Hlen & Hsub & Hdet) & Hdom).
  split; [| unfold memoryData_Clear; rewrite dom_empty_L; set_solver].
  split; [apply NoDup_nil_2 |]. cbn [lru_list lru_data lru_cap]. split; [| split].
  - simpl. pose proof (Nat2Z.is_nonneg (length (lru_list l))). lia.
  - by intros k ?%elem_of_nil.
  - by intros k ?%elem_of_empty.
Qed.

(** The invariant gives what [SetIfNotExist] and [Set] need of the
    tracker, when the capacity is at least one. *)
Lemma cache_inv_lru_ok c :
  cache_inv c → (∀ l, lru c = Some l → 1 <= lru_cap l) → cache_lru_ok c.
Proof.
  unfold cache_inv, cache_lru_ok. destruct (lru c) as [l |]; [| done].
  intros (Hwf & _) Hcap. split; [done |]. by apply Hcap.
Qed.

(** A key of the data map is tracked. *)
Lemma cache_inv_tracks c key :
  cache_inv c → is_Some (data c !! key) → lru_tracks c key.
Proof.
  unfold cache_inv, lru_tracks. destruct (lru c) as [l |]; [| done].
  intros (Hwf & Hdom & Hsz) Hin%elem_of_dom. split; [done |]. split; [set_solver | done].
Qed.


(** ** Update *)


(** ** SetIfNotExist *)

Lemma Get_hit c now key item :
  data c !! key = Some item → IsExpired item now = false →
  AdapterMemory_Get c now key = (handleLruKey c now [key], Some (item_v item)).
Proof.
  intros Hd He. unfold AdapterMemory_Get, memoryData_Get. by rewrite Hd, He.
Qed.

Lemma Get_miss c now key :
  ¬ is_live (data c) now key → AdapterMemory_Get c now key = (c, None).
Proof.
  intros Hmiss. unfold AdapterMemory_Get, memoryData_Get.
  destruct (data c !! key) as [item |] eqn:Hd; [| done].
  destruct (IsExpired item now) eqn:He; [done |].
  exfalso. apply Hmiss. by exists item.
Qed.

Lemma absent_not_live (d : gmap K memoryDataItem) now key :
  d !! key = None → ¬ is_live d now key.
Proof. intros Hd (item & Hd' & _). congruence. Qed.




(** ** Eviction *)



(** The nil key at the back is popped from the list and evicted from
    nowhere: it stays in the map of the tracker and in the data map. *)
Lemma run_Set_keeps_nil c (s : SetCall) (cap : Z) (keys : list K) (x : K)
    (l0 : list K) :
  lru c = Some (mkLru cap (list_to_set keys) (l0 ++ [x])) →
  call_key s ∉ keys → NoDup keys →
  cap < Z.of_nat (length keys) + 1 →
  key_is_nil x = true →
  data (run_Set c s) = <[call_key s := call_item s]> (data c) ∧
  lru (run_Set c s) =
    Some (mkLru cap ({[call_key s]} ∪ list_to_set keys) (call_key s :: l0)).
Proof.
  intros Hl Hfresh Hnd Hcap Hnil. unfold run_Set, AdapterMemory_Set.
  set (c2 := PushBack _ _).
  rewrite (handleLruKey_single c2 _ _ _ Hl). unfold memoryLru_doSaveAndEvict.
  cbn [lru_data lru_list lru_cap].
  rewrite bool_decide_eq_false_2 by (by rewrite elem_of_list_to_set).
  cbn [andb].
  assert (Hsz : size ({[call_key s]} ∪ list_to_set keys : gset K) = S (length keys)).
  { rewrite size_union by (rewrite disjoint_singleton_l, elem_of_list_to_set; done).
    rewrite size_singleton, size_list_to_set by done. done. }
  rewrite Hsz.
  destruct (Z.leb_spec (Z.of_nat (S (length keys))) cap) as [Hle | _]; [lia |].
  rewrite app_comm_cons, list_PopBack_snoc, Hnil. cbn [fst snd]. done.
Qed.




(** ** The drain phase of the sweeper *)

Lemma GetOrNew_Add_insert (d : gmap Z (gset K)) (b : Z) (k : K) :
  memoryExpireSets_GetOrNew_Add d b k = <[b := {[k]} ∪ default ∅ (d !! b)]> d.
Proof.
  unfold memoryExpireSets_GetOrNew_Add, memoryExpireSets_GetOrNew.
  destruct (d !! b) as [s |]; simpl; [done |]. by rewrite insert_insert_eq.
Qed.

Lemma GetOrNew_Remove_insert (d : gmap Z (gset K)) (b : Z) (k : K) :
  memoryExpireSets_GetOrNew_Remove d b k = <[b := default ∅ (d !! b) ∖ {[k]}]> d.
Proof.
  unfold memoryExpireSets_GetOrNew_Remove, memoryExpireSets_GetOrNew.
  destruct (d !! b) as [s |]; simpl; [done |]. by rewrite insert_insert_eq.
Qed.

Lemma in_bucket_Add (d : gmap Z (gset K)) (new b : Z) (k k' : K) :
  in_bucket (memoryExpireSets_GetOrNew_Add d new k) b k' ↔
  in_bucket d b k' ∨ (b = new ∧ k' = k).
Proof.
  rewrite GetOrNew_Add_insert. unfold in_bucket.
  destruct (decide (b = new)) as [-> | Hne].
  - rewrite lookup_insert_eq. split.
    + intros (s & [= <-] & Hin). apply elem_of_union in Hin as [Hin | Hin].
      * right. split; [done |]. set_solver.
      * left. destruct (d !! new) as [s |]; simpl in Hin; [by exists s |].
        set_solver.
    + intros [(s & Hs & Hin) | [_ ->]]; eexists; (split; [done |]).
      * rewrite Hs. simpl. set_solver.
      * set_solver.
  - rewrite lookup_insert_ne by done. naive_solver.
Qed.

Lemma in_bucket_Remove (d : gmap Z (gset K)) (old b : Z) (k k' : K) :
  in_bucket (memoryExpireSets_GetOrNew_Remove d old k) b k' ↔
  in_bucket d b k' ∧ ¬ (b = old ∧ k' = k).
Proof.
  rewrite GetOrNew_Remove_insert. unfold in_bucket.
  destruct (decide (b = old)) as [-> | Hne].
  - rewrite lookup_insert_eq. split.
    + intros (s & [= <-] & Hin).
      apply elem_of_difference in Hin as [Hin Hk].
      split; [| set_solver].
      destruct (d !! old) as [s |]; simpl in Hin; [by exists s |].
      set_solver.
    + intros [(s & Hs & Hin) Hk]. eexists. split; [done |]. rewrite Hs. simpl.
      apply elem_of_difference. split; [done |]. set_solver.
  - rewrite lookup_insert_ne by done. naive_solver.
Qed.

Lemma bucket_in_index_alt (times : gmap K Z) (sets : gmap Z (gset K)) :
  bucket_in_index times sets ↔ ∀ b k, in_bucket sets b k → times !! k = Some b.
Proof.
  unfold bucket_in_index, in_bucket. split.
  - intros Hinv b k (s & Hs & Hin). by apply (Hinv b s k).
  - intros Hinv b s k Hs Hin. apply Hinv. by exists s.
Qed.

Lemma bucket_in_index_one_bucket (times : gmap K Z) (sets : gmap Z (gset K)) :
  bucket_in_index times sets → one_bucket sets.
Proof.
  intros Hinv k b1 b2 s1 s2 Hs1 Hs2 Hin1 Hin2.
  pose proof (Hinv b1 s1 k Hs1 Hin1). pose proof (Hinv b2 s2 k Hs2 Hin2).
  congruence.
Qed.

(** What one event does to the indexes. *)
Lemma syncEvent_effect (times : gmap K Z) (sets : gmap Z (gset K))
    (event : adapterMemoryEvent) :
  let old := memoryExpireTimes_Get times (ev_k event) in
  let new := makeExpireKey (ev_e event) in
  new ≠ old →
  (syncEvent (times, sets) event).1 = <[ev_k event := new]> times ∧
  ∀ b k, in_bucket (syncEvent (times, sets) event).2 b k ↔
         (in_bucket sets b k ∨ (b = new ∧ k = ev_k event)) ∧
         (old ≠ 0 → ¬ (b = old ∧ k = ev_k event)).
Proof.
  intros old new Hne. unfold syncEvent. fold old new.
  rewrite bool_decide_eq_true_2 by done. simpl. split; [done |].
  intros b k. case_bool_decide as Hold.
  - rewrite in_bucket_Remove, in_bucket_Add. naive_solver.
  - rewrite in_bucket_Add. naive_solver.
Qed.

Lemma syncEvent_preserves (st : gmap K Z * gmap Z (gset K))
    (event : adapterMemoryEvent) :
  index_inv st → no_zero_bucket st → makeExpireKey (ev_e event) ≠ 0 →
  index_inv (syncEvent st event) ∧ no_zero_bucket (syncEvent st event).
Proof.
  destruct st as [times sets]. intros (Hib & Hbi & _) Hnz Hnew.
  unfold no_zero_bucket in *. simpl in Hib, Hbi, Hnz.
  destruct (decide (makeExpireKey (ev_e event) = memoryExpireTimes_Get times (ev_k event)))
    as [Heq | Hne].
  { unfold syncEvent. rewrite bool_decide_eq_false_2 by (intros Hc; by apply Hc).
    split; [| done]. split; [done |]. split; [done |].
    by apply (bucket_in_index_one_bucket times). }
  destruct (syncEvent_effect times sets event Hne) as [Htimes Hsets].
  destruct (syncEvent (times, sets) event) as [times' sets']. simpl in Htimes, Hsets.
  subst times'. rewrite bucket_in_index_alt in Hbi.
  assert (Hbi' : bucket_in_index (<[ev_k event := makeExpireKey (ev_e event)]> times) sets').
  { apply bucket_in_index_alt. intros b k [[Hin | [-> ->]] Hrm]%Hsets.
    - destruct (decide (k = ev_k event)) as [-> | Hk].
      + exfalso. pose proof (Hbi _ _ Hin) as Ht.
        assert (Hold : memoryExpireTimes_Get times (ev_k event) = b).
        { unfold memoryExpireTimes_Get. by rewrite Ht. }
        apply Hrm; [| done]. rewrite Hold. intros ->. by apply (Hnz (ev_k event)).
      + rewrite lookup_insert_ne by done. by apply Hbi.
    - apply lookup_insert_eq. }
  split; [split; [| split] |].
  - intros k b Ht. simpl in *. apply Hsets.
    destruct (decide (k = ev_k event)) as [-> | Hk].
    + rewrite lookup_insert_eq in Ht. injection Ht as <-.
      split; [by right |]. intros _ [Hc _]. by apply Hne.
    + rewrite lookup_insert_ne in Ht by done. split; [left; by apply Hib |].
      intros _ [_ Hc]. done.
  - exact Hbi'.
  - by apply (bucket_in_index_one_bucket _ _ Hbi').
  - intros k. simpl. destruct (decide (k = ev_k event)) as [-> | Hk].
    + rewrite lookup_insert_eq. congruence.
    + rewrite lookup_insert_ne by done. apply Hnz.
Qed.

(** A drain whose events all have a bucket key other than 0 keeps the
    invariants of the indexes, bucket 0 staying out of use. *)
Lemma syncEvents_preserves_index_inv_gen (st : gmap K Z * gmap Z (gset K))
    (events : list adapterMemoryEvent) :
  index_inv st → no_zero_bucket st →
  Forall (λ event, makeExpireKey (ev_e event) ≠ 0) events →
  index_inv (syncEvents st events) ∧ no_zero_bucket (syncEvents st events).
Proof.
  revert st. induction events as [| event events IH]; intros st Hinv Hnz Hev.
  - done.
  - apply Forall_cons in Hev as [Hev Hevs]. simpl.
    destruct (syncEvent_preserves st event Hinv Hnz Hev) as [Hinv' Hnz'].
    by apply IH.
Qed.

(** C7, as the code has it: the drain phase keeps the three invariants
    of the expiry indexes when bucket 0, the value that stands for a
    missing key of the index, is not in use: no key is indexed at 0
    before the drain, and no event of the drain has the bucket key 0.
    Afterwards every key of the index maps to a bucket that holds it,
    every key of a bucket is in the index mapped to that bucket, a key is
    in at most one bucket, and still no key is indexed at 0. *)
Theorem syncEvents_preserves_index_inv (st : gmap K Z * gmap Z (gset K))
    (events : list adapterMemoryEvent) :
  index_inv st → no_zero_bucket st →
  Forall (λ event, makeExpireKey (ev_e event) ≠ 0) events →
  (index_in_bucket (syncEvents st events).1 (syncEvents st events).2 ∧
   bucket_in_index (syncEvents st events).1 (syncEvents st events).2 ∧
   one_bucket (syncEvents st events).2) ∧
  no_zero_bucket (syncEvents st events).
Proof.
  intros Hinv Hnz Hev.
  exact (syncEvents_preserves_index_inv_gen st events Hinv Hnz Hev).
Qed.

(** Events with timestamps that are not negative never have the bucket
    key 0, so a drain of such events keeps the invariants. *)
Corollary syncEvents_preserves_index_inv_nonneg (st : gmap K Z * gmap Z (gset K))
    (events : list adapterMemoryEvent) :
  index_inv st → no_zero_bucket st →
  Forall (λ event, 0 <= ev_e event < 2 ^ 53 - 1000) events →
  index_inv (syncEvents st events) ∧ no_zero_bucket (syncEvents st events).
Proof.
  intros Hinv Hnz Hev. apply syncEvents_preserves_index_inv_gen; [done | done |].
  eapply Forall_impl; [exact Hev |]. intros event Hr. simpl in Hr.
  pose proof (makeExpireKey_nonneg (ev_e event) Hr). lia.
Qed.

(** * Further properties of the cache *)

(** ** The data map: Remove and the snapshot views *)

Lemma lookup_foldl_delete {A : Type} (d : gmap K A) (keys : list K) (k : K) :
  foldl (λ d key, delete key d) d keys !! k =
    if decide (k ∈ keys) then None else d !! k.
Proof.
  revert d. induction keys as [| key keys IH]; intros d.
  - destruct (decide (k ∈ [])) as [Hin | _]; [by apply elem_of_nil in Hin | done].
  - cbn [foldl]. rewrite IH.
    destruct (decide (k ∈ keys)) as [Hin | Hout];
      destruct (decide (k ∈ key :: keys)) as [Hin' | Hout']; try done.
    + exfalso. apply Hout'. by right.
    + apply elem_of_cons in Hin' as [-> | Hin']; [apply lookup_delete_eq | done].
    + apply lookup_delete_ne. intros ->. apply Hout'. by left.
Qed.

(** What the loop of [Remove] has done when it ends. *)
Lemma memoryData_Remove_loop (d : gmap K memoryDataItem) (keys : list K) :
  let r := memoryData_Remove d keys in
  r.1 = foldl (λ d key, delete key d) d keys ∧
  (∀ k, k ∈ r.2.1 ↔ k ∈ keys ∧ is_Some (d !! k)) ∧
  NoDup r.2.1 ∧
  (r.2.1 = [] → r.2.2 = Nil) ∧
  (∀ k, last r.2.1 = Some k → ∃ item, d !! k = Some item ∧ r.2.2 = item_v item).
Proof.
  unfold memoryData_Remove.
  induction keys as [| x keys IH] using rev_ind.
  - simpl. split; [done |]. split.
    + intros k. split; [by intros ?%elem_of_nil | by intros [?%elem_of_nil _]].
    + split; [apply NoDup_nil_2 |]. split; [done |]. by intros k.
  - rewrite !foldl_app. simpl. simpl in IH.
    destruct (foldl memoryData_Remove_step (d, ([], Nil)) keys)
      as [dcur [removedKeys v]].
    simpl in IH. destruct IH as (-> & Hmem & Hnd & Hnil & Hlast).
    unfold memoryData_Remove_step.
    rewrite lookup_foldl_delete.
    destruct (decide (x ∈ keys)) as [Hin | Hout].
    + split; [| split; [| done]].
      * simpl. symmetry. apply delete_id. rewrite lookup_foldl_delete.
        by rewrite decide_True.
      * simpl. intros k. rewrite Hmem, elem_of_app, list_elem_of_singleton.
        naive_solver.
    + destruct (d !! x) as [item |] eqn:Hx.
      * split; [done |]. simpl. split; [| split; [| split]].
        -- intros k. rewrite !elem_of_app, !list_elem_of_singleton, Hmem.
           split; [| naive_solver].
           intros [[? ?] | ->]; [by split; [left |] | by split; [right |]].
        -- apply NoDup_app. split; [done |]. split; [| apply NoDup_singleton].
           intros k Hk ->%list_elem_of_singleton. apply Hmem in Hk as [? _]. done.
        -- by intros ?%app_eq_nil%proj2.
        -- intros k. rewrite last_snoc. intros [= <-]. by exists item.
      * split; [| split; [| done]].
        -- simpl. symmetry. apply delete_id. rewrite lookup_foldl_delete.
           by rewrite decide_False.
        -- simpl. intros k. rewrite Hmem, elem_of_app, list_elem_of_singleton.
           split; [naive_solver |]. intros [[? | ->] Hsome]; [done |].
           rewrite Hx in Hsome. by destruct Hsome.
Qed.

(** X1: [Remove] of the data map deletes every key given and no other: the
    keys given are absent afterwards and the item of any other key is as
    before.  The removed keys it gives back are the keys given that were
    present, each once; the value it gives back is the value of the last
    of them, and nil when none was present. *)
Theorem memoryData_Remove_contract (d : gmap K memoryDataItem) (keys : list K) :
  let r := memoryData_Remove d keys in
  (∀ k, k ∈ keys → r.1 !! k = None) ∧
  (∀ k, k ∉ keys → r.1 !! k = d !! k) ∧
  (∀ k, k ∈ r.2.1 ↔ k ∈ keys ∧ is_Some (d !! k)) ∧
  NoDup r.2.1 ∧
  (r.2.1 = [] → r.2.2 = Nil) ∧
  (∀ k, last r.2.1 = Some k → ∃ item, d !! k = Some item ∧ r.2.2 = item_v item).
Proof.
  destruct (memoryData_Remove_loop d keys) as (Hdata & Hrest). simpl.
  split; [| split; [| exact Hrest]].
  - intros k Hk. rewrite Hdata, lookup_foldl_delete. by rewrite decide_True.
  - intros k Hk. rewrite Hdata, lookup_foldl_delete. by rewrite decide_False.
Qed.

(** X2: the four snapshot views agree with each other at one clock
    reading: [Keys] has no key twice, [Size] is the number of keys of
    [Keys], of values of [Values] and of entries of [Data], and a key is
    in [Keys] exactly when [Data] has it; [Data] gives the value of each
    item whose expire timestamp is above the clock. *)
Theorem snapshot_views_agree (d : gmap K memoryDataItem) now :
  NoDup (memoryData_Keys d now) ∧
  memoryData_Size d now = Z.of_nat (length (memoryData_Keys d now)) ∧
  memoryData_Size d now = Z.of_nat (length (memoryData_Values d now)) ∧
  memoryData_Size d now = Z.of_nat (size (memoryData_Data d now)) ∧
  (∀ k, k ∈ memoryData_Keys d now ↔ is_Some (memoryData_Data d now !! k)) ∧
  (∀ k v, memoryData_Data d now !! k = Some v ↔
          ∃ item, d !! k = Some item ∧ now < item_e item ∧ v = item_v item).
Proof.
  unfold memoryData_Size, memoryData_Keys, memoryData_Values, memoryData_Data.
  split; [apply NoDup_fst_map_to_list |].
  rewrite !length_fmap, length_map_to_list, map_size_fmap.
  split; [done |]. split; [done |]. split; [done |]. split.
  - intros k. fold (memoryData_Keys d now). rewrite memoryData_Keys_elem.
    fold (memoryData_Data d now). rewrite memoryData_Data_lookup.
    destruct (d !! k) as [item |]; [| split; [by intros (? & ? & _) | by intros []]].
    destruct (decide (now < item_e item)).
    + split; [by eexists | intros _; by exists item].
    + split; [intros (? & [= <-] & ?); done | by intros []].
  - intros k v. fold (memoryData_Data d now). rewrite memoryData_Data_lookup.
    destruct (d !! k) as [item |]; [| split; [done | by intros (? & ? & _)]].
    destruct (decide (now < item_e item)).
    + split; [intros [= <-]; by exists item | intros (? & [= <-] & _ & ->); done].
    + split; [done | intros (? & [= <-] & ? & _); done].
Qed.


(** ** Set, GetExpire and the rounding of durations *)

Lemma quot_mul_bounds (a b : Z) :
  0 < b →
  Z.abs (a ÷ b * b) <= Z.abs a ∧ (0 <= a → a - b < a ÷ b * b <= a).
Proof.
  intros Hb. pose proof (Z.quot_rem' a b) as Hqr.
  destruct (Z.le_ge_cases 0 a) as [Hp | Hn].
  - pose proof (Z.rem_bound_pos a b Hp Hb).
    pose proof (Z.quot_pos a b Hp Hb). split; [| intros _]; nia.
  - pose proof (Z.quot_rem' (- a) b) as Hqr'.
    pose proof (Z.rem_bound_pos (- a) b ltac:(lia) Hb).
    pose proof (Z.quot_pos (- a) b ltac:(lia) Hb).
    rewrite Z.quot_opp_l in * by lia.
    split; [nia |]. intros ?. assert (a = 0) by lia. subst.
    rewrite Z.quot_0_l by lia. lia.
Qed.





(** ** Reads *)

(** X5: on a cache that satisfies its invariant, the reads [Get],
    [Contains] and [GetExpire] leave the data map and the event list as
    they are, so a read never evicts; and [Get] of a key that is absent
    or expired leaves the whole cache as it is and gives nil. *)
Theorem reads_keep_data c now key :
  cache_inv c →
  data (AdapterMemory_Get c now key).1 = data c ∧
  eventList (AdapterMemory_Get c now key).1 = eventList c ∧
  data (AdapterMemory_Contains c now key).1 = data c ∧
  data (AdapterMemory_GetExpire c now key).1 = data c ∧
  eventList (AdapterMemory_GetExpire c now key).1 = eventList c ∧
  (¬ is_live (data c) now key → AdapterMemory_Get c now key = (c, None)).
Proof.
  intros Hinv.
  assert (Htouch : is_Some (data c !! key) →
    data (handleLruKey c now [key]) = data c ∧
    eventList (handleLruKey c now [key]) = eventList c).
  { intros Hsome. apply handleLruKey_tracked. by apply cache_inv_tracks. }
  assert (HGet : data (AdapterMemory_Get c now key).1 = data c ∧
                 eventList (AdapterMemory_Get c now key).1 = eventList c).
  { unfold AdapterMemory_Get, memoryData_Get.
    destruct (data c !! key) as [item |] eqn:Hd; [| done].
    destruct (negb (IsExpired item now)); [| done]. simpl. apply Htouch. by exists item. }
  destruct HGet as [HGd HGe].
  split; [exact HGd |]. split; [exact HGe |]. split; [| split; [| split]].
  - unfold AdapterMemory_Contains.
    by destruct (AdapterMemory_Get c now key).
  - unfold AdapterMemory_GetExpire, memoryData_Get.
    destruct (data c !! key) as [item |] eqn:Hd; [| done]. simpl.
    apply Htouch. by exists item.
  - unfold AdapterMemory_GetExpire, memoryData_Get.
    destruct (data c !! key) as [item |] eqn:Hd; [| done]. simpl.
    apply Htouch. by exists item.
  - apply Get_miss.
Qed.

(** ** Remove *)

Lemma doRemove_events c now (keys : list K) :
  eventList (doRemove c now keys).1 =
    eventList c ++
    ((λ key, mkEvent key (wrap64 (now - 1000))) <$> (memoryData_Remove (data c) keys).2.1) ∧
  expireTimes (doRemove c now keys).1 = expireTimes c ∧
  expireSets (doRemove c now keys).1 = expireSets c ∧
  closed (doRemove c now keys).1 = closed c ∧
  (doRemove c now keys).2 = gvar_New (memoryData_Remove (data c) keys).2.2.
Proof.
  unfold doRemove.
  destruct (memoryData_Remove (data c) keys) as [d [removedKeys value]]. simpl.
  pose proof (foldl_PushBack_fields
    (λ key, mkEvent key (wrap64 (now - 1000))) removedKeys (set_data c d)) as Hf.
  simpl in Hf. destruct Hf as (_ & _ & -> & -> & -> & ->). done.
Qed.

(** X6: [Remove] of the cache makes every key given absent: its later
    [Get] gives nil, [Contains] gives [false] and [GetExpire] gives -1,
    at any clock reading.  The items of the other keys are as before;
    one event, dated one second before the clock, is pushed for each key
    that was present; and the value given back is the one of the last of
    these keys. *)
Theorem Remove_makes_absent c now now' (keys : list K) :
  let r := AdapterMemory_Remove c now keys in
  (∀ k, k ∈ keys →
     data r.1 !! k = None ∧
     AdapterMemory_Get r.1 now' k = (r.1, None) ∧
     (AdapterMemory_Contains r.1 now' k).2 = false ∧
     (AdapterMemory_GetExpire r.1 now' k).2 = -1) ∧
  (∀ k, k ∉ keys → data r.1 !! k = data c !! k) ∧
  eventList r.1 =
    eventList c ++
    ((λ key, mkEvent key (wrap64 (now - 1000)))
       <$> (memoryData_Remove (data c) keys).2.1) ∧
  r.2 = gvar_New (memoryData_Remove (data c) keys).2.2.
Proof.
  intros r. subst r. unfold AdapterMemory_Remove.
  destruct (doRemove_fields c now keys) as [Hdata Hlru].
  destruct (doRemove_events c now keys) as (Hev & _ & _ & _ & Hval).
  destruct (doRemove c now keys) as [c' v]. simpl in *.
  rewrite memoryData_Remove_data in Hdata.
  split; [| split; [| done]].
  - intros k Hk.
    assert (Hnone : data c' !! k = None).
    { rewrite Hdata, lookup_foldl_delete. by rewrite decide_True. }
    split; [exact Hnone |].
    unfold AdapterMemory_Contains, AdapterMemory_Get, AdapterMemory_GetExpire,
      memoryData_Get. simpl. by rewrite Hnone.
  - intros k Hk. rewrite Hdata, lookup_foldl_delete. by rewrite decide_False.
Qed.

(** ** UpdateExpire *)

(** X7: on a cache that satisfies its invariant, [UpdateExpire] of a
    present key gives back what [GetExpire] gives for it, which is never
    -1, keeps the value of the key, gives it the expire timestamp of the
    duration, leaves the items of the other keys as they are and pushes
    one event for the key; [UpdateExpire] of an absent key gives -1 and
    leaves the cache as it is. *)
Theorem UpdateExpire_contract c now key (duration : Z) :
  cache_inv c →
  (∀ item, data c !! key = Some item →
     let r := AdapterMemory_UpdateExpire c now key duration in
     r.2 = (AdapterMemory_GetExpire c now key).2 ∧
     r.2 ≠ -1 ∧
     data r.1 !! key = Some (mkItem (item_v item) (getInternalExpire now duration)) ∧
     (∀ k, k ≠ key → data r.1 !! k = data c !! k) ∧
     eventList r.1 = eventList c ++ [mkEvent key (getInternalExpire now duration)]) ∧
  (data c !! key = None →
     AdapterMemory_UpdateExpire c now key duration = (c, -1)).
Proof.
  intros Hinv. split.
  - intros item Hd r. subst r.
    pose proof (cache_inv_tracks c key Hinv ltac:(by exists item)) as Htr.
    unfold AdapterMemory_UpdateExpire, memoryData_UpdateExpire,
      AdapterMemory_GetExpire, memoryData_Get.
    rewrite Hd. cbn [fst snd].
    pose proof (wrap64_mul_even_ne (wrap64 (item_e item - now))) as Hne.
    destruct (Z.eqb_spec (wrap64 (wrap64 (item_e item - now) * Millisecond)) (-1))
      as [Heq | _]; [done |].
    cbn [fst snd].
    set (c1 := PushBack _ _).
    destruct (handleLruKey_tracked c1 now key Htr) as [-> ->].
    subst c1. simpl.
    split; [done |]. split; [done |]. split; [apply lookup_insert_eq |].
    split; [| done]. intros k Hk. by apply lookup_insert_ne.
  - intros Hd. unfold AdapterMemory_UpdateExpire, memoryData_UpdateExpire.
    rewrite Hd. simpl. by destruct c.
Qed.


(** ** The read-through and set-if-absent operations with producers *)

Lemma Contains_miss c now key :
  ¬ is_live (data c) now key → AdapterMemory_Contains c now key = (c, false).
Proof.
  intros Hmiss. unfold AdapterMemory_Contains. rewrite Get_miss by done.
  by rewrite bool_decide_eq_false_2 by (intros Hc; by apply Hc).
Qed.

Lemma Contains_hit c now key item :
  data c !! key = Some item → IsExpired item now = false →
  AdapterMemory_Contains c now key = (handleLruKey c now [key], true).
Proof.
  intros Hd He. unfold AdapterMemory_Contains.
  rewrite (Get_hit c now key item Hd He). by rewrite bool_decide_eq_true_2.
Qed.










(** ** The order of the tracker *)

Lemma list_snoc_inv_or_nil {A : Type} (l : list A) :
  l = [] ∨ ∃ l' x, l = l' ++ [x].
Proof.
  destruct l as [| a l]; [by left | right]. by apply list_snoc_inv.
Qed.

(** A touch of a well formed tracker within its capacity, of at least
    one: the key is at the front afterwards; and either nothing is
    popped, or the key was not tracked, the tracker was full, and the
    key at the back of the list is popped, evicted when it is not nil
    and left in the map when it is. *)
Lemma doSaveAndEvict_front_and_back (l : memoryLru) (key : K) :
  lru_wf l → 1 <= lru_cap l → Z.of_nat (size (lru_data l)) <= lru_cap l →
  let r := memoryLru_doSaveAndEvict l key in
  head (lru_list r.1) = Some key ∧
  ((r.2 = None ∧ lru_wf r.1 ∧ lru_data r.1 = {[key]} ∪ lru_data l ∧
    Z.of_nat (size (lru_data r.1)) <= lru_cap l) ∨
   (∃ x rest,
      lru_list l = rest ++ [x] ∧ (key ∉ lru_data l) ∧
      Z.of_nat (size (lru_data l)) = lru_cap l ∧
      lru_list r.1 = key :: rest ∧ (x ∉ key :: rest) ∧
      ((key_is_nil x = false ∧ r.2 = Some x ∧
        lru_data r.1 = ({[key]} ∪ lru_data l) ∖ {[x]} ∧ lru_wf r.1 ∧
        Z.of_nat (size (lru_data r.1)) = lru_cap l) ∨
       (key_is_nil x = true ∧ r.2 = None ∧
        lru_data r.1 = {[key]} ∪ lru_data l ∧
        Z.of_nat (size (lru_data r.1)) = lru_cap l + 1)))).
Proof.
  intros Hwf Hcap Hsz. pose proof (lru_detached l key Hwf) as [Hnd2 Hset2].
  destruct Hwf as [Hnd Hdata]. unfold memoryLru_doSaveAndEvict.
  destruct (bool_decide (key ∈ lru_data l) && is_front key (lru_list l)) eqn:Hfront.
  { apply andb_true_iff in Hfront as [Hin%bool_decide_eq_true Hf]. cbn [fst snd].
    split.
    - apply is_front_head; [| done]. rewrite Hdata in Hin.
      by apply elem_of_list_to_set in Hin.
    - left. split; [done |]. split; [by split |]. split; [set_solver | done]. }
  cbv zeta. destruct (decide (key ∈ lru_data l)) as [Hin | Hout].
  - rewrite (bool_decide_eq_true_2 _ Hin) in *.
    assert (Hsame : ({[key]} ∪ lru_data l : gset K) = lru_data l) by set_solver.
    rewrite Hsame in *.
    destruct (Z.leb_spec (Z.of_nat (size (lru_data l))) (lru_cap l)); [| lia].
    cbn [fst snd lru_list lru_data lru_cap]. split; [done |]. left.
    split; [done |]. split; [by split |]. done.
  - rewrite (bool_decide_eq_false_2 _ Hout) in *.
    assert (Hsize : size ({[key]} ∪ lru_data l : gset K) = S (size (lru_data l))).
    { rewrite size_union by set_solver. by rewrite size_singleton. }
    destruct (Z.leb_spec (Z.of_nat (size ({[key]} ∪ lru_data l))) (lru_cap l))
      as [Hfit | Hfull]; cbn [fst snd lru_list lru_data lru_cap].
    { split; [done |]. left. split; [done |]. split; [by split |]. done. }
    destruct (list_snoc_inv_or_nil (lru_list l)) as [Hnil | (rest & x & Hlist)].
    { rewrite Hnil in Hdata. simpl in Hdata.
      rewrite Hsize, Hdata, size_empty in Hfull. lia. }
    rewrite Hlist in *. rewrite app_comm_cons, list_PopBack_snoc.
    rewrite app_comm_cons in Hnd2, Hset2.
    apply NoDup_app in Hnd2 as (Hnd3 & Hdisj & _).
    assert (Hx3 : x ∉ key :: rest).
    { intros Hx. apply (Hdisj x Hx). by apply list_elem_of_singleton. }
    assert (Hdata3 : ({[key]} ∪ lru_data l) ∖ {[x]}
                     = (list_to_set (key :: rest) : gset K)).
    { rewrite Hset2, list_to_set_app_L. apply set_eq. intros y.
      rewrite elem_of_difference, elem_of_union, !elem_of_list_to_set.
      rewrite list_elem_of_singleton, elem_of_singleton.
      split; [naive_solver |]. intros Hy. split; [by left |]. by intros ->. }
    assert (Hlen : size (lru_data l) = S (length rest)).
    { rewrite Hdata, size_list_to_set by done. rewrite length_app. simpl. lia. }
    destruct (key_is_nil x) eqn:Hxnil; cbn [fst snd lru_list lru_data lru_cap].
    + split; [done |]. right. exists x, rest.
      split; [done |]. split; [done |]. split; [lia |]. split; [done |].
      split; [done |]. right. split; [done |]. split; [done |]. split; [done |].
      rewrite Hsize. lia.
    + split; [done |]. right. exists x, rest.
      split; [done |]. split; [done |]. split; [lia |]. split; [done |].
      split; [done |]. left. split; [done |]. split; [done |]. split; [done |].
      split; [by split |].
      rewrite Hdata3, size_list_to_set by done. simpl. lia.
Qed.

(** X14: a touch of a well formed tracker that is within its capacity,
    of at least one, leaves the key at the front of the list and never
    evicts the key touched.  It pops a key only when the key touched was
    not tracked and the tracker was full, and the key it pops is the one
    at the back of the list, the least recently touched.  A popped key
    that is not nil is evicted, and the tracker stays well formed and
    within its capacity.  The popped nil key is not evicted: nothing is
    given back, the key stays in the map of the tracker while it is no
    longer in the list, and the map is one over the capacity. *)
Theorem doSaveAndEvict_contract (l : memoryLru) (key : K) :
  lru_wf l → 1 <= lru_cap l → Z.of_nat (size (lru_data l)) <= lru_cap l →
  let r := memoryLru_doSaveAndEvict l key in
  lru_cap r.1 = lru_cap l ∧
  NoDup (lru_list r.1) ∧
  head (lru_list r.1) = Some key ∧
  r.2 ≠ Some key ∧
  lru_data r.1 =
    ({[key]} ∪ lru_data l) ∖ match r.2 with Some x => {[x]} | None => ∅ end ∧
  (∀ x, r.2 = Some x →
     last (lru_list l) = Some x ∧ key_is_nil x = false ∧ (key ∉ lru_data l) ∧
     Z.of_nat (size (lru_data l)) = lru_cap l ∧
     lru_wf r.1 ∧ Z.of_nat (size (lru_data r.1)) <= lru_cap l) ∧
  (r.2 = None →
     (lru_wf r.1 ∧ Z.of_nat (size (lru_data r.1)) <= lru_cap l) ∨
     (∃ x, last (lru_list l) = Some x ∧ key_is_nil x = true ∧
           (key ∉ lru_data l) ∧ Z.of_nat (size (lru_data l)) = lru_cap l ∧
           x ∈ lru_data r.1 ∧ (x ∉ lru_list r.1) ∧
           Z.of_nat (size (lru_data r.1)) = lru_cap l + 1)) ∧
  ((key ∉ lru_data l) → Z.of_nat (size (lru_data l)) = lru_cap l →
     ∃ x, last (lru_list l) = Some x ∧
          lru_list r.1 = key :: removelast (lru_list l) ∧
          r.2 = if key_is_nil x then None else Some x).
Proof.
  intros Hwf Hcap Hsz.
  pose proof (lru_wf_inv l Hwf Hsz) as Hinv.
  pose proof (doSaveAndEvict_inv l key Hinv) as ((Hnd' & _) & Hcap' & Hdata').
  pose proof (doSaveAndEvict_spec l key Hwf) as (_ & Hne & _).
  destruct (doSaveAndEvict_front_and_back l key Hwf Hcap Hsz) as [Hhead Hcases].
  cbv zeta in *. destruct (Hne Hcap) as (Hne' & _ & _).
  split; [done |]. split; [done |]. split; [done |]. split; [done |].
  split; [done |].
  destruct Hcases as [(Hnone & Hwf' & Hd' & Hsz') |
    (x & rest & Hlist & Hout & Hfull & Hlist' & Hx & Hpop)].
  - split; [by rewrite Hnone |]. split; [by left |].
    intros Hout Hfull. exfalso.
    assert (Hsize : size ({[key]} ∪ lru_data l : gset K) = S (size (lru_data l))).
    { rewrite size_union by set_solver. by rewrite size_singleton. }
    rewrite Hd', Hsize in Hsz'. lia.
  - assert (Hlast : last (lru_list l) = Some x) by (by rewrite Hlist, last_snoc).
    assert (Hrm : removelast (lru_list l) = rest)
      by (by rewrite Hlist, removelast_last).
    destruct Hpop as [(Hxnil & Hsome & Hd' & Hwf' & Hsz') |
      (Hxnil & Hnone & Hd' & Hsz')].
    + split.
      { intros y Hy. rewrite Hsome in Hy. injection Hy as <-.
        do 4 (split; [done |]). split; [done | lia]. }
      split; [by rewrite Hsome |].
      intros _ _. exists x. by rewrite Hxnil, Hrm.
    + split; [by rewrite Hnone |]. split.
      { intros _. right. exists x. do 4 (split; [done |]).
        split; [| by rewrite Hlist'].
        rewrite Hd'. apply elem_of_union. right.
        destruct Hwf as [_ Hdata]. rewrite Hdata, Hlist.
        apply elem_of_list_to_set, elem_of_app. right.
        by apply list_elem_of_singleton. }
      intros _ _. exists x. by rewrite Hxnil, Hrm.
Qed.




(** ** The bucket of a timestamp *)

(** X16: the bucket key of a valid timestamp is the first multiple of
    1000 strictly above it; so the bucket keys follow the order of the
    timestamps, and a bucket key strictly below the bucket key of the
    clock belongs only to timestamps strictly below the clock. *)
Theorem makeExpireKey_first_multiple_above (e : Z) :
  valid_ms e →
  e < makeExpireKey e <= e + 1000 ∧
  makeExpireKey e `mod` 1000 = 0 ∧
  (∀ e', valid_ms e' → e <= e' → makeExpireKey e <= makeExpireKey e') ∧
  (∀ now, valid_ms now → makeExpireKey e < makeExpireKey now → e < now).
Proof.
  unfold valid_ms. intros He.
  assert (Hexact : ∀ x, 0 <= x < 2 ^ 53 - 1000 →
            makeExpireKey x = (x ÷ 1000 + 1) * 1000 ∧
            x - 1000 < x ÷ 1000 * 1000 <= x).
  { intros x Hx. split; [apply makeExpireKey_exact; lia |].
    apply (proj2 (quot_mul_bounds x 1000 ltac:(lia))). lia. }
  destruct (Hexact e He) as [-> Hb]. split; [lia |]. split.
  - by rewrite Z.mod_mul by lia.
  - split.
    + intros e' He' Hle. destruct (Hexact e' He') as [-> Hb']. nia.
    + intros now Hnow Hlt. destruct (Hexact now Hnow) as [Heq Hb'].
      rewrite Heq in Hlt. nia.
Qed.

(** ** The sweep phase *)

Lemma in_bucketb_spec (sets : gmap Z (gset K)) (b : Z) (k : K) :
  in_bucketb sets b k = true ↔ in_bucket sets b k.
Proof.
  unfold in_bucketb, in_bucket. destruct (sets !! b) as [s |].
  - rewrite bool_decide_eq_true. split; [intros ?; by exists s | by intros (? & [= <-] & ?)].
  - split; [done | by intros (? & ? & _)].
Qed.

Lemma swept_spec (sets : gmap Z (gset K)) (window : list Z) (k : K) :
  swept sets window k = true ↔ ∃ b, b ∈ window ∧ in_bucket sets b k.
Proof.
  unfold swept. rewrite existsb_exists. split.
  - intros (b & Hb%list_elem_of_In & Hin%in_bucketb_spec). eauto.
  - intros (b & Hb%list_elem_of_In & Hin%in_bucketb_spec). eauto.
Qed.

Lemma in_bucketb_delete (sets : gmap Z (gset K)) (b b' : Z) (k : K) :
  in_bucketb (delete b sets) b' k =
    if decide (b' = b) then false else in_bucketb sets b' k.
Proof.
  unfold in_bucketb. destruct (decide (b' = b)) as [-> | Hne].
  - by rewrite lookup_delete_eq.
  - by rewrite lookup_delete_ne.
Qed.

Lemma swept_delete (sets : gmap Z (gset K)) (b : Z) (window : list Z) (k : K) :
  in_bucketb sets b k = false →
  swept (delete b sets) window k = swept sets window k.
Proof.
  intros Hk. unfold swept. induction window as [| b' w IHw]; [done |].
  cbn [existsb]. rewrite IHw, in_bucketb_delete.
  destruct (decide (b' = b)) as [-> | _]; [| done]. by rewrite Hk.
Qed.

(** The inner loop of the sweep, over the keys of one bucket. *)
Lemma clearExpired_keys_fields c (keys : list K) :
  let c' := foldl (λ c key, let c' := deleteExpiredKey c key in
                            set_lru c' (memoryLru_Remove (lru c') [key]))
                  c keys in
  data c' = foldl (λ d key, delete key d) (data c) keys ∧
  expireTimes c' = foldl (λ d key, delete key d) (expireTimes c) keys ∧
  expireSets c' = expireSets c ∧ eventList c' = eventList c ∧
  closed c' = closed c.
Proof.
  revert c. induction keys as [| key keys IH]; intros c; [done |].
  cbn [foldl].
  destruct (IH (set_lru (deleteExpiredKey c key)
                  (memoryLru_Remove (lru (deleteExpiredKey c key)) [key])))
    as (Hd & Ht & Hs & He & Hc).
  cbv zeta in *. rewrite Hd, Ht, Hs, He, Hc. done.
Qed.

(** What the sweep of one bucket does. *)
Lemma clearExpiredSet_effect c (b : Z) :
  let c' := clearExpiredSet c b in
  (∀ k, data c' !! k = if in_bucketb (expireSets c) b k then None else data c !! k) ∧
  (∀ k, expireTimes c' !! k =
        if in_bucketb (expireSets c) b k then None else expireTimes c !! k) ∧
  expireSets c' = delete b (expireSets c) ∧
  eventList c' = eventList c ∧ closed c' = closed c.
Proof.
  unfold clearExpiredSet, memoryExpireSets_Get, in_bucketb.
  destruct (expireSets c !! b) as [s |] eqn:Hs.
  - destruct (clearExpired_keys_fields c (elements s)) as (Hd & Ht & Hsets & Hev & Hcl).
    cbn zeta in *. cbn [data expireTimes expireSets eventList closed set_indexes].
    rewrite Hd, Ht, Hsets, Hev, Hcl. unfold memoryExpireSets_Delete.
    split; [| split; [| done]].
    + intros k. rewrite lookup_foldl_delete.
      destruct (decide (k ∈ elements s)) as [Hin | Hout].
      * by rewrite bool_decide_eq_true_2 by (by apply elem_of_elements).
      * by rewrite bool_decide_eq_false_2 by (by rewrite <- elem_of_elements).
    + intros k. rewrite lookup_foldl_delete.
      destruct (decide (k ∈ elements s)) as [Hin | Hout].
      * by rewrite bool_decide_eq_true_2 by (by apply elem_of_elements).
      * by rewrite bool_decide_eq_false_2 by (by rewrite <- elem_of_elements).
  - split; [done |]. split; [done |]. split; [| done].
    symmetry. by apply delete_id.
Qed.

(** What the sweep of a list of buckets does. *)
Lemma clearExpiredSets_effect (window : list Z) c :
  let c' := foldl clearExpiredSet c window in
  (∀ k, data c' !! k = if swept (expireSets c) window k then None else data c !! k) ∧
  (∀ k, expireTimes c' !! k =
        if swept (expireSets c) window k then None else expireTimes c !! k) ∧
  expireSets c' = foldl (λ s b, delete b s) (expireSets c) window ∧
  eventList c' = eventList c ∧ closed c' = closed c.
Proof.
  revert c. induction window as [| b window IH]; intros c; [done |].
  cbn [foldl]. destruct (clearExpiredSet_effect c b) as (Hd1 & Ht1 & Hs1 & He1 & Hc1).
  destruct (IH (clearExpiredSet c b)) as (Hd & Ht & Hs & He & Hc). cbn zeta in *.
  rewrite Hs, He, Hc, Hs1, He1, Hc1.
  pose proof (swept_delete (expireSets c) b window) as Hswept.
  split; [| split; [| done]].
  - intros k. rewrite Hd, Hd1, Hs1. unfold swept at 2. cbn [existsb]. fold (swept (expireSets c) window k).
    destruct (in_bucketb (expireSets c) b k) eqn:Hb; cbn [orb].
    + by destruct (swept _ window k).
    + by rewrite Hswept.
  - intros k. rewrite Ht, Ht1, Hs1. unfold swept at 2. cbn [existsb]. fold (swept (expireSets c) window k).
    destruct (in_bucketb (expireSets c) b k) eqn:Hb; cbn [orb].
    + by destruct (swept _ window k).
    + by rewrite Hswept.
Qed.

Lemma clearExpired_window c now :
  clearExpired c now = foldl clearExpiredSet c (sweep_window now).
Proof. unfold clearExpired, sweep_window. by rewrite foldl_fmap. Qed.

(** X17: what a tick of the sweeper does to a cache that is not closed.
    It empties the event list; a key is deleted from the data map and
    from the index exactly when, once the pending events are drained, it
    is in one of the five buckets below the bucket of the clock; the
    other keys keep their item and get the index entry of the drain; and
    the five buckets are deleted. *)
Theorem tick_effect c now :
  closed c = false →
  let c' := syncEventAndClearExpired c now in
  eventList c' = [] ∧
  (∀ k, data c' !! k =
        if swept (drained c).2 (sweep_window now) k then None else data c !! k) ∧
  (∀ k, expireTimes c' !! k =
        if swept (drained c).2 (sweep_window now) k then None
        else (drained c).1 !! k) ∧
  expireSets c' = foldl (λ s b, delete b s) (drained c).2 (sweep_window now) ∧
  closed c' = false.
Proof.
  intros Hopen. unfold syncEventAndClearExpired, drained. rewrite Hopen.
  destruct (syncEvents (expireTimes c, expireSets c) (eventList c)) as [times sets].
  rewrite clearExpired_window.
  destruct (clearExpiredSets_effect (sweep_window now)
              (set_eventList (set_indexes c times sets) [])) as (Hd & Ht & Hs & He & Hc).
  cbn zeta in *. cbn [fst snd]. rewrite Hs, He, Hc. done.
Qed.


(** ** The invariant between the data map and the expiry indexes *)

Lemma valid_ms_bucket_nonzero (e : Z) : valid_ms e → makeExpireKey e ≠ 0.
Proof. intros He. pose proof (makeExpireKey_nonneg e He). lia. Qed.

Lemma wrap64_valid (z : Z) : valid_ms z → wrap64 z = z.
Proof.
  unfold valid_ms. intros Hz. apply wrap64_small. unfold int64_min, int64_max. lia.
Qed.

(** The index entry of a key after one event of the drain. *)
Lemma syncEvent_index (st : gmap K Z * gmap Z (gset K))
    (event : adapterMemoryEvent) (k : K) :
  makeExpireKey (ev_e event) ≠ 0 →
  (syncEvent st event).1 !! k =
    if decide (k = ev_k event) then Some (makeExpireKey (ev_e event))
    else st.1 !! k.
Proof.
  destruct st as [times sets]. intros Hnz. unfold syncEvent.
  case_bool_decide as Hne; cbn [fst].
  - unfold memoryExpireTimes_Set. destruct (decide (k = ev_k event)) as [-> | Hk].
    + by rewrite lookup_insert_eq.
    + by rewrite lookup_insert_ne.
  - destruct (decide (k = ev_k event)) as [-> | Hk]; [| done].
    unfold memoryExpireTimes_Get in Hne.
    destruct (times !! ev_k event) as [b |]; simpl in Hne; congruence.
Qed.

(** The index entry of a key after the events of a list of keys, all
    with the same timestamp. *)
Lemma syncEvents_index_batch (st : gmap K Z * gmap Z (gset K))
    (keys : list K) (e : Z) (k : K) :
  makeExpireKey e ≠ 0 →
  (syncEvents st ((λ key, mkEvent key e) <$> keys)).1 !! k =
    if decide (k ∈ keys) then Some (makeExpireKey e) else st.1 !! k.
Proof.
  intros Hnz. revert st. induction keys as [| key keys IH]; intros st.
  - destruct (decide (k ∈ [])) as [Hin | _]; [by apply elem_of_nil in Hin | done].
  - cbn [fmap list_fmap syncEvents foldl]. fold (syncEvents (syncEvent st (mkEvent key e))
      ((λ key, mkEvent key e) <$> keys)).
    rewrite IH, syncEvent_index by done. cbn [ev_k ev_e].
    destruct (decide (k ∈ keys)) as [Hin | Hout];
      destruct (decide (k ∈ key :: keys)) as [Hin' | Hout']; try done.
    + exfalso. apply Hout'. by right.
    + apply elem_of_cons in Hin' as [-> | Hin']; [by rewrite decide_True | done].
    + rewrite decide_False; [done |]. intros ->. apply Hout'. by left.
Qed.

(** Events for a list of keys, all with the valid timestamp [e], keep
    the invariant when the item of each of these keys is expired or has
    the expire timestamp [e], and the other keys keep the expire
    timestamps they have. *)
Lemma sweep_inv_on_batch (d d' : gmap K memoryDataItem) (times : gmap K Z)
    (sets : gmap Z (gset K)) (events : list adapterMemoryEvent) (t : Z)
    (keys : list K) (e : Z) :
  sweep_inv_on d times sets events t →
  valid_ms e →
  (∀ k item', d' !! k = Some item' →
     if decide (k ∈ keys) then item_e item' < t ∨ item_e item' = e
     else ∃ item, d !! k = Some item ∧ item_e item = item_e item') →
  sweep_inv_on d' times sets (events ++ ((λ key, mkEvent key e) <$> keys)) t.
Proof.
  intros (Hidx & Hnz & Hev & Hitems) He Hd'.
  split; [done |]. split; [done |]. split.
  - apply Forall_app. split; [done |]. apply Forall_fmap, Forall_forall.
    by intros key _.
  - intros k item' Hk. specialize (Hd' k item' Hk).
    unfold syncEvents. rewrite foldl_app.
    fold (syncEvents (times, sets) events).
    fold (syncEvents (syncEvents (times, sets) events) ((λ key, mkEvent key e) <$> keys)).
    rewrite syncEvents_index_batch by (by apply valid_ms_bucket_nonzero).
    destruct (decide (k ∈ keys)) as [Hin | Hout].
    + destruct Hd' as [Hlt | Heq]; [by left | right]. by rewrite Heq.
    + destruct Hd' as (item & Hd & Heq).
      destruct (Hitems k item Hd) as [Hlt | [Hv Hi]]; [left; lia | right].
      by rewrite <- Heq.
Qed.

(** A later clock reading, and a data map whose items have the expire
    timestamps of items of the map before, keep the invariant. *)
Lemma sweep_inv_on_data (d d' : gmap K memoryDataItem) (times : gmap K Z)
    (sets : gmap Z (gset K)) (events : list adapterMemoryEvent) (t t' : Z) :
  sweep_inv_on d times sets events t → t <= t' →
  (∀ k item', d' !! k = Some item' →
     ∃ item, d !! k = Some item ∧ item_e item = item_e item') →
  sweep_inv_on d' times sets events t'.
Proof.
  intros (Hidx & Hnz & Hev & Hitems) Ht Hd'.
  split; [done |]. split; [done |]. split; [done |].
  intros k item' Hk. destruct (Hd' k item' Hk) as (item & Hd & Heq).
  destruct (Hitems k item Hd) as [Hlt | [Hv Hi]]; [left; lia | right].
  by rewrite <- Heq.
Qed.

Lemma sweep_inv_mono c (t t' : Z) : sweep_inv c t → t <= t' → sweep_inv c t'.
Proof.
  intros Hinv Ht. apply (sweep_inv_on_data (data c) _ _ _ _ t t' Hinv Ht).
  intros k item' Hk. by exists item'.
Qed.

(** [doRemove] keeps the invariant: the keys it pushes events for are
    the ones it has deleted. *)
Lemma sweep_inv_doRemove c now (keys : list K) (t : Z) :
  sweep_inv c t → valid_ms (now - 1000) → sweep_inv (doRemove c now keys).1 t.
Proof.
  intros Hinv Hnow. unfold sweep_inv.
  destruct (doRemove_fields c now keys) as [Hdata _].
  destruct (doRemove_events c now keys) as (Hev & Htimes & Hsets & _).
  rewrite Hdata, Hev, Htimes, Hsets.
  destruct (memoryData_Remove_loop (data c) keys) as (Hd & Hmem & _).
  cbn zeta in Hd, Hmem. rewrite Hd.
  assert (Hw : wrap64 (now - 1000) = now - 1000).
  { by apply wrap64_valid. }
  rewrite Hw.
  apply (sweep_inv_on_batch (data c)); [done | done |].
  intros k item'. rewrite lookup_foldl_delete.
  destruct (decide (k ∈ keys)) as [Hin | Hout]; [done |]. intros Hk.
  rewrite decide_False by (intros [? _]%Hmem; done). by exists item'.
Qed.

Lemma sweep_inv_handleLruKey c now key (t : Z) :
  sweep_inv c t → valid_ms (now - 1000) → sweep_inv (handleLruKey c now [key]) t.
Proof.
  intros Hinv Hnow. destruct (lru c) as [l |] eqn:Hl.
  - rewrite (handleLruKey_single c now key l Hl).
    destruct (memoryLru_doSaveAndEvict l key) as [l' [x |]]; cbn [fst snd].
    + by apply sweep_inv_doRemove.
    + exact Hinv.
  - by rewrite handleLruKey_no_lru.
Qed.

(** A write of an item with a valid expire timestamp, with its event. *)
Lemma sweep_inv_write c key (value : any) (e t : Z) :
  sweep_inv c t → valid_ms e →
  sweep_inv (PushBack (set_data c (<[key := mkItem value e]> (data c)))
                      (mkEvent key e)) t.
Proof.
  intros Hinv He. unfold sweep_inv. cbn [PushBack set_eventList set_data data
    expireTimes expireSets eventList].
  apply (sweep_inv_on_batch (data c) _ _ _ _ _ [key] e Hinv He).
  intros k item' Hk. destruct (decide (k ∈ [key])) as [Hin | Hout].
  - apply list_elem_of_singleton in Hin as ->. rewrite lookup_insert_eq in Hk.
    injection Hk as <-. by right.
  - rewrite lookup_insert_ne in Hk by (intros <-; apply Hout; by left).
    by exists item'.
Qed.

(** An event with a valid timestamp for a key whose item, when there is
    one, is expired. *)
Lemma sweep_inv_event_expired c key (e t : Z) :
  sweep_inv c t → valid_ms e →
  (∀ item, data c !! key = Some item → item_e item < t) →
  sweep_inv (PushBack c (mkEvent key e)) t.
Proof.
  intros Hinv He Hexp. unfold sweep_inv. cbn [PushBack set_eventList data
    expireTimes expireSets eventList].
  apply (sweep_inv_on_batch (data c) _ _ _ _ _ [key] e Hinv He).
  intros k item' Hk. destruct (decide (k ∈ [key])) as [Hin | Hout].
  - apply list_elem_of_singleton in Hin as ->. left. by apply Hexp.
  - by exists item'.
Qed.

(** A key that is not live has no item or an expired one. *)
Lemma not_live_expired (d : gmap K memoryDataItem) now key item :
  ¬ is_live d now key → d !! key = Some item → item_e item < now.
Proof.
  intros Hmiss Hd. destruct (Z.ltb_spec (item_e item) now) as [Hlt | Hge]; [done |].
  exfalso. apply Hmiss. exists item. split; [done |]. unfold IsExpired.
  by apply Z.ltb_ge.
Qed.

Lemma live_dec (d : gmap K memoryDataItem) now key :
  (∃ item, d !! key = Some item ∧ IsExpired item now = false) ∨ ¬ is_live d now key.
Proof.
  destruct (d !! key) as [item |] eqn:Hd.
  - destruct (IsExpired item now) eqn:He.
    + right. intros (item' & Hd' & He'). congruence.
    + left. by exists item.
  - right. by apply absent_not_live.
Qed.

(** The data map after [SetWithLock]: as before, or with an item written
    at the key with the timestamp given. *)
Lemma SetWithLock_data_cases (ctx : Ctx) (d : gmap K memoryDataItem) now key
    (value : any) (ts : Z) :
  let r := memoryData_SetWithLock ctx d now key value ts in
  swl_data r = d ∨ ∃ v, swl_data r = <[key := mkItem v ts]> d.
Proof.
  unfold memoryData_SetWithLock.
  assert (Hprod : ∀ r, r =
    match value with
    | Fn f =>
        match f ctx with
        | (_, Some err) => mkSWL Nil (Some err) d 1
        | (Nil, None) => mkSWL Nil None d 1
        | (value', None) => mkSWL value' None (<[key := mkItem value' ts]> d) 1
        end
    | _ => mkSWL value None (<[key := mkItem value ts]> d) 0
    end → swl_data r = d ∨ ∃ v, swl_data r = <[key := mkItem v ts]> d).
  { intros r ->. destruct value as [| x | f]; cbn [swl_data]; eauto.
    destruct (f ctx) as [[| x | g] [err |]]; cbn [swl_data]; eauto. }
  cbv zeta. destruct (d !! key) as [item |]; [| by apply Hprod].
  destruct (negb (IsExpired item now)); [by left | by apply Hprod].
Qed.

(** [doSetWithLockCheck] on a key that is not live keeps the invariant,
    whether it writes or not: the event it always pushes is for an item
    it has written or for an expired one. *)
Lemma sweep_inv_doSetWithLockCheck c (ctx : Ctx) now key (value : any)
    (duration : Z) :
  sweep_inv c now → ¬ is_live (data c) now key →
  valid_ms (getInternalExpire now duration) →
  sweep_inv (doSetWithLockCheck c ctx now key value duration).1 now.
Proof.
  intros Hinv Hmiss He. unfold doSetWithLockCheck. cbn [fst].
  destruct (SetWithLock_data_cases ctx (data c) now key value
              (getInternalExpire now duration)) as [Heq | [v Heq]];
    cbv zeta in Heq; rewrite Heq.
  - apply (sweep_inv_event_expired (set_data c (data c)));
      [exact Hinv | done |]. intros item Hd.
    by apply (not_live_expired (data c) now key).
  - by apply sweep_inv_write.
Qed.


(** ** The operations keep the invariants *)

(** *** The operations that set a key when it is not live *)

Lemma SetIfNotExist_ways c (ctx : Ctx) now key (value : any) (duration : Z) :
  set_if_absent_cache c ctx now key duration
    (AdapterMemory_SetIfNotExist c ctx now key value duration).1.
Proof.
  unfold set_if_absent_cache, AdapterMemory_SetIfNotExist.
  destruct (live_dec (data c) now key) as [(item & Hd & He) | Hmiss].
  - left. split; [by exists item |]. by rewrite (Contains_hit c now key item Hd He).
  - right. split; [done |]. rewrite (Contains_miss c now key Hmiss). cbn [negb].
    right. exists value.
    by destruct (doSetWithLockCheck c ctx now key value duration) as [c2 [r [err |]]].
Qed.

Lemma SetIfNotExistFunc_ways c (ctx : Ctx) now key (f : Func) (duration : Z) :
  set_if_absent_cache c ctx now key duration
    (out_cache (AdapterMemory_SetIfNotExistFunc c ctx now key f duration)).
Proof.
  unfold set_if_absent_cache, AdapterMemory_SetIfNotExistFunc.
  destruct (live_dec (data c) now key) as [(item & Hd & He) | Hmiss].
  - left. split; [by exists item |]. by rewrite (Contains_hit c now key item Hd He).
  - right. split; [done |]. rewrite (Contains_miss c now key Hmiss). cbn [negb].
    destruct (f ctx) as [value [err |]]; [by left |].
    right. exists value.
    by destruct (doSetWithLockCheck c ctx now key value duration) as [c2 [r [err |]]].
Qed.

Lemma SetIfNotExistFuncLock_ways c (ctx : Ctx) now key (f : Func) (duration : Z) :
  set_if_absent_cache c ctx now key duration
    (out_cache (AdapterMemory_SetIfNotExistFuncLock c ctx now key f duration)).
Proof.
  unfold set_if_absent_cache, AdapterMemory_SetIfNotExistFuncLock.
  destruct (live_dec (data c) now key) as [(item & Hd & He) | Hmiss].
  - left. split; [by exists item |]. by rewrite (Contains_hit c now key item Hd He).
  - right. split; [done |]. rewrite (Contains_miss c now key Hmiss). cbn [negb].
    right. exists (Fn f).
    by destruct (doSetWithLockCheck c ctx now key (Fn f) duration) as [c2 [r [err |]]].
Qed.

Lemma GetOrSet_ways c (ctx : Ctx) now key (value : any) (duration : Z) :
  set_if_absent_cache c ctx now key duration
    (out_cache (AdapterMemory_GetOrSet c ctx now key value duration)).
Proof.
  unfold set_if_absent_cache, AdapterMemory_GetOrSet.
  destruct (live_dec (data c) now key) as [(item & Hd & He) | Hmiss].
  - left. split; [by exists item |]. by rewrite (Get_hit c now key item Hd He).
  - right. split; [done |]. rewrite (Get_miss c now key Hmiss).
    right. exists value.
    by destruct (doSetWithLockCheck c ctx now key value duration) as [c2 [r err]].
Qed.

Lemma GetOrSetFunc_ways c (ctx : Ctx) now key (f : Func) (duration : Z) :
  set_if_absent_cache c ctx now key duration
    (out_cache (AdapterMemory_GetOrSetFunc c ctx now key f duration)).
Proof.
  unfold set_if_absent_cache, AdapterMemory_GetOrSetFunc.
  destruct (live_dec (data c) now key) as [(item & Hd & He) | Hmiss].
  - left. split; [by exists item |]. by rewrite (Get_hit c now key item Hd He).
  - right. split; [done |]. rewrite (Get_miss c now key Hmiss).
    destruct (f ctx) as [[| x | g] [err |]]; try (by left).
    + right. exists (Val x).
      by destruct (doSetWithLockCheck c ctx now key (Val x) duration) as [c2 [r err]].
    + right. exists (Fn g).
      by destruct (doSetWithLockCheck c ctx now key (Fn g) duration) as [c2 [r err]].
Qed.

Lemma GetOrSetFuncLock_ways c (ctx : Ctx) now key (f : Func) (duration : Z) :
  set_if_absent_cache c ctx now key duration
    (out_cache (AdapterMemory_GetOrSetFuncLock c ctx now key f duration)).
Proof.
  unfold set_if_absent_cache, AdapterMemory_GetOrSetFuncLock.
  destruct (live_dec (data c) now key) as [(item & Hd & He) | Hmiss].
  - left. split; [by exists item |]. by rewrite (Get_hit c now key item Hd He).
  - right. split; [done |]. rewrite (Get_miss c now key Hmiss).
    right. exists (Fn f).
    by destruct (doSetWithLockCheck c ctx now key (Fn f) duration) as [c2 [r err]].
Qed.

Lemma doSetWithLockCheck_before_touch c (ctx : Ctx) now key (value : any)
    (duration : Z) :
  cache_lru_inv c ∅ →
  cache_lru_inv (doSetWithLockCheck c ctx now key value duration).1 {[key]}.
Proof.
  intros Hinv. unfold doSetWithLockCheck. cbn [fst].
  unfold cache_lru_inv in *.
  cbn [PushBack set_eventList set_data lru data].
  destruct (lru c) as [l |]; [| done]. destruct Hinv as (Hwf & Hdom).
  split; [done |].
  pose proof (SetWithLock_dom ctx (data c) now key value
                (getInternalExpire now duration)) as Hsub.
  set_solver.
Qed.

Lemma cache_lru_inv_set_if_absent c (ctx : Ctx) now key (duration : Z) c' :
  set_if_absent_cache c ctx now key duration c' →
  cache_lru_inv c ∅ → cache_lru_inv c' ∅.
Proof.
  intros [[_ ->] | [_ [-> | [value ->]]]] Hinv.
  - by do 2 apply cache_lru_inv_handleLruKey.
  - by apply cache_lru_inv_handleLruKey.
  - by apply cache_lru_inv_restores, doSetWithLockCheck_before_touch.
Qed.

Lemma sweep_inv_set_if_absent c (ctx : Ctx) now key (duration : Z) c' :
  set_if_absent_cache c ctx now key duration c' →
  valid_ms (now - 1000) → valid_ms (getInternalExpire now duration) →
  sweep_inv c now → sweep_inv c' now.
Proof.
  intros [[_ ->] | [Hmiss [-> | [value ->]]]] Hnow He Hinv.
  - apply sweep_inv_handleLruKey; [| done]. by apply sweep_inv_handleLruKey.
  - by apply sweep_inv_handleLruKey.
  - apply sweep_inv_handleLruKey; [| done]. by apply sweep_inv_doSetWithLockCheck.
Qed.

(** *** The capacity of the tracker *)

Lemma doSaveAndEvict_cap (l : memoryLru) (key : K) :
  lru_cap (memoryLru_doSaveAndEvict l key).1 = lru_cap l.
Proof.
  unfold memoryLru_doSaveAndEvict.
  destruct (bool_decide (key ∈ lru_data l) && is_front key (lru_list l)); [done |].
  cbv zeta. destruct (_ <=? _); [done |].
  destruct (list_PopBack _) as [list3 [x |]]; [| done].
  by destruct (key_is_nil x).
Qed.

Lemma lru_cap_of_doRemove c now (keys : list K) :
  lru_cap_of (doRemove c now keys).1 = lru_cap_of c.
Proof.
  unfold lru_cap_of. by destruct (doRemove_fields c now keys) as [_ ->].
Qed.

Lemma lru_cap_of_handleLruKey c now key :
  lru_cap_of (handleLruKey c now [key]) = lru_cap_of c.
Proof.
  destruct (lru c) as [l |] eqn:Hl.
  - rewrite (handleLruKey_single c now key l Hl).
    pose proof (doSaveAndEvict_cap l key) as Hcap.
    destruct (memoryLru_doSaveAndEvict l key) as [l' [x |]]; cbn [fst snd] in *.
    + rewrite lru_cap_of_doRemove. unfold lru_cap_of. cbn [set_lru lru].
      rewrite Hl. simpl. by rewrite Hcap.
    + unfold lru_cap_of. cbn [set_lru lru]. rewrite Hl. simpl. by rewrite Hcap.
  - by rewrite handleLruKey_no_lru.
Qed.

Lemma lru_cap_of_set_if_absent c (ctx : Ctx) now key (duration : Z) c' :
  set_if_absent_cache c ctx now key duration c' → lru_cap_of c' = lru_cap_of c.
Proof.
  intros [[_ ->] | [_ [-> | [value ->]]]].
  - by rewrite !lru_cap_of_handleLruKey.
  - by rewrite lru_cap_of_handleLruKey.
  - by rewrite lru_cap_of_handleLruKey.
Qed.


(** *** SetMap *)

Lemma memoryData_SetMap_lookup (d : gmap K memoryDataItem) (kvs : list (K * any))
    (e : Z) (k : K) (item' : memoryDataItem) :
  memoryData_SetMap d kvs e !! k = Some item' →
  if decide (k ∈ kvs.*1) then item_e item' = e else d !! k = Some item'.
Proof.
  unfold memoryData_SetMap. induction kvs as [| kv kvs IH] using rev_ind.
  - intros Hk. destruct (decide (k ∈ [].*1)) as [Hin | _]; [| done].
    by apply elem_of_nil in Hin.
  - rewrite foldl_app, fmap_app. cbn [foldl fmap list_fmap]. intros Hk.
    destruct (decide (k = kv.1)) as [-> | Hne].
    + rewrite lookup_insert_eq in Hk. injection Hk as <-.
      rewrite decide_True; [done |]. apply elem_of_app. right. by left.
    + rewrite lookup_insert_ne in Hk by done. specialize (IH Hk).
      destruct (decide (k ∈ kvs.*1)) as [Hin | Hout].
      * rewrite decide_True; [done |]. apply elem_of_app. by left.
      * rewrite decide_False; [done |].
        intros [Hin | Hin%list_elem_of_singleton]%elem_of_app; done.
Qed.

Lemma memoryData_SetMap_dom (d : gmap K memoryDataItem) (kvs : list (K * any))
    (e : Z) :
  dom (memoryData_SetMap d kvs e) = list_to_set kvs.*1 ∪ dom d.
Proof.
  unfold memoryData_SetMap. induction kvs as [| kv kvs IH] using rev_ind.
  - set_solver.
  - rewrite foldl_app, fmap_app, list_to_set_app_L. cbn [foldl fmap list_fmap].
    rewrite dom_insert_L, IH. set_solver.
Qed.

(** The fields of the cache after the writes and the events of
    [SetMap]. *)
Lemma SetMap_written c (kvs : list (K * any)) (e : Z) :
  let c2 := foldl (λ c kv, PushBack c (mkEvent kv.1 e))
                  (set_data c (memoryData_SetMap (data c) kvs e)) kvs in
  data c2 = memoryData_SetMap (data c) kvs e ∧ lru c2 = lru c ∧
  closed c2 = closed c ∧ expireTimes c2 = expireTimes c ∧
  expireSets c2 = expireSets c ∧
  eventList c2 = eventList c ++ ((λ key, mkEvent key e) <$> kvs.*1).
Proof.
  cbv zeta.
  assert (Hfold : ∀ c0 : AdapterMemory,
    foldl (λ c kv, PushBack c (mkEvent kv.1 e)) c0 kvs =
    foldl (λ c key, PushBack c (mkEvent key e)) c0 kvs.*1).
  { intros c0. by rewrite foldl_fmap. }
  rewrite Hfold.
  destruct (foldl_PushBack_fields (λ key, mkEvent key e) kvs.*1
              (set_data c (memoryData_SetMap (data c) kvs e)))
    as (Hd & Hl & Hc & Ht & Hs & Hev).
  cbv zeta in *. by rewrite Hd, Hl, Hc, Ht, Hs, Hev.
Qed.

Lemma sweep_inv_touches c now (kvs : list (K * any)) (t : Z) :
  sweep_inv c t → valid_ms (now - 1000) →
  sweep_inv (foldl (λ c kv, handleLruKey c now [kv.1]) c kvs) t.
Proof.
  intros Hinv Hnow. revert c Hinv.
  induction kvs as [| kv kvs IH]; intros c Hinv; [done |].
  cbn [foldl]. apply IH. by apply sweep_inv_handleLruKey.
Qed.

Lemma sweep_inv_SetMap c now (values : gmap K any) (duration : Z) (t : Z) :
  sweep_inv c t → valid_ms (now - 1000) →
  valid_ms (getInternalExpire now duration) →
  sweep_inv (AdapterMemory_SetMap c now values duration) t.
Proof.
  intros Hinv Hnow He. unfold AdapterMemory_SetMap. cbv zeta.
  apply sweep_inv_touches; [| done].
  destruct (SetMap_written c (map_to_list values) (getInternalExpire now duration))
    as (Hd & _ & _ & Ht & Hs & Hev).
  cbv zeta in *. unfold sweep_inv. rewrite Hd, Ht, Hs, Hev.
  apply (sweep_inv_on_batch (data c)); [done | done |].
  intros k item' Hk. apply memoryData_SetMap_lookup in Hk.
  destruct (decide (k ∈ (map_to_list values).*1)) as [Hin | Hout].
  - by right.
  - by exists item'.
Qed.

Lemma cache_lru_inv_touches c now (kvs : list (K * any)) (pending : gset K) :
  cache_lru_inv c pending → pending ⊆ list_to_set kvs.*1 →
  cache_lru_inv (foldl (λ c kv, handleLruKey c now [kv.1]) c kvs) ∅.
Proof.
  revert c pending. induction kvs as [| kv kvs IH]; intros c pending Hpre Hsub.
  - cbn [foldl]. apply (cache_lru_inv_weaken c pending); [done | set_solver].
  - cbn [foldl]. apply (IH _ (pending ∖ {[kv.1]})).
    + by apply cache_lru_inv_touch.
    + set_solver.
Qed.

Lemma cache_lru_inv_SetMap c now (values : gmap K any) (duration : Z) :
  cache_lru_inv c ∅ → cache_lru_inv (AdapterMemory_SetMap c now values duration) ∅.
Proof.
  intros Hinv. unfold AdapterMemory_SetMap. cbv zeta.
  apply (cache_lru_inv_touches _ _ _ (list_to_set (map_to_list values).*1));
    [| done].
  destruct (SetMap_written c (map_to_list values) (getInternalExpire now duration))
    as (Hd & Hl & _).
  cbv zeta in *. unfold cache_lru_inv in *. rewrite Hl, Hd.
  destruct (lru c) as [l |]; [| done]. destruct Hinv as (Hwf & Hdom).
  split; [done |]. rewrite memoryData_SetMap_dom. set_solver.
Qed.

Lemma lru_cap_of_touches c now (kvs : list (K * any)) :
  lru_cap_of (foldl (λ c kv, handleLruKey c now [kv.1]) c kvs) = lru_cap_of c.
Proof.
  revert c. induction kvs as [| kv kvs IH]; intros c; [done |].
  cbn [foldl]. by rewrite IH, lru_cap_of_handleLruKey.
Qed.

Lemma lru_cap_of_SetMap c now (values : gmap K any) (duration : Z) :
  lru_cap_of (AdapterMemory_SetMap c now values duration) = lru_cap_of c.
Proof.
  unfold AdapterMemory_SetMap. cbv zeta. rewrite lru_cap_of_touches.
  destruct (SetMap_written c (map_to_list values) (getInternalExpire now duration))
    as (_ & Hl & _).
  cbv zeta in *. unfold lru_cap_of. by rewrite Hl.
Qed.


(** *** The tick of the sweeper *)

Lemma lookup_foldl_delete_bucket (sets : gmap Z (gset K)) (window : list Z) (b : Z) :
  foldl (λ s b, delete b s) sets window !! b =
    if decide (b ∈ window) then None else sets !! b.
Proof.
  revert sets. induction window as [| x window IH]; intros sets.
  - destruct (decide (b ∈ [])) as [Hin | _]; [by apply elem_of_nil in Hin | done].
  - cbn [foldl]. rewrite IH.
    destruct (decide (b ∈ window)) as [Hin | Hout];
      destruct (decide (b ∈ x :: window)) as [Hin' | Hout']; try done.
    + exfalso. apply Hout'. by right.
    + apply elem_of_cons in Hin' as [-> | Hin']; [apply lookup_delete_eq | done].
    + apply lookup_delete_ne. intros ->. apply Hout'. by left.
Qed.

(** Deleting the buckets of a window, with the index entries of their
    keys, keeps the invariants of the indexes. *)
Lemma index_inv_swept (times times' : gmap K Z) (sets : gmap Z (gset K))
    (window : list Z) :
  index_inv (times, sets) →
  (∀ k, times' !! k = if swept sets window k then None else times !! k) →
  index_inv (times', foldl (λ s b, delete b s) sets window).
Proof.
  intros (Hib & Hbi & _) Ht'. cbn [fst snd] in Hib, Hbi.
  assert (Hbi' : bucket_in_index times' (foldl (λ s b, delete b s) sets window)).
  { intros b s k Hs Hin. rewrite lookup_foldl_delete_bucket in Hs.
    destruct (decide (b ∈ window)) as [| Hout]; [done |].
    pose proof (Hbi b s k Hs Hin) as Hk. rewrite Ht'.
    destruct (swept sets window k) eqn:Hsw; [| done].
    apply swept_spec in Hsw as (b' & Hb' & (s' & Hs' & Hin')).
    pose proof (Hbi b' s' k Hs' Hin') as Hk'.
    assert (b' = b) by congruence. by subst b'. }
  split; [| split; [done | by apply (bucket_in_index_one_bucket times')]].
  intros k b Hk. cbn [fst snd] in *. rewrite Ht' in Hk.
  destruct (swept sets window k) eqn:Hsw; [done |].
  destruct (Hib k b Hk) as (s & Hs & Hin). exists s. split; [| done].
  rewrite lookup_foldl_delete_bucket. rewrite decide_False; [done |].
  intros Hb. assert (Hc : swept sets window k = true); [| congruence].
  apply swept_spec. exists b. split; [done |]. by exists s.
Qed.

(** The tick keeps the invariant: the items it leaves are indexed as
    before, and the buckets it deletes go with their keys. *)
Lemma sweep_inv_tick c now (t : Z) :
  sweep_inv c t → sweep_inv (syncEventAndClearExpired c now) t.
Proof.
  intros Hinv. unfold syncEventAndClearExpired.
  destruct (closed c); [done |].
  destruct Hinv as (Hidx & Hnz & Hev & Hitems).
  destruct (syncEvents_preserves_index_inv_nonneg _ _ Hidx Hnz Hev) as [Hidx' Hnz'].
  destruct (syncEvents (expireTimes c, expireSets c) (eventList c))
    as [times sets] eqn:Hdr.
  rewrite clearExpired_window.
  destruct (clearExpiredSets_effect (sweep_window now)
              (set_eventList (set_indexes c times sets) [])) as (Hd & Ht & Hs & He & _).
  cbv zeta in *. cbn [set_eventList set_indexes data expireTimes expireSets eventList]
    in Hd, Ht, Hs, He.
  unfold sweep_inv, sweep_inv_on. rewrite Hs, He.
  split; [by apply (index_inv_swept times) |]. split.
  - intros k. cbn [fst]. rewrite Ht. destruct (swept _ _ k); [done |]. apply Hnz'.
  - split; [done |]. intros k item Hk. cbn [syncEvents foldl fst].
    rewrite Hd in Hk. rewrite Ht.
    destruct (swept sets (sweep_window now) k); [done |].
    destruct (Hitems k item Hk) as [Hlt | [Hv Hi]]; [by left | right].
    split; [done |]. exact Hi.
Qed.

(** *** Each operation *)

Lemma sweep_inv_Update c now key (value : any) (t : Z) :
  sweep_inv c t → valid_ms (now - 1000) →
  sweep_inv (AdapterMemory_Update c now key value).1 t.
Proof.
  intros Hinv Hnow. unfold AdapterMemory_Update, memoryData_Update.
  destruct (data c !! key) as [item |] eqn:Hd; cbn [fst]; [| exact Hinv].
  apply sweep_inv_handleLruKey; [| done].
  apply (sweep_inv_on_data (data c) _ _ _ _ t t Hinv); [lia |].
  intros k item'. cbn [set_data data]. destruct (decide (k = key)) as [-> | Hne].
  - rewrite lookup_insert_eq. intros [= <-]. by exists item.
  - rewrite lookup_insert_ne by done. intros Hk. by exists item'.
Qed.

Lemma sweep_inv_UpdateExpire c now key (duration : Z) (t : Z) :
  sweep_inv c t → valid_ms (now - 1000) →
  valid_ms (getInternalExpire now duration) →
  sweep_inv (AdapterMemory_UpdateExpire c now key duration).1 t.
Proof.
  intros Hinv Hnow He. unfold AdapterMemory_UpdateExpire, memoryData_UpdateExpire.
  destruct (data c !! key) as [item |] eqn:Hd; cbv zeta; [| exact Hinv].
  destruct (Z.eqb_spec (wrap64 (wrap64 (item_e item - now) * Millisecond)) (-1))
    as [Heq | _]; [by apply wrap64_mul_even_ne in Heq |].
  cbn [fst]. apply sweep_inv_handleLruKey; [| done]. by apply sweep_inv_write.
Qed.

Lemma sweep_inv_Get c now key (t : Z) :
  sweep_inv c t → valid_ms (now - 1000) → sweep_inv (AdapterMemory_Get c now key).1 t.
Proof.
  intros Hinv Hnow. unfold AdapterMemory_Get.
  destruct (memoryData_Get (data c) key) as [item |]; [| done].
  destruct (negb (IsExpired item now)); [| done]. by apply sweep_inv_handleLruKey.
Qed.

(** Every operation keeps the invariant between the data map and the
    expiry indexes, from a clock reading to a later one. *)
Lemma apply_op_sweep_inv (ctx : Ctx) c (t now : Z) (op : Op) :
  sweep_inv c t → t <= now → valid_step now op →
  sweep_inv (apply_op ctx c now op) now.
Proof.
  intros Hinv0 Ht [Hnow Hd].
  pose proof (sweep_inv_mono c t now Hinv0 Ht) as Hinv.
  destruct op; cbn [op_duration] in Hd; cbn [apply_op].
  - unfold AdapterMemory_Set. cbv zeta.
    apply sweep_inv_handleLruKey; [| done]. by apply sweep_inv_write.
  - by apply sweep_inv_SetMap.
  - by apply (sweep_inv_set_if_absent c ctx now key duration _
                (SetIfNotExist_ways c ctx now key value duration)).
  - by apply (sweep_inv_set_if_absent c ctx now key duration _
                (SetIfNotExistFunc_ways c ctx now key f duration)).
  - by apply (sweep_inv_set_if_absent c ctx now key duration _
                (SetIfNotExistFuncLock_ways c ctx now key f duration)).
  - by apply sweep_inv_Get.
  - by apply (sweep_inv_set_if_absent c ctx now key duration _
                (GetOrSet_ways c ctx now key value duration)).
  - by apply (sweep_inv_set_if_absent c ctx now key duration _
                (GetOrSetFunc_ways c ctx now key f duration)).
  - by apply (sweep_inv_set_if_absent c ctx now key duration _
                (GetOrSetFuncLock_ways c ctx now key f duration)).
  - unfold AdapterMemory_Contains.
    pose proof (sweep_inv_Get c now key now Hinv Hnow) as HGet.
    by destruct (AdapterMemory_Get c now key).
  - unfold AdapterMemory_GetExpire.
    destruct (memoryData_Get (data c) key) as [item |]; [| done].
    by apply sweep_inv_handleLruKey.
  - unfold AdapterMemory_Remove.
    pose proof (sweep_inv_doRemove c now keys now Hinv Hnow) as HRemove.
    by destruct (doRemove c now keys).
  - by apply sweep_inv_Update.
  - by apply sweep_inv_UpdateExpire.
  - apply (sweep_inv_on_data (data c) _ _ _ _ now now Hinv); [lia |].
    intros k item'. cbn [AdapterMemory_Clear set_lru set_data data].
    unfold memoryData_Clear. by rewrite lookup_empty.
  - exact Hinv.
  - by apply sweep_inv_tick.
Qed.

(** Every operation keeps the invariant of the cache and its tracker. *)
Lemma apply_op_lru_inv (ctx : Ctx) c (now : Z) (op : Op) :
  cache_lru_inv c ∅ → cache_lru_inv (apply_op ctx c now op) ∅.
Proof.
  intros Hinv. destruct op; cbn [apply_op].
  - by apply cache_lru_inv_Set.
  - by apply cache_lru_inv_SetMap.
  - by apply (cache_lru_inv_set_if_absent c ctx now key duration _
                (SetIfNotExist_ways c ctx now key value duration)).
  - by apply (cache_lru_inv_set_if_absent c ctx now key duration _
                (SetIfNotExistFunc_ways c ctx now key f duration)).
  - by apply (cache_lru_inv_set_if_absent c ctx now key duration _
                (SetIfNotExistFuncLock_ways c ctx now key f duration)).
  - by apply cache_lru_inv_Get.
  - by apply (cache_lru_inv_set_if_absent c ctx now key duration _
                (GetOrSet_ways c ctx now key value duration)).
  - by apply (cache_lru_inv_set_if_absent c ctx now key duration _
                (GetOrSetFunc_ways c ctx now key f duration)).
  - by apply (cache_lru_inv_set_if_absent c ctx now key duration _
                (GetOrSetFuncLock_ways c ctx now key f duration)).
  - by apply cache_lru_inv_Contains.
  - by apply cache_lru_inv_GetExpire.
  - by apply cache_lru_inv_Remove.
  - by apply cache_lru_inv_Update.
  - by apply cache_lru_inv_UpdateExpire.
  - by apply cache_lru_inv_Clear.
  - by apply cache_lru_inv_Close.
  - by apply cache_lru_inv_syncEventAndClearExpired.
Qed.

Lemma lru_cap_of_Get c now key :
  lru_cap_of (AdapterMemory_Get c now key).1 = lru_cap_of c.
Proof.
  unfold AdapterMemory_Get.
  destruct (memoryData_Get (data c) key) as [item |]; [| done].
  destruct (negb (IsExpired item now)); [| done]. apply lru_cap_of_handleLruKey.
Qed.

Lemma lru_cap_of_Remove_steps (l : memoryLru) (keys : list K) :
  lru_cap (foldl memoryLru_Remove_step l keys) = lru_cap l.
Proof.
  revert l. induction keys as [| key keys IH]; intros l; [done |].
  cbn [foldl]. rewrite IH. unfold memoryLru_Remove_step. by destruct (decide _).
Qed.

Lemma lru_cap_of_memoryLru_Remove c (keys : list K) :
  lru_cap_of (set_lru c (memoryLru_Remove (lru c) keys)) = lru_cap_of c.
Proof.
  unfold lru_cap_of. cbn [set_lru lru]. destruct (lru c) as [l |]; [| done].
  simpl. by rewrite lru_cap_of_Remove_steps.
Qed.

Lemma lru_cap_of_clearExpiredSet c (b : Z) :
  lru_cap_of (clearExpiredSet c b) = lru_cap_of c.
Proof.
  unfold clearExpiredSet.
  destruct (memoryExpireSets_Get (expireSets c) b) as [s |]; [| done].
  cbv zeta. unfold lru_cap_of at 1. cbn [set_indexes lru].
  fold (lru_cap_of (foldl (λ c key, set_lru (deleteExpiredKey c key)
          (memoryLru_Remove (lru (deleteExpiredKey c key)) [key])) c (elements s))).
  generalize (elements s). intros keys. revert c.
  induction keys as [| key keys IH]; intros c; [done |].
  cbn [foldl]. rewrite IH.
  apply (lru_cap_of_memoryLru_Remove (deleteExpiredKey c key) [key]).
Qed.

Lemma lru_cap_of_tick c now :
  lru_cap_of (syncEventAndClearExpired c now) = lru_cap_of c.
Proof.
  unfold syncEventAndClearExpired. destruct (closed c); [done |].
  destruct (syncEvents _ _) as [times sets]. rewrite clearExpired_window.
  generalize (sweep_window now). intros window.
  assert (Hfold : ∀ c0, lru_cap_of (foldl clearExpiredSet c0 window) = lru_cap_of c0).
  { induction window as [| b window IH]; intros c0; [done |].
    cbn [foldl]. by rewrite IH, lru_cap_of_clearExpiredSet. }
  by rewrite Hfold.
Qed.

(** No operation changes the capacity of the tracker, or makes or drops
    a tracker. *)
Lemma apply_op_lru_cap (ctx : Ctx) c (now : Z) (op : Op) :
  lru_cap_of (apply_op ctx c now op) = lru_cap_of c.
Proof.
  destruct op; cbn [apply_op].
  - unfold AdapterMemory_Set. cbv zeta. by rewrite lru_cap_of_handleLruKey.
  - apply lru_cap_of_SetMap.
  - apply (lru_cap_of_set_if_absent c ctx now key duration _
             (SetIfNotExist_ways c ctx now key value duration)).
  - apply (lru_cap_of_set_if_absent c ctx now key duration _
             (SetIfNotExistFunc_ways c ctx now key f duration)).
  - apply (lru_cap_of_set_if_absent c ctx now key duration _
             (SetIfNotExistFuncLock_ways c ctx now key f duration)).
  - apply lru_cap_of_Get.
  - apply (lru_cap_of_set_if_absent c ctx now key duration _
             (GetOrSet_ways c ctx now key value duration)).
  - apply (lru_cap_of_set_if_absent c ctx now key duration _
             (GetOrSetFunc_ways c ctx now key f duration)).
  - apply (lru_cap_of_set_if_absent c ctx now key duration _
             (GetOrSetFuncLock_ways c ctx now key f duration)).
  - unfold AdapterMemory_Contains. pose proof (lru_cap_of_Get c now key) as HGet.
    by destruct (AdapterMemory_Get c now key).
  - unfold AdapterMemory_GetExpire.
    destruct (memoryData_Get (data c) key) as [item |]; [| done].
    apply lru_cap_of_handleLruKey.
  - unfold AdapterMemory_Remove. pose proof (lru_cap_of_doRemove c now keys) as HRemove.
    destruct (doRemove c now keys) as [c' v]. cbn [fst] in *.
    by rewrite lru_cap_of_memoryLru_Remove.
  - unfold AdapterMemory_Update.
    destruct (memoryData_Update (data c) key value) as [d [v [|]]]; cbn [fst].
    + by rewrite lru_cap_of_handleLruKey.
    + done.
  - unfold AdapterMemory_UpdateExpire. cbv zeta.
    destruct (memoryData_UpdateExpire _ _ _ _) as [d oldDuration].
    destruct (oldDuration =? -1); cbn [fst]; [done |].
    by rewrite lru_cap_of_handleLruKey.
  - unfold AdapterMemory_Clear, lru_cap_of. cbn [set_lru lru].
    by destruct (lru c).
  - done.
  - apply lru_cap_of_tick.
Qed.

(** *** Runs *)

Lemma run_ops_snoc (ctx : Ctx) c (trace : list (Z * Op)) (step : Z * Op) :
  run_ops ctx c (trace ++ [step]) = apply_op ctx (run_ops ctx c trace) step.1 step.2.
Proof. unfold run_ops. by rewrite foldl_app. Qed.

Lemma run_ops_lru_inv (ctx : Ctx) c (trace : list (Z * Op)) :
  cache_lru_inv c ∅ →
  cache_lru_inv (run_ops ctx c trace) ∅ ∧
  lru_cap_of (run_ops ctx c trace) = lru_cap_of c.
Proof.
  intros Hinv. induction trace as [| step trace IH] using rev_ind; [done |].
  rewrite run_ops_snoc. destruct IH as [IH1 IH2]. split.
  - by apply apply_op_lru_inv.
  - by rewrite apply_op_lru_cap.
Qed.

Lemma run_ops_sweep_inv (ctx : Ctx) c (t : Z) (trace : list (Z * Op)) :
  sweep_inv c t → clock_monotone t trace →
  Forall (λ step, valid_step step.1 step.2) trace →
  sweep_inv (run_ops ctx c trace) (last_clock t trace) ∧ t <= last_clock t trace.
Proof.
  revert c t. induction trace as [| [now op] trace IH]; intros c t Hinv Hmono Hvalid.
  - split; [done | cbn; lia].
  - destruct Hmono as [Ht Hmono]. apply Forall_cons in Hvalid as [Hstep Hvalid].
    cbn [run_ops foldl last_clock fst snd].
    destruct (IH (apply_op ctx c now op) now) as [IH1 IH2]; [| done | done |].
    + by apply (apply_op_sweep_inv ctx c t now op).
    + split; [exact IH1 |]. unfold last_clock in IH2. lia.
Qed.

Lemma sweep_inv_New (t : Z) :
  sweep_inv (NewAdapterMemory : AdapterMemory) t ∧
  ∀ cap, sweep_inv (NewAdapterMemoryLru cap : AdapterMemory) t.
Proof.
  assert (Hempty : sweep_inv_on (∅ : gmap K memoryDataItem) ∅ ∅ [] t).
  { split; [| split; [| split]].
    - split; [| split].
      + intros k b Hk. cbn [fst snd] in Hk. by rewrite lookup_empty in Hk.
      + intros b s k Hs. cbn [fst snd] in Hs. by rewrite lookup_empty in Hs.
      + intros k b1 b2 s1 s2 Hs. cbn [fst snd] in Hs. by rewrite lookup_empty in Hs.
    - intros k. cbn [fst]. by rewrite lookup_empty.
    - done.
    - intros k item Hk. by rewrite lookup_empty in Hk. }
  split; [exact Hempty | intros cap; exact Hempty].
Qed.


(** ** Runs from a new cache *)

(** X18: a cache made with a capacity of at least 0, after any run of
    operations and ticks, at any clock readings.  The capacity of the
    tracker is the one given; its list has no key twice and at most as
    many keys as the capacity; every key of the data map is in the map
    of the tracker, and a key of that map that is not in the list is
    the nil key.  So the data map has at most one item more than the
    capacity, expired ones included, and [Size] answers at most the
    capacity plus one; with no nil key in the data map they are within
    the capacity; and with no nil key in the tracker the tracker is well
    formed and the cache satisfies [cache_inv]. *)
Theorem run_ops_within_capacity (ctx : Ctx) (cap : Z) (trace : list (Z * Op)) :
  0 <= cap →
  let c : AdapterMemory := run_ops ctx (NewAdapterMemoryLru cap) trace in
  (∃ l, lru c = Some l ∧ lru_cap l = cap ∧
        NoDup (lru_list l) ∧ Z.of_nat (length (lru_list l)) <= cap ∧
        (∀ k, k ∈ lru_list l → k ∈ lru_data l) ∧
        (∀ k, k ∈ lru_data l → k ∉ lru_list l → key_is_nil k = true) ∧
        dom (data c) ⊆ lru_data l ∧
        (lru_no_nil l → cache_inv c)) ∧
  Z.of_nat (size (data c)) <= cap + 1 ∧
  (∀ now, AdapterMemory_Size c now <= cap + 1) ∧
  ((∀ k, is_Some (data c !! k) → key_is_nil k = false) →
   Z.of_nat (size (data c)) <= cap ∧ ∀ now, AdapterMemory_Size c now <= cap).
Proof.
  intros Hcap c.
  destruct (run_ops_lru_inv ctx (NewAdapterMemoryLru cap) trace
              (proj2 cache_lru_inv_New cap Hcap)) as [Hinv Hlru].
  fold c in Hinv, Hlru. pose proof Hinv as Hinv0.
  unfold cache_lru_inv in Hinv. unfold lru_cap_of in Hlru.
  destruct (lru c) as [l |] eqn:Hl; [| done].
  cbn in Hlru. injection Hlru as Hlcap. destruct Hinv as (Hlinv & Hdom).
  assert (Hdom' : dom (data c) ⊆ lru_data l) by set_solver.
  destruct (lru_inv_size l (dom (data c)) Hlinv Hdom') as [Hsz1 Hsz2].
  rewrite size_dom, Hlcap in Hsz1, Hsz2.
  assert (HSize : ∀ now, AdapterMemory_Size c now <= Z.of_nat (size (data c))).
  { intros now. unfold AdapterMemory_Size, memoryData_Size, memoryData_live.
    pose proof (map_size_filter (λ kv : K * memoryDataItem, now < item_e kv.2)
                  (data c)).
    lia. }
  split; [| split; [done | split]].
  - exists l. destruct Hlinv as (Hnd & Hlen & Hsub & Hdet).
    split; [done |]. split; [done |]. split; [done |]. split; [lia |].
    split; [done |]. split; [done |]. split; [done |].
    intros Hnonil. apply cache_lru_inv_inv; [done |].
    intros l' Hl'. rewrite Hl in Hl'. by injection Hl' as <-.
  - intros now. specialize (HSize now). lia.
  - intros Hnonil.
    assert (Z.of_nat (size (data c)) <= cap) as Hsz.
    { apply Hsz2. intros k Hk. apply Hnonil. by apply elem_of_dom. }
    split; [done |]. intros now. specialize (HSize now). lia.
Qed.

(** X19: along a run from a new cache whose clock readings do not go
    back and whose timestamps are valid, the expiry indexes follow the
    data map.  The indexes satisfy their invariants, before and after
    the drain of the pending events, with bucket 0 out of use; and every
    item that is not expired at the last clock reading has a valid
    expire timestamp and, once the pending events are drained, is in the
    index under the bucket of that timestamp, and in that bucket. *)
Theorem run_ops_indexes_follow_data (ctx : Ctx) (c0 : AdapterMemory) (t0 : Z)
    (trace : list (Z * Op)) :
  (c0 = NewAdapterMemory ∨ ∃ cap, c0 = NewAdapterMemoryLru cap) →
  clock_monotone t0 trace →
  Forall (λ step, valid_step step.1 step.2) trace →
  let c := run_ops ctx c0 trace in
  index_inv (expireTimes c, expireSets c) ∧
  no_zero_bucket (expireTimes c, expireSets c) ∧
  index_inv (drained c) ∧ no_zero_bucket (drained c) ∧
  ∀ k item, data c !! k = Some item → last_clock t0 trace <= item_e item →
    valid_ms (item_e item) ∧
    (drained c).1 !! k = Some (makeExpireKey (item_e item)) ∧
    in_bucket (drained c).2 (makeExpireKey (item_e item)) k.
Proof.
  intros Hnew Hmono Hvalid c.
  assert (Hinv0 : sweep_inv c0 t0).
  { destruct Hnew as [-> | [cap ->]]; apply sweep_inv_New. }
  destruct (run_ops_sweep_inv ctx c0 t0 trace Hinv0 Hmono Hvalid) as [Hinv _].
  fold c in Hinv. destruct Hinv as (Hidx & Hnz & Hev & Hitems).
  destruct (syncEvents_preserves_index_inv_nonneg _ _ Hidx Hnz Hev) as [Hidx' Hnz'].
  split; [done |]. split; [done |]. split; [done |]. split; [done |].
  intros k item Hk Hlive. destruct (Hitems k item Hk) as [Hlt | [Hv Hi]]; [lia |].
  split; [done |]. split; [done |].
  destruct Hidx' as (Hib & _). by apply Hib.
Qed.

(** ** What the sweeper deletes *)

Lemma makeExpireKey_valid (e : Z) :
  valid_ms e →
  makeExpireKey e = (e ÷ 1000 + 1) * 1000 ∧ e - 1000 < e ÷ 1000 * 1000 <= e.
Proof.
  unfold valid_ms. intros He. split; [apply makeExpireKey_exact; lia |].
  apply (proj2 (quot_mul_bounds e 1000 ltac:(lia))). lia.
Qed.

(** The buckets of the sweep at a valid clock reading: the five buckets
    below the bucket of the clock. *)
Lemma sweep_window_elem (now b : Z) :
  valid_ms now →
  b ∈ sweep_window now ↔ ∃ i, 1 <= i <= 5 ∧ b = makeExpireKey now - i * 1000.
Proof.
  intros Hnow. destruct (makeExpireKey_valid now Hnow) as [Hmk Hq].
  assert (Hw : ∀ i, 1 <= i <= 5 →
            wrap64 (makeExpireKey now - wrap64 (i * 1000)) =
            makeExpireKey now - i * 1000).
  { intros i Hi. unfold valid_ms in Hnow.
    rewrite (wrap64_small (i * 1000)) by (unfold int64_min, int64_max; lia).
    apply wrap64_small. unfold int64_min, int64_max. lia. }
  unfold sweep_window. rewrite list_elem_of_fmap. split.
  - intros (i & -> & Hi). exists i.
    assert (Hr : 1 <= i <= 5).
    { rewrite !elem_of_cons in Hi. rewrite elem_of_nil in Hi. lia. }
    split; [done | by apply Hw].
  - intros (i & Hr & ->). exists i. split; [symmetry; by apply Hw |].
    rewrite !elem_of_cons. lia.
Qed.

(** Under the invariant, the keys the sweep goes through are the keys
    whose drained index entry is a bucket of the window. *)
Lemma swept_drained c (t now : Z) (k : K) :
  sweep_inv c t →
  swept (drained c).2 (sweep_window now) k = true ↔
  ∃ b, b ∈ sweep_window now ∧ (drained c).1 !! k = Some b.
Proof.
  intros (Hidx & Hnz & Hev & _).
  destruct (syncEvents_preserves_index_inv_nonneg _ _ Hidx Hnz Hev)
    as [(Hib & Hbi & _) _].
  fold (drained c) in Hib, Hbi. rewrite swept_spec. split.
  - intros (b & Hb & (s & Hs & Hin)). exists b. split; [done |].
    by apply (Hbi b s k).
  - intros (b & Hb & Hk). exists b. split; [done |]. by apply Hib.
Qed.

(** The data map after a tick of a cache that is not closed. *)
Lemma tick_data c now (k : K) :
  closed c = false →
  data (syncEventAndClearExpired c now) !! k =
    if swept (drained c).2 (sweep_window now) k then None else data c !! k.
Proof.
  intros Hopen. unfold syncEventAndClearExpired, drained. rewrite Hopen.
  destruct (syncEvents (expireTimes c, expireSets c) (eventList c)) as [times sets].
  rewrite clearExpired_window.
  destruct (clearExpiredSets_effect (sweep_window now)
              (set_eventList (set_indexes c times sets) [])) as (Hd & _).
  cbv zeta in Hd. by rewrite Hd.
Qed.

(** An item that a tick deletes is expired. *)
Lemma tick_deleted_expired c (t now : Z) (k : K) item :
  sweep_inv c t → t <= now → valid_ms now →
  data c !! k = Some item →
  data (syncEventAndClearExpired c now) !! k = None →
  item_e item < now.
Proof.
  intros Hinv Ht Hnow Hk Hgone.
  destruct (closed c) eqn:Hclosed.
  { unfold syncEventAndClearExpired in Hgone. rewrite Hclosed in Hgone. congruence. }
  rewrite (tick_data c now k Hclosed) in Hgone.
  destruct (swept (drained c).2 (sweep_window now) k) eqn:Hsw; [| congruence].
  apply (swept_drained c t now k Hinv) in Hsw as (b & Hb & Hidx).
  destruct Hinv as (_ & _ & _ & Hitems).
  destruct (Hitems k item Hk) as [Hlt | [Hv Hi]]; [lia |].
  fold (drained c) in Hi. rewrite Hi in Hidx. injection Hidx as <-.
  apply (sweep_window_elem now _ Hnow) in Hb as (i & Hi5 & Hb).
  destruct (makeExpireKey_valid now Hnow) as [Hmk Hq].
  destruct (makeExpireKey_valid (item_e item) Hv) as [Hmk' Hq'].
  rewrite Hmk, Hmk' in Hb. lia.
Qed.

(** X20: the sweeper deletes expired items only.  After a run from a
    new cache whose clock readings do not go back and whose timestamps
    are valid, a tick at a later valid clock reading leaves every item
    it keeps as it is, and every item it deletes has an expire timestamp
    below the clock reading of the tick. *)
Theorem tick_deletes_only_expired (ctx : Ctx) (c0 : AdapterMemory) (t0 now : Z)
    (trace : list (Z * Op)) :
  (c0 = NewAdapterMemory ∨ ∃ cap, c0 = NewAdapterMemoryLru cap) →
  clock_monotone t0 trace →
  Forall (λ step, valid_step step.1 step.2) trace →
  last_clock t0 trace <= now → valid_ms now →
  let c := run_ops ctx c0 trace in
  let c' := syncEventAndClearExpired c now in
  (∀ k item, data c' !! k = Some item → data c !! k = Some item) ∧
  (∀ k item, data c !! k = Some item → data c' !! k = None → item_e item < now).
Proof.
  intros Hnew Hmono Hvalid Ht Hnow c c'.
  assert (Hinv0 : sweep_inv c0 t0).
  { destruct Hnew as [-> | [cap ->]]; apply sweep_inv_New. }
  destruct (run_ops_sweep_inv ctx c0 t0 trace Hinv0 Hmono Hvalid) as [Hinv _].
  fold c in Hinv. split.
  - intros k item. subst c'. destruct (closed c) eqn:Hclosed.
    + unfold syncEventAndClearExpired. by rewrite Hclosed.
    + rewrite (tick_data c now k Hclosed). by destruct (swept _ _ k).
  - intros k item Hk Hgone.
    by apply (tick_deleted_expired c (last_clock t0 trace) now k item).
Qed.

(** X21: the sweeper is invisible to readers.  After such a run, at any
    clock reading from the one of the tick on, [Get] of any key gives
    the same value with the tick as without it, and the snapshot views
    [Data], [Keys], [Values] and [Size] are the same. *)
Theorem tick_invisible_to_readers (ctx : Ctx) (c0 : AdapterMemory) (t0 now now' : Z)
    (trace : list (Z * Op)) :
  (c0 = NewAdapterMemory ∨ ∃ cap, c0 = NewAdapterMemoryLru cap) →
  clock_monotone t0 trace →
  Forall (λ step, valid_step step.1 step.2) trace →
  last_clock t0 trace <= now → valid_ms now → now <= now' →
  let c := run_ops ctx c0 trace in
  let c' := syncEventAndClearExpired c now in
  (∀ k, (AdapterMemory_Get c' now' k).2 = (AdapterMemory_Get c now' k).2) ∧
  (∀ k, (AdapterMemory_Contains c' now' k).2 = (AdapterMemory_Contains c now' k).2) ∧
  AdapterMemory_Data c' now' = AdapterMemory_Data c now' ∧
  AdapterMemory_Keys c' now' = AdapterMemory_Keys c now' ∧
  AdapterMemory_Values c' now' = AdapterMemory_Values c now' ∧
  AdapterMemory_Size c' now' = AdapterMemory_Size c now'.
Proof.
  intros Hnew Hmono Hvalid Ht Hnow Hnow' c c'.
  assert (Hinv0 : sweep_inv c0 t0).
  { destruct Hnew as [-> | [cap ->]]; apply sweep_inv_New. }
  destruct (run_ops_sweep_inv ctx c0 t0 trace Hinv0 Hmono Hvalid) as [Hinv _].
  fold c in Hinv.
  assert (Hdata : ∀ k, data c' !! k = data c !! k ∨
            (data c' !! k = None ∧ ∃ item, data c !! k = Some item ∧ item_e item < now)).
  { intros k. subst c'. destruct (closed c) eqn:Hclosed.
    - left. unfold syncEventAndClearExpired. by rewrite Hclosed.
    - destruct (data c !! k) as [item |] eqn:Hk.
      + destruct (data (syncEventAndClearExpired c now) !! k) as [item' |] eqn:Hk'.
        * left. rewrite (tick_data c now k Hclosed) in Hk'.
          destruct (swept _ _ k); congruence.
        * right. split; [done |]. exists item. split; [done |].
          by apply (tick_deleted_expired c (last_clock t0 trace) now k item).
      + left. rewrite (tick_data c now k Hclosed). rewrite Hk.
        by destruct (swept _ _ k). }
  assert (HGet : ∀ k, (AdapterMemory_Get c' now' k).2 = (AdapterMemory_Get c now' k).2).
  { intros k. unfold AdapterMemory_Get, memoryData_Get.
    destruct (Hdata k) as [-> | (-> & item & -> & Hlt)].
    - destruct (data c !! k) as [item |]; [| done].
      by destruct (negb (IsExpired item now')).
    - unfold IsExpired. by rewrite (proj2 (Z.ltb_lt (item_e item) now')) by lia. }
  assert (Hlive : memoryData_live (data c') now' = memoryData_live (data c) now').
  { unfold memoryData_live. apply map_eq. intros k. apply option_eq. intros item.
    rewrite !map_lookup_filter_Some. cbn [snd].
    destruct (Hdata k) as [-> | (-> & item' & -> & Hlt)]; [done |].
    split; [by intros [? _] |]. intros [[= <-] ?]. lia. }
  split; [exact HGet |]. split.
  - intros k. unfold AdapterMemory_Contains. specialize (HGet k).
    destruct (AdapterMemory_Get c' now' k) as [c1 v1].
    destruct (AdapterMemory_Get c now' k) as [c2 v2]. cbn [snd] in *. by subst.
  - unfold AdapterMemory_Data, AdapterMemory_Keys, AdapterMemory_Values,
      AdapterMemory_Size, memoryData_Data, memoryData_Keys, memoryData_Values,
      memoryData_Size. by rewrite Hlive.
Qed.

(** X22: which items a tick deletes.  After such a run, on a cache that
    is not closed, an item that was not expired at the last clock
    reading of the run is deleted by a tick exactly when the second of
    the clock reading of the tick is one to five seconds after the
    second of the expire timestamp of the item: a tick in the second of
    the expiry leaves the item, and so does a tick more than five
    seconds late. *)
Theorem tick_deletes_within_five_seconds (ctx : Ctx) (c0 : AdapterMemory)
    (t0 now : Z) (trace : list (Z * Op)) (k : K) item :
  (c0 = NewAdapterMemory ∨ ∃ cap, c0 = NewAdapterMemoryLru cap) →
  clock_monotone t0 trace →
  Forall (λ step, valid_step step.1 step.2) trace →
  valid_ms now →
  let c := run_ops ctx c0 trace in
  closed c = false →
  data c !! k = Some item → last_clock t0 trace <= item_e item →
  data (syncEventAndClearExpired c now) !! k = None ↔
  item_e item ÷ 1000 + 1 <= now ÷ 1000 <= item_e item ÷ 1000 + 5.
Proof.
  intros Hnew Hmono Hvalid Hnow c Hopen Hk Hlive.
  assert (Hinv0 : sweep_inv c0 t0).
  { destruct Hnew as [-> | [cap ->]]; apply sweep_inv_New. }
  destruct (run_ops_sweep_inv ctx c0 t0 trace Hinv0 Hmono Hvalid) as [Hinv _].
  fold c in Hinv. rewrite (tick_data c now k Hopen).
  pose proof (swept_drained c _ now k Hinv) as Hsw.
  destruct Hinv as (_ & _ & _ & Hitems).
  destruct (Hitems k item Hk) as [Hlt | [Hv Hi]]; [lia |].
  fold (drained c) in Hi.
  destruct (makeExpireKey_valid now Hnow) as [Hmk Hq].
  destruct (makeExpireKey_valid (item_e item) Hv) as [Hmk' Hq'].
  assert (Hwin : swept (drained c).2 (sweep_window now) k = true ↔
            item_e item ÷ 1000 + 1 <= now ÷ 1000 <= item_e item ÷ 1000 + 5).
  { rewrite Hsw. split.
    - intros (b & Hb & Hidx). rewrite Hi in Hidx. injection Hidx as <-.
      apply (sweep_window_elem now _ Hnow) in Hb as (i & Hi5 & Hb).
      rewrite Hmk, Hmk' in Hb. lia.
    - intros Hr. exists (makeExpireKey (item_e item)). split; [| done].
      apply (sweep_window_elem now _ Hnow).
      exists (now ÷ 1000 - item_e item ÷ 1000). rewrite Hmk, Hmk'. lia. }
  rewrite <- Hwin. rewrite Hk.
  by destruct (swept (drained c).2 (sweep_window now) k).
Qed.


(** ** SetMap *)

Lemma memoryData_SetMap_values (d : gmap K memoryDataItem) (kvs : list (K * any))
    (e : Z) (k : K) :
  NoDup kvs.*1 →
  memoryData_SetMap d kvs e !! k =
    match (list_to_map kvs : gmap K any) !! k with
    | Some v => Some (mkItem v e)
    | None => d !! k
    end.
Proof.
  unfold memoryData_SetMap. revert d.
  induction kvs as [| [k0 v0] kvs IH]; intros d Hnd; [done |].
  rewrite fmap_cons in Hnd. apply NoDup_cons in Hnd as [Hk0 Hnd]. cbn [fst] in Hk0.
  rewrite list_to_map_cons. cbn [foldl fst snd].
  rewrite (IH _ Hnd). destruct (decide (k = k0)) as [-> | Hne].
  - rewrite (not_elem_of_list_to_map_1 kvs k0 Hk0). by rewrite !lookup_insert_eq.
  - by rewrite !lookup_insert_ne by done.
Qed.

(** With room in the tracker for the key, a touch evicts nothing. *)
Lemma doSaveAndEvict_room (l : memoryLru) (key : K) :
  Z.of_nat (size ({[key]} ∪ lru_data l)) <= lru_cap l →
  (memoryLru_doSaveAndEvict l key).2 = None ∧
  lru_data (memoryLru_doSaveAndEvict l key).1 = {[key]} ∪ lru_data l.
Proof.
  intros Hroom. unfold memoryLru_doSaveAndEvict.
  destruct (bool_decide (key ∈ lru_data l) && is_front key (lru_list l)) eqn:Hfront.
  - apply andb_true_iff in Hfront as [Hin%bool_decide_eq_true _].
    split; [done |]. cbn [fst]. set_solver.
  - cbv zeta. by rewrite (proj2 (Z.leb_le _ _) Hroom).
Qed.

Lemma touches_with_room c now (kvs : list (K * any)) :
  (∀ l, lru c = Some l →
        Z.of_nat (size (lru_data l ∪ list_to_set kvs.*1)) <= lru_cap l) →
  let c' := foldl (λ c kv, handleLruKey c now [kv.1]) c kvs in
  data c' = data c ∧ eventList c' = eventList c ∧
  expireTimes c' = expireTimes c ∧ expireSets c' = expireSets c ∧
  closed c' = closed c ∧
  match lru c with
  | None => lru c' = None
  | Some l => ∃ l', lru c' = Some l' ∧ lru_cap l' = lru_cap l ∧
                    lru_data l' = lru_data l ∪ list_to_set kvs.*1
  end.
Proof.
  revert c. induction kvs as [| kv kvs IH]; intros c Hroom; cbv zeta.
  - cbn [foldl]. do 5 (split; [done |]).
    destruct (lru c) as [l |]; [| done]. exists l. split; [done |].
    split; [done |]. cbn. set_solver.
  - cbn [foldl]. destruct (lru c) as [l |] eqn:Hl.
    + specialize (Hroom l eq_refl). cbn [fmap list_fmap] in Hroom.
      rewrite list_to_set_cons in Hroom.
      assert (Hkey : Z.of_nat (size ({[kv.1]} ∪ lru_data l)) <= lru_cap l).
      { pose proof (subseteq_size ({[kv.1]} ∪ lru_data l)
          (lru_data l ∪ ({[kv.1]} ∪ list_to_set kvs.*1)) ltac:(set_solver)). lia. }
      destruct (doSaveAndEvict_room l kv.1 Hkey) as [Hnone Hdata].
      pose proof (doSaveAndEvict_cap l kv.1) as Hcap.
      rewrite (handleLruKey_single c now kv.1 l Hl), Hnone.
      destruct (IH (set_lru c (Some (memoryLru_doSaveAndEvict l kv.1).1)))
        as (Hd & Hev & Ht & Hs & Hc & Hlru).
      { intros l1 [= <-]. rewrite Hdata, Hcap.
        replace ({[kv.1]} ∪ lru_data l ∪ list_to_set kvs.*1)
          with (lru_data l ∪ ({[kv.1]} ∪ list_to_set kvs.*1)) by set_solver.
        exact Hroom. }
      cbv zeta in *. cbn [set_lru lru data eventList expireTimes expireSets closed] in *.
      do 5 (split; [done |]).
      destruct Hlru as (l' & Hl' & Hcap' & Hdata'). exists l'.
      split; [done |]. split; [congruence |].
      rewrite Hdata', Hdata. cbn [fmap list_fmap]. rewrite list_to_set_cons. set_solver.
    + rewrite handleLruKey_no_lru by done.
      destruct (IH c) as (Hd & Hev & Ht & Hs & Hc & Hlru).
      { intros l1 Hl1. congruence. }
      cbv zeta in *. rewrite Hl in Hlru. done.
Qed.

(** X23: [SetMap] has no case for a nil value or a negative duration
    either.  When the tracker, if there is one, has room for the keys of
    the map given, every key of that map is stored with its value and
    the one expire timestamp of the call, the items of the other keys
    are as before, one event is pushed for each key of the map, the
    tracker holds the keys of the map besides its own, and the indexes
    are as before. *)
Theorem SetMap_stores_every_pair c now (values : gmap K any) (duration : Z) :
  (∀ l, lru c = Some l →
        Z.of_nat (size (lru_data l ∪ dom values)) <= lru_cap l) →
  let e := getInternalExpire now duration in
  let c' := AdapterMemory_SetMap c now values duration in
  (∀ k, data c' !! k =
        match values !! k with
        | Some v => Some (mkItem v e)
        | None => data c !! k
        end) ∧
  eventList c' =
    eventList c ++ ((λ kv, mkEvent kv.1 e) <$> map_to_list values) ∧
  match lru c with
  | None => lru c' = None
  | Some l => ∃ l', lru c' = Some l' ∧ lru_cap l' = lru_cap l ∧
                    lru_data l' = lru_data l ∪ dom values
  end ∧
  expireTimes c' = expireTimes c ∧ expireSets c' = expireSets c ∧
  closed c' = closed c.
Proof.
  intros Hroom e c'. subst c'. unfold AdapterMemory_SetMap. cbv zeta. fold e.
  assert (Hdom : (list_to_set (map_to_list values).*1 : gset K) = dom values).
  { apply set_eq. intros k. rewrite elem_of_list_to_set, elem_of_dom.
    rewrite list_elem_of_fmap. split.
    - intros ([k' v] & -> & Hin%elem_of_map_to_list). by exists v.
    - intros [v Hv]. exists (k, v). split; [done |]. by apply elem_of_map_to_list. }
  destruct (SetMap_written c (map_to_list values) e)
    as (Hd & Hl & Hc & Ht & Hs & Hev).
  cbv zeta in *.
  destruct (touches_with_room
    (foldl (λ c kv, PushBack c (mkEvent kv.1 e))
       (set_data c (memoryData_SetMap (data c) (map_to_list values) e))
       (map_to_list values)) now (map_to_list values))
    as (Hd' & Hev' & Ht' & Hs' & Hc' & Hlru').
  { intros l Hl0. rewrite Hl in Hl0. rewrite Hdom. by apply Hroom. }
  cbv zeta in *. rewrite Hd', Hev', Ht', Hs', Hc', Hd, Hev, Ht, Hs, Hc.
  rewrite Hl, Hdom in Hlru'.
  split; [| split; [| done]].
  - intros k. rewrite memoryData_SetMap_values by apply NoDup_fst_map_to_list.
    by rewrite list_to_map_to_list.
  - by rewrite <- list_fmap_compose.
Qed.

(** ** The tracker: Remove *)

Lemma filter_all (P : K → Prop) `{!∀ x, Decision (P x)} (l : list K) :
  (∀ x, x ∈ l → P x) → filter P l = l.
Proof.
  induction l as [| x l IH]; intros Hall; [done |].
  rewrite filter_cons_True by (apply Hall; by left).
  f_equal. apply IH. intros y Hy. apply Hall. by right.
Qed.

Lemma list_Remove_filter (key : K) (l : list K) :
  NoDup l → list_Remove key l = filter (λ x, x ≠ key) l.
Proof.
  induction l as [| x l IH]; intros Hnd; [done |].
  apply NoDup_cons in Hnd as [Hx Hnd]. cbn [list_Remove].
  destruct (decide (x = key)) as [-> | Hne].
  - rewrite filter_cons_False by (intros Hc; by apply Hc).
    symmetry. apply filter_all. by intros y Hy ->.
  - rewrite filter_cons_True by done. f_equal. by apply IH.
Qed.

Lemma memoryLru_Remove_steps_list (l : memoryLru) (keys : list K) :
  lru_wf l →
  lru_list (foldl memoryLru_Remove_step l keys) =
    filter (λ x, x ∉ keys) (lru_list l).
Proof.
  revert l. induction keys as [| key keys IH]; intros l Hwf.
  - cbn [foldl]. symmetry. apply filter_all. intros x _. apply not_elem_of_nil.
  - cbn [foldl].
    destruct (memoryLru_Remove_step_spec l key Hwf) as (Hwf1 & _ & _).
    rewrite (IH _ Hwf1).
    assert (Hstep : lru_list (memoryLru_Remove_step l key) =
              filter (λ x, x ≠ key) (lru_list l)).
    { destruct Hwf as [Hnd Hdata]. unfold memoryLru_Remove_step.
      destruct (decide (key ∈ lru_data l)) as [Hin | Hout]; cbn [lru_list].
      - by apply list_Remove_filter.
      - symmetry. apply filter_all. intros x Hx ->. apply Hout.
        rewrite Hdata. by apply elem_of_list_to_set. }
    rewrite Hstep, list_filter_filter. apply list_filter_iff.
    intros x. rewrite not_elem_of_cons. tauto.
Qed.

(** X24: [Remove] of the tracker takes the keys given out of a well
    formed tracker and nothing else: the tracker stays well formed, with
    its capacity, its keys are the former ones without the keys given,
    and the keys that stay keep their order of use.  A cache without
    tracker has none afterwards either. *)
Theorem memoryLru_Remove_contract (l : memoryLru) (keys : list K) :
  lru_wf l →
  memoryLru_Remove None keys = None ∧
  ∃ l', memoryLru_Remove (Some l) keys = Some l' ∧
        lru_wf l' ∧ lru_cap l' = lru_cap l ∧
        lru_data l' = lru_data l ∖ list_to_set keys ∧
        lru_list l' = filter (λ x, x ∉ keys) (lru_list l).
Proof.
  intros Hwf. split; [done |].
  exists (foldl memoryLru_Remove_step l keys). split; [done |].
  destruct (memoryLru_Remove_steps_spec l keys Hwf) as (Hwf' & Hdata' & Hcap').
  split; [done |]. split; [done |]. split; [done |].
  by apply memoryLru_Remove_steps_list.
Qed.


End CacheProperties.

(** * The properties on concrete caches *)

(** ** Set with a nil value or a negative duration *)

Lemma Set_nil_or_negative_still_stores_witness :
  data cache_nil_value !! "a" = Some (mkItem Nil (clock0 + 1000)) ∧
  (AdapterMemory_GetExpire cache_nil_value clock0 "a").2 ≠ -1 ∧
  (AdapterMemory_Get cache_nil_value clock0 "a").2 = Some Nil ∧
  "a" ∈ AdapterMemory_Keys cache_nil_value clock0 ∧
  AdapterMemory_Data cache_nil_value clock0 !! "a" = Some Nil.
Proof.
  destruct (Set_nil_or_negative_still_stores
              (NewAdapterMemory : Cache) clock0 clock0 "a" Nil Second)
    as (Hstored & Hexpire & Hlive).
  - exact I.
  - split; [exact Hstored |]. split; [exact Hexpire |].
    apply Hlive. vm_compute. reflexivity.
Defined.

(** A negative duration leaves the key in the data map as well, with an
    expire timestamp in the past. *)
Example Set_negative_duration_keeps_key :
  data cache_negative_duration !! "a" = Some (mkItem (Val 1) (clock0 - 1000)) ∧
  (AdapterMemory_GetExpire cache_negative_duration clock0 "a").2 = -1000000000.
Proof. vm_compute. split; reflexivity. Qed.

(** ** GetExpire of a key that never expires *)

Lemma GetExpire_never_expiring_not_zero_witness :
  ((AdapterMemory_GetExpire cache_never_expires clock0 "a").2
     = (defaultMaxExpire - clock0) * 1000000 ∧
   (AdapterMemory_GetExpire cache_never_expires clock0 "a").2 ≠ 0) ∧
  (AdapterMemory_GetExpire cache_never_expires clock0 "b").2 = -1.
Proof.
  split.
  - apply (proj1 (GetExpire_never_expiring_not_zero cache_never_expires clock0 "a")
                 (mkItem (Val 1) defaultMaxExpire)).
    + vm_compute. reflexivity.
    + reflexivity.
    + unfold clock0, defaultMaxExpire. lia.
  - apply (proj2 (GetExpire_never_expiring_not_zero cache_never_expires clock0 "b")).
    vm_compute. reflexivity.
Defined.

Example GetExpire_never_expiring_value :
  (AdapterMemory_GetExpire cache_never_expires clock0 "a").2 = 7523372036854000000 ∧
  (AdapterMemory_GetExpire cache_never_expires clock0 "b").2 = -1.
Proof. vm_compute. split; reflexivity. Qed.

(** ** Close *)

(** After [Close], a key set before and not expired is still served:
    [Get] gives its value, [Contains] gives [true] and [Size] counts it. *)
Lemma Close_keeps_serving :
  let c := AdapterMemory_Close cache_never_expires in
  (AdapterMemory_Get c clock0 "a").2 = Some (Val 1) ∧
  (AdapterMemory_Get c clock0 "a").2 ≠ None ∧
  (AdapterMemory_Contains c clock0 "a").2 ≠ false ∧
  AdapterMemory_Size c clock0 ≠ 0.
Proof. vm_compute. repeat split; discriminate. Qed.

(** ** SetWithLock *)

Lemma SetWithLock_compute_if_absent_witness :
  memoryData_SetWithLock () ({["k" := mkItem (Val 1) 5000]}) 4000 "k" (Fn producer_two) 9000
    = mkSWL (Val 1) None ({["k" := mkItem (Val 1) 5000]}) 0 ∧
  memoryData_SetWithLock () ∅ 4000 "k" (Fn producer_fails) 9000
    = mkSWL Nil (Some "boom") ∅ 1 ∧
  memoryData_SetWithLock () ∅ 4000 "k" (Fn producer_nil) 9000
    = mkSWL Nil None ∅ 1.
Proof.
  assert (Hmiss : ¬ is_live (∅ : gmap string (@memoryDataItem Z string unit)) 4000 "k").
  { intros (item & Hd & _). vm_compute in Hd. discriminate. }
  split; [| split].
  - apply (proj1 (SetWithLock_compute_if_absent
                    () ({["k" := mkItem (Val 1) 5000]}) 4000 "k" (Fn producer_two) 9000)
                 (mkItem (Val 1) 5000)).
    + vm_compute. reflexivity.
    + reflexivity.
  - apply (proj1 (proj2 (SetWithLock_compute_if_absent
                    () ∅ 4000 "k" (Fn producer_fails) 9000))
                 producer_fails (Val 2) "boom" Hmiss); reflexivity.
  - apply (proj2 (proj2 (SetWithLock_compute_if_absent
                    () ∅ 4000 "k" (Fn producer_nil) 9000))
                 producer_nil Hmiss); reflexivity.
Defined.

(** ** The bucket key *)

(** Above 2^53 a float64 holds every second integer only. *)
Example float64_round_values :
  float64_round (2 ^ 53 - 1) = 2 ^ 53 - 1 ∧
  float64_round (2 ^ 53 + 1) = 2 ^ 53 ∧
  float64_round (2 ^ 53 + 3) = 2 ^ 53 + 4 ∧
  float64_round (- (2 ^ 53 + 3)) = - (2 ^ 53 + 4).
Proof. vm_compute. repeat split; reflexivity. Qed.

Example makeExpireKey_values :
  makeExpireKey 1500 = 2000 ∧ makeExpireKey 1999 = 2000 ∧
  makeExpireKey 2000 = 3000 ∧ makeExpireKey clock0 = clock0 + 1000 ∧
  makeExpireKey (-1500) = 0.
Proof. vm_compute. repeat split; reflexivity. Qed.

(** ** Eviction *)



Example Set_beyond_capacity_keys :
  AdapterMemory_Keys (run_Sets (NewAdapterMemoryLru 2) calls_abc) (clock0 + 3)
    ≡ₚ ["b"; "c"].
Proof. vm_compute. apply perm_swap. Qed.

(** ** The drain phase *)

Lemma index_inv_empty :
  index_inv ((∅, ∅) : gmap string Z * gmap Z (gset string)) ∧
  no_zero_bucket ((∅, ∅) : gmap string Z * gmap Z (gset string)).
Proof.
  split; [split; [| split] |].
  - intros k b Hk. simpl in Hk. rewrite lookup_empty in Hk. discriminate.
  - intros b s k Hb. simpl in Hb. rewrite lookup_empty in Hb. discriminate.
  - intros k b1 b2 s1 s2 Hb. simpl in Hb. rewrite lookup_empty in Hb. discriminate.
  - intros k Hk. simpl in Hk. rewrite lookup_empty in Hk. discriminate.
Qed.

(** Three events whose bucket keys are 6000, 6000 and 8000. *)
Lemma syncEvents_preserves_index_inv_witness :
  index_inv (syncEvents (∅, ∅) events_plain) ∧
  no_zero_bucket (syncEvents (∅, ∅) events_plain).
Proof.
  apply (syncEvents_preserves_index_inv (∅, ∅) events_plain).
  - exact (proj1 index_inv_empty).
  - exact (proj2 index_inv_empty).
  - repeat constructor; vm_compute; discriminate.
Defined.

(** An event whose bucket key is 0 breaks the invariants: after the
    three events the key is in bucket 0 and in bucket 6000, and the
    index maps it to 6000. *)
Lemma syncEvents_through_zero_breaks_index_inv :
  index_inv ((∅, ∅) : gmap string Z * gmap Z (gset string)) ∧
  ¬ index_inv (syncEvents (∅, ∅) events_through_zero).
Proof.
  split; [exact (proj1 index_inv_empty) |].
  intros (_ & Hbi & _).
  assert (Hidx : (syncEvents (∅, ∅) events_through_zero).1 !! "k" = Some 6000)
    by (vm_compute; reflexivity).
  assert (Hset : (syncEvents (∅, ∅) events_through_zero).2 !! 0 = Some {["k"]})
    by (vm_compute; reflexivity).
  pose proof (Hbi 0 {["k"]} "k" Hset ltac:(by apply elem_of_singleton)) as Hzero.
  rewrite Hidx in Hzero. discriminate.
Qed.

(** The same state is reached through [Set] and the ticks of the sweeper:
    the key is left in bucket 0 while the index maps it to its bucket
    after [clock0 + 5004]. *)
Example sweeper_through_zero_breaks_index_inv :
  expireTimes cache_through_zero !! "k" = Some (clock0 + 6000) ∧
  expireSets cache_through_zero !! 0 = Some {["k"]} ∧
  ¬ index_inv (expireTimes cache_through_zero, expireSets cache_through_zero).
Proof.
  assert (Hidx : expireTimes cache_through_zero !! "k" = Some (clock0 + 6000))
    by (vm_compute; reflexivity).
  assert (Hset : expireSets cache_through_zero !! 0 = Some {["k"]})
    by (vm_compute; reflexivity).
  split; [exact Hidx |]. split; [exact Hset |].
  revert Hidx Hset.
  generalize (expireTimes cache_through_zero) (expireSets cache_through_zero).
  intros times sets Hidx Hset (_ & Hbi & _).
  assert (Hin : "k" ∈ ({["k"]} : gset string)) by (by apply elem_of_singleton).
  pose proof (Hbi 0 {["k"]} "k" Hset Hin) as Hzero. simpl in Hzero.
  rewrite Hidx in Hzero. injection Hzero as Hzero. vm_compute in Hzero.
  discriminate.
Qed.

(** ** SetIfNotExist *)


(** ** Update *)

Lemma cache_lru_ab_inv : cache_inv cache_lru_ab.
Proof.
  apply cache_lru_inv_inv.
  - unfold cache_lru_ab, run_Sets. simpl. unfold run_Set.
    apply cache_lru_inv_Set, cache_lru_inv_Set, cache_lru_inv_New. lia.
  - intros l _ k _. reflexivity.
Qed.


(** ** The instant of expiry *)

(** [Set("a", 1, 1s)] at [clock0]: at [clock0 + 1000] the key is served
    by [Get] and [Contains] and is not in [Keys], [Data] or [Size]. *)
Lemma expiry_instant_read_and_snapshots_disagree_witness :
  (AdapterMemory_Get cache_one_second (clock0 + 1000) "a").2 = Some (Val 1) ∧
  (AdapterMemory_Contains cache_one_second (clock0 + 1000) "a").2 = true ∧
  ("a" ∉ AdapterMemory_Keys cache_one_second (clock0 + 1000)) ∧
  AdapterMemory_Data cache_one_second (clock0 + 1000) !! "a" = None.
Proof.
  destruct (expiry_instant_read_and_snapshots_disagree
              cache_one_second (clock0 + 1000) "a" (mkItem (Val 1) (clock0 + 1000)))
    as (HGet & HContains & HKeys & HData & _).
  - vm_compute. reflexivity.
  - reflexivity.
  - repeat split; assumption.
Defined.

Example expiry_instant_size :
  AdapterMemory_Size cache_one_second (clock0 + 1000) = 0 ∧
  AdapterMemory_Size cache_one_second (clock0 + 999) = 1.
Proof. vm_compute. split; reflexivity. Qed.

(** * The further properties on concrete caches *)

(** ** Durations and expire timestamps *)



(** The bucket of 1500 ms is 2000. *)
Lemma makeExpireKey_first_multiple_above_witness :
  1500 < makeExpireKey 1500 <= 1500 + 1000 ∧
  makeExpireKey 1500 `mod` 1000 = 0 ∧
  (∀ e', valid_ms e' → 1500 <= e' → makeExpireKey 1500 <= makeExpireKey e') ∧
  (∀ now, valid_ms now → makeExpireKey 1500 < makeExpireKey now → 1500 < now).
Proof.
  apply (makeExpireKey_first_multiple_above 1500).
  vm_compute. split; [discriminate | reflexivity].
Defined.

(** ** Reads, UpdateExpire and the operations with producers *)

Lemma reads_keep_data_witness :
  data (AdapterMemory_Get cache_lru_ab (clock0 + 5) "a").1 = data cache_lru_ab ∧
  eventList (AdapterMemory_Get cache_lru_ab (clock0 + 5) "a").1
    = eventList cache_lru_ab ∧
  data (AdapterMemory_Contains cache_lru_ab (clock0 + 5) "a").1 = data cache_lru_ab ∧
  data (AdapterMemory_GetExpire cache_lru_ab (clock0 + 5) "a").1 = data cache_lru_ab ∧
  eventList (AdapterMemory_GetExpire cache_lru_ab (clock0 + 5) "a").1
    = eventList cache_lru_ab ∧
  (¬ is_live (data cache_lru_ab) (clock0 + 5) "a" →
   AdapterMemory_Get cache_lru_ab (clock0 + 5) "a" = (cache_lru_ab, None)).
Proof.
  apply (reads_keep_data cache_lru_ab (clock0 + 5) "a"). exact cache_lru_ab_inv.
Defined.

(** [UpdateExpire("b", 1s)] and [UpdateExpire("z", 1s)] on a cache that
    holds "a" and "b". *)
Lemma UpdateExpire_contract_witness :
  (let r := AdapterMemory_UpdateExpire cache_lru_ab (clock0 + 5) "b" Second in
   r.2 = (AdapterMemory_GetExpire cache_lru_ab (clock0 + 5) "b").2 ∧
   r.2 ≠ -1 ∧
   data r.1 !! "b"
     = Some (mkItem (Val 2) (getInternalExpire (clock0 + 5) Second))) ∧
  AdapterMemory_UpdateExpire cache_lru_ab (clock0 + 5) "z" Second
    = (cache_lru_ab, -1).
Proof.
  destruct (UpdateExpire_contract cache_lru_ab (clock0 + 5) "b" Second
              cache_lru_ab_inv) as [Hpresent _].
  destruct (Hpresent (mkItem (Val 2) (clock0 + 1 + 1000)))
    as (Hret & Hne & Hitem & _).
  - vm_compute. reflexivity.
  - split; [split; [exact Hret |]; split; [exact Hne | exact Hitem] |].
    apply (proj2 (UpdateExpire_contract cache_lru_ab (clock0 + 5) "z" Second
                    cache_lru_ab_inv)).
    vm_compute. reflexivity.
Defined.







(** ** The tracker *)

Lemma lru_ba_wf : lru_wf lru_ba.
Proof.
  split; [| reflexivity]. apply (bool_decide_unpack _). vm_compute. reflexivity.
Qed.

Lemma lru_b_nil_wf : lru_wf lru_b_nil.
Proof.
  split; [| reflexivity]. apply (bool_decide_unpack _). vm_compute. reflexivity.
Qed.

(** A touch of "c" on a full tracker that holds "b" and "a" evicts "a". *)
Example doSaveAndEvict_evicts_back :
  memoryLru_doSaveAndEvict lru_ba "c"
  = (mkLru 2 (list_to_set ["c"; "b"]) ["c"; "b"], Some "a").
Proof. vm_compute. reflexivity. Qed.

(** A touch of "c" on a full tracker that holds "b" and the nil key pops
    the nil key and evicts nothing: the map of the tracker holds three
    keys. *)
Example doSaveAndEvict_keeps_nil :
  memoryLru_doSaveAndEvict lru_b_nil (Some "c")
  = (mkLru 2 (list_to_set [Some "c"; Some "b"; None]) [Some "c"; Some "b"], None).
Proof. vm_compute. reflexivity. Qed.

(** The contract of a touch of "c" on a full tracker that holds "b" and
    the nil key. *)
Lemma doSaveAndEvict_contract_witness :
  let l := lru_b_nil in
  let key := Some "c" in
  let r := memoryLru_doSaveAndEvict l key in
  lru_cap r.1 = lru_cap l ∧
  NoDup (lru_list r.1) ∧
  head (lru_list r.1) = Some key ∧
  r.2 ≠ Some key ∧
  lru_data r.1 =
    ({[key]} ∪ lru_data l) ∖ match r.2 with Some x => {[x]} | None => ∅ end ∧
  (∀ x, r.2 = Some x →
     last (lru_list l) = Some x ∧ key_is_nil x = false ∧ (key ∉ lru_data l) ∧
     Z.of_nat (size (lru_data l)) = lru_cap l ∧
     lru_wf r.1 ∧ Z.of_nat (size (lru_data r.1)) <= lru_cap l) ∧
  (r.2 = None →
     (lru_wf r.1 ∧ Z.of_nat (size (lru_data r.1)) <= lru_cap l) ∨
     (∃ x, last (lru_list l) = Some x ∧ key_is_nil x = true ∧
           (key ∉ lru_data l) ∧ Z.of_nat (size (lru_data l)) = lru_cap l ∧
           x ∈ lru_data r.1 ∧ (x ∉ lru_list r.1) ∧
           Z.of_nat (size (lru_data r.1)) = lru_cap l + 1)) ∧
  ((key ∉ lru_data l) → Z.of_nat (size (lru_data l)) = lru_cap l →
     ∃ x, last (lru_list l) = Some x ∧
          lru_list r.1 = key :: removelast (lru_list l) ∧
          r.2 = if key_is_nil x then None else Some x).
Proof.
  apply (doSaveAndEvict_contract lru_b_nil (Some "c")).
  - exact lru_b_nil_wf.
  - vm_compute. discriminate.
  - vm_compute. discriminate.
Defined.


(** [Remove("a", "z")] on the tracker that holds "b" and "a". *)
Lemma memoryLru_Remove_contract_witness :
  memoryLru_Remove (None : option (@memoryLru string _ _)) ["a"; "z"] = None ∧
  ∃ l', memoryLru_Remove (Some lru_ba) ["a"; "z"] = Some l' ∧
        lru_wf l' ∧ lru_cap l' = lru_cap lru_ba ∧
        lru_data l' = lru_data lru_ba ∖ list_to_set ["a"; "z"] ∧
        lru_list l' = filter (λ x, x ∉ ["a"; "z"]) (lru_list lru_ba).
Proof.
  apply (memoryLru_Remove_contract lru_ba ["a"; "z"]). exact lru_ba_wf.
Defined.

(** ** SetMap *)

(** [SetMap({"a": 1, "b": nil}, -1s)] on a new cache of capacity 2. *)
Lemma SetMap_stores_every_pair_witness :
  let e := getInternalExpire clock0 (- Second) in
  let c' := AdapterMemory_SetMap (NewAdapterMemoryLru 2 : Cache) clock0 values_ab
              (- Second) in
  (∀ k, data c' !! k =
        match values_ab !! k with
        | Some v => Some (mkItem v e)
        | None => data (NewAdapterMemoryLru 2 : Cache) !! k
        end) ∧
  eventList c' =
    eventList (NewAdapterMemoryLru 2 : Cache) ++
    ((λ kv, mkEvent kv.1 e) <$> map_to_list values_ab) ∧
  (∃ l', lru c' = Some l' ∧ lru_cap l' = 2 ∧
         lru_data l' = ∅ ∪ dom values_ab) ∧
  expireTimes c' = ∅ ∧ expireSets c' = ∅ ∧ closed c' = false.
Proof.
  apply (SetMap_stores_every_pair (NewAdapterMemoryLru 2 : Cache) clock0 values_ab
           (- Second)).
  intros l Hl. injection Hl as <-. vm_compute. discriminate.
Defined.

(** ** Runs and the sweeper *)

(** A tick two seconds after [Set("a", 1, 1s)]. *)
Lemma tick_effect_witness :
  let c' := syncEventAndClearExpired cache_one_second (clock0 + 2000) in
  eventList c' = [] ∧
  (∀ k, data c' !! k =
        if swept (drained cache_one_second).2 (sweep_window (clock0 + 2000)) k
        then None else data cache_one_second !! k) ∧
  (∀ k, expireTimes c' !! k =
        if swept (drained cache_one_second).2 (sweep_window (clock0 + 2000)) k
        then None else (drained cache_one_second).1 !! k) ∧
  expireSets c' =
    foldl (λ s b, delete b s) (drained cache_one_second).2
          (sweep_window (clock0 + 2000)) ∧
  closed c' = false.
Proof.
  apply (tick_effect cache_one_second (clock0 + 2000)). reflexivity.
Defined.

Lemma trace_ab_valid :
  clock_monotone clock0 trace_ab ∧
  Forall (λ step, valid_step step.1 step.2) trace_ab.
Proof.
  split.
  - vm_compute. repeat split; discriminate.
  - repeat constructor; vm_compute; discriminate || reflexivity.
Qed.

(** The run [trace_nil_b] on a cache of capacity 1 leaves two items in
    the data map. *)
Example run_ops_nil_key_over_capacity :
  let c := run_ops () (NewAdapterMemoryLru 1) trace_nil_b in
  Z.of_nat (size (data c)) = 2 ∧ AdapterMemory_Size c (clock0 + 2) = 2 ∧
  lru c = Some (mkLru 1 {[None; Some "b"]} [Some "b"]).
Proof. vm_compute. split; [reflexivity | split; reflexivity]. Qed.

(** The run [trace_nil_b] on a cache of capacity 1. *)
Lemma run_ops_within_capacity_witness :
  let cap := 1 in
  let c := run_ops () (NewAdapterMemoryLru cap) trace_nil_b in
  (∃ l, lru c = Some l ∧ lru_cap l = cap ∧
        NoDup (lru_list l) ∧ Z.of_nat (length (lru_list l)) <= cap ∧
        (∀ k, k ∈ lru_list l → k ∈ lru_data l) ∧
        (∀ k, k ∈ lru_data l → k ∉ lru_list l → key_is_nil k = true) ∧
        dom (data c) ⊆ lru_data l ∧
        (lru_no_nil l → cache_inv c)) ∧
  Z.of_nat (size (data c)) <= cap + 1 ∧
  (∀ now, AdapterMemory_Size c now <= cap + 1) ∧
  ((∀ k, is_Some (data c !! k) → key_is_nil k = false) →
   Z.of_nat (size (data c)) <= cap ∧ ∀ now, AdapterMemory_Size c now <= cap).
Proof.
  apply (run_ops_within_capacity (K:=option string) (V:=Z) (Err:=string) () 1
           trace_nil_b).
  vm_compute. discriminate.
Defined.

(** The run [trace_ab] on a cache without tracker. *)
Lemma run_ops_indexes_follow_data_witness :
  let c : Cache := run_ops () NewAdapterMemory trace_ab in
  index_inv (expireTimes c, expireSets c) ∧
  no_zero_bucket (expireTimes c, expireSets c) ∧
  index_inv (drained c) ∧ no_zero_bucket (drained c) ∧
  ∀ k item, data c !! k = Some item → last_clock clock0 trace_ab <= item_e item →
    valid_ms (item_e item) ∧
    (drained c).1 !! k = Some (makeExpireKey (item_e item)) ∧
    in_bucket (drained c).2 (makeExpireKey (item_e item)) k.
Proof.
  apply (run_ops_indexes_follow_data () (NewAdapterMemory : Cache) clock0 trace_ab).
  - by left.
  - exact (proj1 trace_ab_valid).
  - exact (proj2 trace_ab_valid).
Defined.

(** A tick two seconds after the run [trace_ab]. *)
Lemma tick_deletes_only_expired_witness :
  let c : Cache := run_ops () NewAdapterMemory trace_ab in
  let c' := syncEventAndClearExpired c (clock0 + 2000) in
  (∀ k item, data c' !! k = Some item → data c !! k = Some item) ∧
  (∀ k item, data c !! k = Some item → data c' !! k = None →
             item_e item < clock0 + 2000).
Proof.
  apply (tick_deletes_only_expired () (NewAdapterMemory : Cache) clock0
           (clock0 + 2000) trace_ab).
  - by left.
  - exact (proj1 trace_ab_valid).
  - exact (proj2 trace_ab_valid).
  - vm_compute. discriminate.
  - vm_compute. split; [discriminate | reflexivity].
Defined.

Lemma tick_invisible_to_readers_witness :
  let c : Cache := run_ops () (NewAdapterMemoryLru 2) trace_ab in
  let c' := syncEventAndClearExpired c (clock0 + 2000) in
  (∀ k, (AdapterMemory_Get c' (clock0 + 2500) k).2
        = (AdapterMemory_Get c (clock0 + 2500) k).2) ∧
  (∀ k, (AdapterMemory_Contains c' (clock0 + 2500) k).2
        = (AdapterMemory_Contains c (clock0 + 2500) k).2) ∧
  AdapterMemory_Data c' (clock0 + 2500) = AdapterMemory_Data c (clock0 + 2500) ∧
  AdapterMemory_Keys c' (clock0 + 2500) = AdapterMemory_Keys c (clock0 + 2500) ∧
  AdapterMemory_Values c' (clock0 + 2500) = AdapterMemory_Values c (clock0 + 2500) ∧
  AdapterMemory_Size c' (clock0 + 2500) = AdapterMemory_Size c (clock0 + 2500).
Proof.
  apply (tick_invisible_to_readers () (NewAdapterMemoryLru 2 : Cache) clock0
           (clock0 + 2000) (clock0 + 2500) trace_ab).
  - right. by exists 2.
  - exact (proj1 trace_ab_valid).
  - exact (proj2 trace_ab_valid).
  - vm_compute. discriminate.
  - vm_compute. split; [discriminate | reflexivity].
  - vm_compute. discriminate.
Defined.

(** The item of "a" expires at [clock0 + 1000]: the tick at
    [clock0 + 2000] is in the second after the one of the expiry. *)
Lemma tick_deletes_within_five_seconds_witness :
  data (syncEventAndClearExpired (run_ops () (NewAdapterMemory : Cache) trace_ab)
          (clock0 + 2000)) !! "a" = None ↔
  (clock0 + 1000) ÷ 1000 + 1 <= (clock0 + 2000) ÷ 1000 <= (clock0 + 1000) ÷ 1000 + 5.
Proof.
  apply (tick_deletes_within_five_seconds () (NewAdapterMemory : Cache) clock0
           (clock0 + 2000) trace_ab "a" (mkItem (Val 1) (clock0 + 1000))).
  - by left.
  - exact (proj1 trace_ab_valid).
  - exact (proj2 trace_ab_valid).
  - vm_compute. split; [discriminate | reflexivity].
  - vm_compute. reflexivity.
  - vm_compute. reflexivity.
  - vm_compute. discriminate.
Defined.

Example tick_deletes_expired_key :
  let c : Cache := run_ops () NewAdapterMemory trace_ab in
  data c !! "a" = Some (mkItem (Val 1) (clock0 + 1000)) ∧
  data (syncEventAndClearExpired c (clock0 + 1999)) !! "a"
    = Some (mkItem (Val 1) (clock0 + 1000)) ∧
  data (syncEventAndClearExpired c (clock0 + 2000)) !! "a" = None ∧
  data (syncEventAndClearExpired c (clock0 + 6999)) !! "a" = None ∧
  data (syncEventAndClearExpired c (clock0 + 7000)) !! "a"
    = Some (mkItem (Val 1) (clock0 + 1000)).
Proof. vm_compute. repeat split; reflexivity. Qed.
